(** * Scrape orchestration core of lib/promscrape/scraper.go

    A shallow embedding of the reconcile loop of [scraperGroup], of the
    capacity-one config channels of [scrapeConfigs], and of the event loop
    of [runScraper], together with the properties the design document
    states about them.

    Calls into collaborators that live outside this file of the repository
    (the logger, the target-status monitor [tsmGlobal], the duplicate
    registry [droppedTargetsMap], the metrics counters, goroutine spawns and
    channel closes) are recorded as events in a chronological trace. *)

From stdpp Require Import gmap strings list fin_maps.
From Stdlib Require Import ZArith.

Set Default Proof Using "Type".

(** ** Data model *)

(** [prompbmarshal.Label]. *)
Record Label := mkLabel { Name : string; Value : string }.

(** A Go slice of labels is either [nil] ([None]) or a possibly empty
    sequence ([Some l]); the reconcile tests [originalLabels != nil]. *)
Definition labelSlice := option (list Label).

(** Modelled from the spec: the [ScrapeWork] struct is declared outside
    scraper.go; it describes one target (destination URL, interval, timeout,
    final labels, original labels).  Its fingerprint method [key()] is a
    parameter of the development. *)
Record ScrapeWork := mkScrapeWork {
  ScrapeURL : string;
  ScrapeInterval : Z;
  ScrapeTimeout : Z;
  Labels : list Label;
  OriginalLabels : labelSlice
}.

(** [type scraper struct { sw scrapeWork; stopCh chan struct{} }].
    [stopCh] is the address of the channel made by [newScraper]; it doubles
    as the identity of the instance.  Of the embedded [scrapeWork] only the
    fields [Config] and [ScrapeGroup] are kept: [ReadData],
    [GetStreamReader] and [PushData] are callbacks fixed by [sw] and by the
    group. *)
Record scraper := mkScraper {
  stopCh : nat;
  Config : ScrapeWork;
  ScrapeGroup : string
}.

#[global] Instance Label_eq_dec : EqDecision Label.
Proof. solve_decision. Defined.
#[global] Instance ScrapeWork_eq_dec : EqDecision ScrapeWork.
Proof. solve_decision. Defined.
#[global] Instance scraper_eq_dec : EqDecision scraper.
Proof. solve_decision. Defined.

(** Effects of the reconcile on its collaborators, in program order. *)
Inductive event :=
  | EvLogDuplicate (sw : ScrapeWork) (original1 : list Label)
      (* logger.Errorf("skipping duplicate scrape target ...") *)
  | EvDropped (ol : labelSlice)
      (* droppedTargetsMap.Register(sw.OriginalLabels) *)
  | EvGo (sc : scraper)
      (* sg.wg.Add(1); go func() { ... sc.sw.run(sc.stopCh) ... }() *)
  | EvRegister (sw : ScrapeWork)
      (* tsmGlobal.Register(sw) *)
  | EvClose (ch : nat)
      (* close(sc.stopCh) *)
  | EvChangesAdd (n : nat)
      (* sg.changesCount.Add(n) *)
  | EvLogSummary (added removed total : nat)
      (* logger.Infof("%s: added targets: ...") *)
  | EvWgWait.
      (* sg.wg.Wait() *)

#[global] Instance event_eq_dec : EqDecision event.
Proof. solve_decision. Defined.

(** A call either returns or panics; both carry the state reached. *)
Inductive outcome (A : Type) :=
  | Done (a : A)
  | Panic (a : A).
Arguments Done {A} a.
Arguments Panic {A} a.

Definition outcome_state {A} (o : outcome A) : A :=
  match o with Done a | Panic a => a end.

Definition returned {A} (o : outcome A) : Prop :=
  match o with Done _ => True | Panic _ => False end.

(** Two calls that end the same way, in related states. *)
Definition same_outcome {A} (R : A -> A -> Prop) (o1 o2 : outcome A) : Prop :=
  match o1, o2 with
  | Done a1, Done a2 => R a1 a2
  | Panic a1, Panic a2 => R a1 a2
  | _, _ => False
  end.

Module Group.

(** [type scraperGroup struct].  [m] is [None] for the nil map that [stop]
    leaves behind.  [nextCh] is the allocator of channel addresses and
    [trace] the effects performed so far on behalf of this group. *)
Record scraperGroup := mkGroup {
  name : string;
  m : option (gmap string scraper);
  nextCh : nat;
  trace : list event
}.

Definition emit (e : event) (sg : scraperGroup) : scraperGroup :=
  {| name := name sg; m := m sg; nextCh := nextCh sg;
     trace := trace sg ++ [e] |}.

Definition set_m (m' : option (gmap string scraper)) (sg : scraperGroup)
  : scraperGroup :=
  {| name := name sg; m := m'; nextCh := nextCh sg; trace := trace sg |}.

(** [newScraperGroup]: a fresh, open group with an empty map. *)
Definition newScraperGroup (n : string) : scraperGroup :=
  {| name := n; m := Some ∅; nextCh := 0; trace := [] |}.

(** [newScraper]: allocates the stop channel and copies [*sw]. *)
Definition newScraper (sw : ScrapeWork) (group : string) (sg : scraperGroup)
  : scraper * scraperGroup :=
  ({| stopCh := nextCh sg; Config := sw; ScrapeGroup := group |},
   {| name := name sg; m := m sg; nextCh := S (nextCh sg);
      trace := trace sg |}).

(** Reading [sg.m[key]]: a nil map reads as an absent key. *)
Definition m_lookup (k : string) (sg : scraperGroup) : option scraper :=
  match m sg with
  | Some mm => mm !! k
  | None => None
  end.

Section Reconcile.

(** [ScrapeWork.key()], defined outside scraper.go. *)
Variable key : ScrapeWork -> string.

(** [*suppressDuplicateScrapeTargetErrors]. *)
Variable suppress : bool.

(** State of the first loop of [update]. *)
Record pass1 := mkPass1 {
  swsMap : gmap string labelSlice;
  grp : scraperGroup;
  additionsCount : nat
}.

(** Reading [swsMap[key]]: an absent key reads as the nil slice. *)
Definition swsMap_get (k : string) (sm : gmap string labelSlice)
  : labelSlice :=
  match sm !! k with
  | Some ol => ol
  | None => None
  end.

(** One iteration of [for i := range sws]. *)
Definition visit (st : pass1) (sw : ScrapeWork) : outcome pass1 :=
  let k := key sw in
  match swsMap_get k (swsMap st) with
  | Some originalLabels =>
      let g1 := if suppress then grp st
                else emit (EvLogDuplicate sw originalLabels) (grp st) in
      let g2 := emit (EvDropped (OriginalLabels sw)) g1 in
      Done {| swsMap := swsMap st; grp := g2;
              additionsCount := additionsCount st |}
  | None =>
      let sm := <[k := OriginalLabels sw]> (swsMap st) in
      match m_lookup k (grp st) with
      | Some _ =>
          Done {| swsMap := sm; grp := grp st;
                  additionsCount := additionsCount st |}
      | None =>
          let '(sc, g1) := newScraper sw (name (grp st)) (grp st) in
          let g2 := emit (EvGo sc) g1 in
          let g3 := emit (EvRegister sw) g2 in
          match m g3 with
          | None =>
              (* assignment to entry in nil map *)
              Panic {| swsMap := sm; grp := g3;
                       additionsCount := additionsCount st |}
          | Some mm =>
              Done {| swsMap := sm; grp := set_m (Some (<[k := sc]> mm)) g3;
                      additionsCount := S (additionsCount st) |}
          end
      end
  end.

Fixpoint visit_all (st : pass1) (sws : list ScrapeWork) : outcome pass1 :=
  match sws with
  | [] => Done st
  | sw :: rest =>
      match visit st sw with
      | Done st' => visit_all st' rest
      | Panic st' => Panic st'
      end
  end.

(** State of the second loop of [update]. *)
Record pass2 := mkPass2 {
  grp2 : scraperGroup;
  deletionsCount : nat
}.

(** One iteration of [for key, sc := range sg.m]. *)
Definition sweep (sm : gmap string labelSlice) (st : pass2)
    (e : string * scraper) : pass2 :=
  match sm !! e.1 with
  | Some _ => st
  | None =>
      let g1 := emit (EvClose (stopCh e.2)) (grp2 st) in
      {| grp2 := set_m (delete e.1 <$> m g1) g1;
         deletionsCount := S (deletionsCount st) |}
  end.

(** The entries the range statement visits.  Go leaves the order
    unspecified; the model takes the order of [map_to_list]. *)
Definition entries (sg : scraperGroup) : list (string * scraper) :=
  match m sg with
  | Some mm => map_to_list mm
  | None => []
  end.

Definition sweep_all (sm : gmap string labelSlice) (sg : scraperGroup)
  : pass2 :=
  foldl (sweep sm) {| grp2 := sg; deletionsCount := 0 |} (entries sg).

Definition m_len (sg : scraperGroup) : nat :=
  match m sg with
  | Some mm => size mm
  | None => 0
  end.

(** The tail of [update]: bump the changes counter and log. *)
Definition report (a d : nat) (sg : scraperGroup) : scraperGroup :=
  if (bool_decide (0 < a) || bool_decide (0 < d))%bool
  then emit (EvLogSummary a d (m_len sg)) (emit (EvChangesAdd (a + d)) sg)
  else sg.

(** What one call of [update] did: the group it leaves and its two local
    counters. *)
Record summary := mkSummary {
  result : scraperGroup;
  additions : nat;
  deletions : nat
}.

(** [func (sg *scraperGroup) update(sws []ScrapeWork)], with its locals. *)
Definition reconcile (sg : scraperGroup) (sws : list ScrapeWork)
  : outcome summary :=
  match visit_all {| swsMap := ∅; grp := sg; additionsCount := 0 |} sws with
  | Panic st =>
      Panic {| result := grp st; additions := additionsCount st;
               deletions := 0 |}
  | Done st =>
      let st2 := sweep_all (swsMap st) (grp st) in
      let a := additionsCount st in
      let d := deletionsCount st2 in
      Done {| result := report a d (grp2 st2); additions := a;
              deletions := d |}
  end.

Definition update (sg : scraperGroup) (sws : list ScrapeWork)
  : outcome scraperGroup :=
  match reconcile sg sws with
  | Done r => Done (result r)
  | Panic r => Panic (result r)
  end.

(** [func (sg *scraperGroup) stop()]. *)
Definition stop (sg : scraperGroup) : scraperGroup :=
  let g1 := foldl (fun g e => emit (EvClose (stopCh e.2)) g) sg (entries sg) in
  emit EvWgWait (set_m None g1).

(** The keys of a desired list, as a set. *)
Definition keyset (sws : list ScrapeWork) : gset string :=
  list_to_set (key <$> sws).

(** The keys of the live map; the nil map has none. *)
Definition live_keys (sg : scraperGroup) : gset string :=
  match m sg with
  | Some mm => dom mm
  | None => ∅
  end.

(** The first entry of a desired list that has the given key. *)
Definition first_with_key (k : string) (sws : list ScrapeWork)
  : option ScrapeWork :=
  List.find (fun sw => bool_decide (key sw = k)) sws.

(** The effects of skipping a detected duplicate. *)
Definition dup_events (sw : ScrapeWork) (original1 : list Label)
  : list event :=
  (if suppress then [] else [EvLogDuplicate sw original1])
  ++ [EvDropped (OriginalLabels sw)].

(** The registrations made in the duplicate registry. *)
Fixpoint dropped (t : list event) : list labelSlice :=
  match t with
  | [] => []
  | EvDropped ol :: t' => ol :: dropped t'
  | _ :: t' => dropped t'
  end.

(** A trace without its diagnostic log lines. *)
Definition is_log (e : event) : bool :=
  match e with
  | EvLogDuplicate _ _ => true
  | _ => false
  end.

Definition silent (t : list event) : list event :=
  List.filter (fun e => negb (is_log e)) t.

(** The scraper the first loop builds for [sw] in state [st]. *)
Definition fresh (st : pass1) (sw : ScrapeWork) : scraper :=
  {| stopCh := nextCh (grp st); Config := sw; ScrapeGroup := name (grp st) |}.

(** The four ways one iteration of the first loop can go: a detected
    duplicate, a key that is already live, a new key on an open group, and
    a new key on the nil map. *)
Inductive visit_case (st : pass1) (sw : ScrapeWork) : outcome pass1 -> Prop :=
  | visit_dup ol :
      swsMap_get (key sw) (swsMap st) = Some ol ->
      visit_case st sw
        (Done {| swsMap := swsMap st;
                 grp := {| name := name (grp st); m := m (grp st);
                           nextCh := nextCh (grp st);
                           trace := trace (grp st)
                                    ++ dup_events sw ol |};
                 additionsCount := additionsCount st |})
  | visit_kept sc :
      swsMap_get (key sw) (swsMap st) = None ->
      m_lookup (key sw) (grp st) = Some sc ->
      visit_case st sw
        (Done {| swsMap := <[key sw := OriginalLabels sw]> (swsMap st);
                 grp := grp st;
                 additionsCount := additionsCount st |})
  | visit_new mm :
      swsMap_get (key sw) (swsMap st) = None ->
      m (grp st) = Some mm ->
      mm !! key sw = None ->
      visit_case st sw
        (Done {| swsMap := <[key sw := OriginalLabels sw]> (swsMap st);
                 grp := {| name := name (grp st);
                           m := Some (<[key sw := fresh st sw]> mm);
                           nextCh := S (nextCh (grp st));
                           trace := trace (grp st)
                                    ++ [EvGo (fresh st sw); EvRegister sw] |};
                 additionsCount := S (additionsCount st) |})
  | visit_nil :
      swsMap_get (key sw) (swsMap st) = None ->
      m (grp st) = None ->
      visit_case st sw
        (Panic {| swsMap := <[key sw := OriginalLabels sw]> (swsMap st);
                  grp := {| name := name (grp st); m := None;
                            nextCh := S (nextCh (grp st));
                            trace := trace (grp st)
                                     ++ [EvGo (fresh st sw); EvRegister sw] |};
                  additionsCount := additionsCount st |}).

(** The entries the second loop removes, and the closes it performs. *)
Definition doomed (sm : gmap string labelSlice) (l : list (string * scraper))
  : list (string * scraper) :=
  filter (fun e => sm !! e.1 = None) l.

Definition closes (l : list (string * scraper)) : list event :=
  (fun e => EvClose (stopCh e.2)) <$> l.

(** The state in which the first loop starts. *)
Definition start (sg : scraperGroup) : pass1 :=
  {| swsMap := ∅; grp := sg; additionsCount := 0 |}.

(** The entries of a desired list whose key already occurred, either in
    [seen] or earlier in the list. *)
Fixpoint later_occurrences (seen : gset string) (sws : list ScrapeWork)
  : list ScrapeWork :=
  match sws with
  | [] => []
  | sw :: rest =>
      if decide (key sw ∈ seen)
      then sw :: later_occurrences seen rest
      else later_occurrences ({[key sw]} ∪ seen) rest
  end.

(** Every value stored in the map of seen keys is a non-nil slice. *)
Definition seen_nonnil (sm : gmap string labelSlice) : Prop :=
  forall k, k ∈ dom sm -> swsMap_get k sm <> None.

(** Two groups that differ at most in their diagnostic log lines. *)
Definition same_but_log (g1 g2 : scraperGroup) : Prop :=
  name g1 = name g2 /\ m g1 = m g2 /\ nextCh g1 = nextCh g2
  /\ silent (trace g1) = silent (trace g2).

Definition same_but_log1 (s1 s2 : pass1) : Prop :=
  swsMap s1 = swsMap s2 /\ additionsCount s1 = additionsCount s2
  /\ same_but_log (grp s1) (grp s2).

(** A history of calls made on one group by its owner. *)
Inductive op :=
  | OpUpdate (sws : list ScrapeWork)
  | OpStop.

Definition run_op (sg : scraperGroup) (o : op) : outcome scraperGroup :=
  match o with
  | OpUpdate sws => update sg sws
  | OpStop => Done (stop sg)
  end.

(** A panic ends the history: nothing runs after it. *)
Fixpoint exec (sg : scraperGroup) (ops : list op) : outcome scraperGroup :=
  match ops with
  | [] => Done sg
  | o :: rest =>
      match run_op sg o with
      | Done sg' => exec sg' rest
      | Panic sg' => Panic sg'
      end
  end.

(** *** Workers seen through the trace *)

(** The scrapers whose worker goroutine was spawned, oldest first. *)
Fixpoint spawned (t : list event) : list scraper :=
  match t with
  | [] => []
  | EvGo sc :: t' => sc :: spawned t'
  | _ :: t' => spawned t'
  end.

(** The channels closed so far. *)
Fixpoint closed (t : list event) : list nat :=
  match t with
  | [] => []
  | EvClose ch :: t' => ch :: closed t'
  | _ :: t' => closed t'
  end.

(** The workers that were spawned and not yet told to stop. *)
Definition alive (t : list event) : list scraper :=
  filter (fun sc => stopCh sc ∉ closed t) (spawned t).

(** The keys under which the alive workers run, with multiplicity. *)
Definition alive_keys (t : list event) : list string :=
  (fun sc => key (Config sc)) <$> alive t.

(** At most one alive worker per key. *)
Definition at_most_one (t : list event) : Prop := NoDup (alive_keys t).

(** A property of traces that held at every instant of a history. *)
Definition at_every_instant (P : list event -> Prop) (t : list event)
  : Prop :=
  forall p, p `prefix_of` t -> P p.

(** Every alive worker is the entry of the live map under its own key. *)
Definition alive_in_map (sg : scraperGroup) : Prop :=
  forall sc, sc ∈ alive (trace sg) ->
    m_lookup (key (Config sc)) sg = Some sc.

(** No two entries of the live map share a stop channel, and every
    channel in use was handed out by the allocator. *)
Definition channels_distinct (sg : scraperGroup) : Prop :=
  forall k1 k2 sc1 sc2,
    m_lookup k1 sg = Some sc1 -> m_lookup k2 sg = Some sc2 ->
    stopCh sc1 = stopCh sc2 -> k1 = k2.

Definition channels_allocated (sg : scraperGroup) : Prop :=
  forall k sc, m_lookup k sg = Some sc -> stopCh sc < nextCh sg.

Definition channels_ok (sg : scraperGroup) : Prop :=
  channels_distinct sg /\ channels_allocated sg.

(** Every entry of the live map is an alive worker running under the key
    of the entry, and every closed channel came from the allocator. *)
Definition entries_alive (sg : scraperGroup) : Prop :=
  forall k sc, m_lookup k sg = Some sc ->
    sc ∈ alive (trace sg) /\ key (Config sc) = k.

Definition closed_allocated (sg : scraperGroup) : Prop :=
  forall ch, ch ∈ closed (trace sg) -> ch < nextCh sg.

Definition tidy (sg : scraperGroup) : Prop :=
  entries_alive sg /\ closed_allocated sg /\ channels_ok sg.

(** The invariant of a group between two calls. *)
Definition consistent (sg : scraperGroup) : Prop :=
  alive_in_map sg /\ at_every_instant at_most_one (trace sg).

(** *** Stop channels over a whole history *)

(** Every worker that was ever spawned got a stop channel of its own from
    the allocator. *)
Definition channels_fresh (sg : scraperGroup) : Prop :=
  NoDup (stopCh <$> spawned (trace sg))
  /\ forall sc, sc ∈ spawned (trace sg) -> stopCh sc < nextCh sg.

(** No channel was closed twice, and every closed channel is the stop
    channel of a worker that was spawned. *)
Definition closed_once (t : list event) : Prop :=
  NoDup (closed t)
  /\ forall ch, ch ∈ closed t -> exists sc, sc ∈ spawned t /\ stopCh sc = ch.

(** The effects of skipping a duplicate: the log line and the registration
    in the duplicate registry. *)
Definition is_dup_event (e : event) : bool :=
  match e with
  | EvLogDuplicate _ _ | EvDropped _ => true
  | _ => false
  end.

(** The effects of the first loop of [update]: spawning and registering a
    scraper, skipping a duplicate. *)
Definition is_first_loop_event (e : event) : bool :=
  match e with
  | EvGo _ | EvRegister _ | EvLogDuplicate _ _ | EvDropped _ => true
  | _ => false
  end.

(** The effect of the second loop of [update]. *)
Definition is_close_event (e : event) : bool :=
  match e with
  | EvClose _ => true
  | _ => false
  end.

(** The effects of the tail of [update] with [a] additions, [d] deletions
    and [total] entries left. *)
Definition summary_events (a d total : nat) : list event :=
  if (bool_decide (0 < a) || bool_decide (0 < d))%bool
  then [EvChangesAdd (a + d); EvLogSummary a d total]
  else [].

End Reconcile.

(** *** The worker goroutine *)

(** The body of the goroutine spawned by [update], one step per statement:
    [defer sg.wg.Done(); sc.sw.run(sc.stopCh); tsmGlobal.Unregister(sw)]. *)
Inductive workerStep :=
  | WRunCall (sc : scraper)       (* sc.sw.run(sc.stopCh) is entered *)
  | WRunReturn (sc : scraper)     (* sc.sw.run(sc.stopCh) returns *)
  | WUnregister (sw : ScrapeWork) (* tsmGlobal.Unregister(sw) *)
  | WDone.                        (* deferred sg.wg.Done() *)

Definition worker (sc : scraper) : list workerStep :=
  [WRunCall sc; WRunReturn sc; WUnregister (Config sc); WDone].

#[global] Instance workerStep_eq_dec : EqDecision workerStep.
Proof. solve_decision. Defined.

(** One step of the process around a group: its owner performs the next
    effect of the trace, or a worker goroutine performs its next
    statement. *)
Inductive item :=
  | Owner (e : event)
  | Worker (sc : scraper) (w : workerStep).

#[global] Instance item_eq_dec : EqDecision item.
Proof. solve_decision. Defined.

(** The goroutines that were spawned, each with the statements it still
    has to perform. *)
Definition pool := list (scraper * list workerStep).

Fixpoint remaining (sc : scraper) (p : pool) : option (list workerStep) :=
  match p with
  | [] => None
  | (sc', ws) :: p' => if decide (sc' = sc) then Some ws else remaining sc p'
  end.

Fixpoint set_remaining (sc : scraper) (ws : list workerStep) (p : pool)
  : pool :=
  match p with
  | [] => []
  | (sc', ws') :: p' =>
      if decide (sc' = sc) then (sc', ws) :: p'
      else (sc', ws') :: set_remaining sc ws p'
  end.

(** The goroutine of [sc] performs [w], if that is its next statement. *)
Definition advance (sc : scraper) (w : workerStep) (p : pool) : option pool :=
  match remaining sc p with
  | Some (w' :: ws) =>
      if decide (w = w') then Some (set_remaining sc ws p) else None
  | _ => None
  end.

(** The [go] statement puts a new goroutine in the pool. *)
Definition spawn (e : event) (p : pool) : pool :=
  match e with
  | EvGo sc => p ++ [(sc, worker sc)]
  | _ => p
  end.

(** [s] is an execution of the owner's trace [t] (or of a prefix of it)
    interleaved with steps of the goroutines it spawns.  The scheduler may
    run a goroutine at any time after its [go] statement. *)
Fixpoint interleaving (p : pool) (t : list event) (s : list item) : bool :=
  match s with
  | [] => true
  | Owner e :: s' =>
      match t with
      | e' :: t' => bool_decide (e = e') && interleaving (spawn e p) t' s'
      | [] => false
      end
  | Worker sc w :: s' =>
      match advance sc w p with
      | Some p' => interleaving p' t s'
      | None => false
      end
  end.

(** Every [go] statement in the trace is directly followed by the call of
    [tsmGlobal.Register] for the same target. *)
Fixpoint go_then_register (t : list event) : Prop :=
  match t with
  | [] => True
  | EvGo sc :: t' =>
      match t' with
      | EvRegister sw :: _ => sw = Config sc /\ go_then_register t'
      | _ => False
      end
  | _ :: t' => go_then_register t'
  end.

(** The reading of the design document: in every execution, a worker
    enters [run] only after [Register] was called for its target. *)
Definition register_before_run (t : list event) : Prop :=
  forall s sc i,
    interleaving [] t s = true ->
    s !! i = Some (Worker sc (WRunCall sc)) ->
    exists j, j < i /\ s !! j = Some (Owner (EvRegister (Config sc))).

(** Every statement of a goroutine comes after the [go] statement that
    spawned it. *)
Definition spawned_before_step (s : list item) : Prop :=
  forall i sc w,
    s !! i = Some (Worker sc w) ->
    exists j, j < i /\ s !! j = Some (Owner (EvGo sc)).

(** [tsmGlobal.Unregister] is called by a goroutine for its own target,
    after its [run] has returned. *)
Definition unregister_after_return (s : list item) : Prop :=
  forall i sc sw,
    s !! i = Some (Worker sc (WUnregister sw)) ->
    sw = Config sc
    /\ exists j, j < i /\ s !! j = Some (Worker sc (WRunReturn sc)).

(** The statements a goroutine still has to perform are a tail of its
    body. *)
Definition pool_ok (p : pool) : Prop :=
  forall sc ws, remaining sc p = Some ws -> ws `suffix_of` worker sc.

End Group.

(** ** Sample targets *)

Module Sample.

Definition job : Label := {| Name := "job"; Value := "node" |}.

Definition target_a : ScrapeWork :=
  {| ScrapeURL := "http://a/metrics"; ScrapeInterval := 30;
     ScrapeTimeout := 10; Labels := [job]; OriginalLabels := Some [job] |}.

Definition target_b : ScrapeWork :=
  {| ScrapeURL := "http://b/metrics"; ScrapeInterval := 30;
     ScrapeTimeout := 10; Labels := [job]; OriginalLabels := Some [job] |}.

Definition target_c : ScrapeWork :=
  {| ScrapeURL := "http://c/metrics"; ScrapeInterval := 30;
     ScrapeTimeout := 10; Labels := [job]; OriginalLabels := Some [] |}.

Definition target_d : ScrapeWork :=
  {| ScrapeURL := "http://d/metrics"; ScrapeInterval := 30;
     ScrapeTimeout := 10; Labels := [job]; OriginalLabels := Some [job] |}.

(** A target whose original labels are the nil slice. *)
Definition target_a_nil : ScrapeWork :=
  {| ScrapeURL := "http://a/metrics"; ScrapeInterval := 30;
     ScrapeTimeout := 10; Labels := [job]; OriginalLabels := None |}.

(** A fingerprint for the samples: the URL. *)
Definition url_key (sw : ScrapeWork) : string := ScrapeURL sw.

Definition static : Group.scraperGroup :=
  Group.newScraperGroup "static_configs".

(** The group after a first reconcile with [a] and [b]. *)
Definition static_ab : Group.scraperGroup :=
  outcome_state (Group.update url_key false static [target_a; target_b]).

End Sample.

(** ** Capacity-one config channels *)

Module Chan.

Section Chan.

Context {Config : Type}.

(** [make(chan *Config, 1)]: the buffer holds at most one value. *)
Definition cfgChan := option Config.

(** [ch <- cfg].  [None]: the buffer is full and the sender is suspended
    until a receiver drains it. *)
Definition send (cfg : Config) (ch : cfgChan) : option cfgChan :=
  match ch with
  | None => Some (Some cfg)
  | Some _ => None
  end.

(** [cfg := <-ch].  [None]: the buffer is empty and the receiver is
    suspended. *)
Definition recv (ch : cfgChan) : option (Config * cfgChan) :=
  match ch with
  | Some cfg => Some (cfg, None)
  | None => None
  end.

(** How far a fan-out gets without anyone receiving. *)
Inductive fanout :=
  | Delivered (chs : list cfgChan)
  | Blocked (i : nat) (chs : list cfgChan).

Definition shift (chs0 : cfgChan) (r : fanout) : fanout :=
  match r with
  | Delivered chs => Delivered (chs0 :: chs)
  | Blocked i chs => Blocked (S i) (chs0 :: chs)
  end.

(** [func (scs *scrapeConfigs) updateConfig(cfg *Config)] on the buffers of
    [scs.scfgs], in order. *)
Fixpoint updateConfig (cfg : Config) (chs : list cfgChan) : fanout :=
  match chs with
  | [] => Delivered []
  | ch :: rest =>
      match send cfg ch with
      | None => Blocked 0 (ch :: rest)
      | Some ch' => shift ch' (updateConfig cfg rest)
      end
  end.

(** The reading of the design document: a fan-out always completes, and
    it leaves the new config in every buffer. *)
Definition latest_wins (cfg : Config) (chs : list cfgChan) : Prop :=
  exists chs', updateConfig cfg chs = Delivered chs'
               /\ Forall (fun ch => ch = Some cfg) chs'.

(** What the code does: the fan-out completes when every buffer is empty;
    otherwise the runner is suspended at the first full buffer, whose
    queued config stays in place. *)
Definition blocks_at_first_full (cfg : Config) (chs : list cfgChan)
    (r : fanout) : Prop :=
  match r with
  | Delivered chs' =>
      Forall (fun ch => ch = None) chs
      /\ chs' = replicate (length chs) (Some cfg)
  | Blocked i chs' =>
      (exists old, chs !! i = Some (Some old) /\ chs' !! i = Some (Some old))
      /\ Forall (fun ch => ch = None) (take i chs)
      /\ chs' = replicate i (Some cfg) ++ drop i chs
  end.

End Chan.

End Chan.

(** ** The runner and its scrape configs *)

#[global] Instance byte_eq_decision : EqDecision Byte.byte := Byte.byte_eq_dec.

(** [bytes.Equal]. *)
Definition bytes_Equal (a b : list Byte.byte) : bool := bool_decide (a = b).

(** [atomic.AddInt32]: two's-complement addition on 32 bits. *)
Definition wrap32 (z : Z) : Z := ((z + 2 ^ 31) mod 2 ^ 32 - 2 ^ 31)%Z.
Definition addInt32 (x delta : Z) : Z := wrap32 (x + delta).

Module Runner.

(** The command-line flags read by scraper.go; durations in nanoseconds. *)
Record flags := mkFlags {
  configCheckInterval : Z;
  fileSDCheckInterval : Z;
  kubernetesSDCheckInterval : Z;
  openstackSDCheckInterval : Z;
  consulSDCheckInterval : Z;
  eurekaSDCheckInterval : Z;
  dnsSDCheckInterval : Z;
  ec2SDCheckInterval : Z;
  gceSDCheckInterval : Z;
  dockerswarmSDCheckInterval : Z;
  promscrapeConfigFile : string;
  suppressDuplicateScrapeTargetErrors : bool
}.

(** The ten [scs.add] calls of [runScraper], in program order. *)
Definition categories (fl : flags) : list (string * Z) :=
  [ ("static_configs", 0%Z);
    ("file_sd_configs", fileSDCheckInterval fl);
    ("kubernetes_sd_configs", kubernetesSDCheckInterval fl);
    ("openstack_sd_configs", openstackSDCheckInterval fl);
    ("consul_sd_configs", consulSDCheckInterval fl);
    ("eureka_sd_configs", eurekaSDCheckInterval fl);
    ("dns_sd_configs", dnsSDCheckInterval fl);
    ("ec2_sd_configs", ec2SDCheckInterval fl);
    ("gce_sd_configs", gceSDCheckInterval fl);
    ("dockerswarm_sd_configs", dockerswarmSDCheckInterval fl) ].

Section System.

(** The parsed configuration, opaque to the core. *)
Context {Config : Type}.

Variable key : ScrapeWork -> string.
Variable fl : flags.

(** What [loadConfig(configFile)] returned. *)
Inductive loadResult :=
  | LoadOk (cfg : Config) (data : list Byte.byte)
  | LoadErr (err : string).

(** [func CheckConfig() error]; [None] is the nil error. *)
Definition CheckConfig (load : string -> loadResult) : option string :=
  if decide (promscrapeConfigFile fl = "")
  then Some "missing -promscrape.config option"
  else match load (promscrapeConfigFile fl) with
       | LoadOk _ _ => None
       | LoadErr err => Some err
       end.

(** Where the goroutine of [scrapeConfig.run] stands. *)
Inductive scfgPc :=
  | AwaitInitial                    (* cfg := <-scfg.cfgCh *)
  | FirstReconcile (cfg : Config)   (* before updateScrapeWork(cfg) *)
  | ReportReady (cfg : Config)      (* before atomic.AddInt32(..., -1) *)
  | Selecting (cfg : Config)        (* in the select of the loop *)
  | Exited.                         (* returned, sg.stop() has run *)

(** One [scrapeConfig] with the locals of its goroutine. *)
Record scrapeConfig := mkScrapeConfig {
  scName : string;
  checkInterval : Z;
  cfgCh : @Chan.cfgChan Config;
  pc : scfgPc;
  swsPrev : list ScrapeWork;
  sg : Group.scraperGroup
}.

(** Where [runScraper] stands, with its locals [cfg] and [data]. *)
Inductive runnerPc :=
  | RStart
  | RAdding (cfg : Config) (data : list Byte.byte) (todo : list (string * Z))
  | RFanout (cfg : Config) (data : list Byte.byte) (i : nat)
  | RSelect (cfg : Config) (data : list Byte.byte)
  | RStopping
  | RReturned
  | RFatal.

Inductive runnerLog :=
  | LogReading
  | LogFatal (err : string)
  | LogSighup
  | LogReloadFailed (err : string)
  | LogNothingChanged
  | LogFoundChanges
  | LogStopping
  | LogStopped.

Record system := mkSystem {
  PendingScrapeConfigs : Z;
  rpc : runnerPc;
  scfgs : list scrapeConfig;
  scsStopClosed : bool;      (* close(scs.stopCh) has run *)
  globalStopClosed : bool;   (* Stop() has closed globalStopCh *)
  configReloads : nat;       (* vm_promscrape_config_reloads_total *)
  rlog : list runnerLog;
  panicked : bool
}.

(** The process right after [Init] spawned the goroutine of [runScraper]. *)
Definition init : system :=
  {| PendingScrapeConfigs := 0; rpc := RStart; scfgs := [];
     scsStopClosed := false; globalStopClosed := false;
     configReloads := 0; rlog := []; panicked := false |}.

Definition set_rpc (p : runnerPc) (s : system) : system :=
  {| PendingScrapeConfigs := PendingScrapeConfigs s; rpc := p;
     scfgs := scfgs s; scsStopClosed := scsStopClosed s;
     globalStopClosed := globalStopClosed s;
     configReloads := configReloads s; rlog := rlog s;
     panicked := panicked s |}.

Definition logr (e : runnerLog) (s : system) : system :=
  {| PendingScrapeConfigs := PendingScrapeConfigs s; rpc := rpc s;
     scfgs := scfgs s; scsStopClosed := scsStopClosed s;
     globalStopClosed := globalStopClosed s;
     configReloads := configReloads s; rlog := rlog s ++ [e];
     panicked := panicked s |}.

Definition set_scfgs (l : list scrapeConfig) (s : system) : system :=
  {| PendingScrapeConfigs := PendingScrapeConfigs s; rpc := rpc s;
     scfgs := l; scsStopClosed := scsStopClosed s;
     globalStopClosed := globalStopClosed s;
     configReloads := configReloads s; rlog := rlog s;
     panicked := panicked s |}.

Definition add_pending (delta : Z) (s : system) : system :=
  {| PendingScrapeConfigs := addInt32 (PendingScrapeConfigs s) delta;
     rpc := rpc s; scfgs := scfgs s; scsStopClosed := scsStopClosed s;
     globalStopClosed := globalStopClosed s;
     configReloads := configReloads s; rlog := rlog s;
     panicked := panicked s |}.

(** The head of the [for] loop: [scs.updateConfig(cfg)] sends to
    [scs.scfgs[i]] for [i = 0, 1, ...], then the runner waits in the
    select. *)
Definition fanout_from (cfg : Config) (data : list Byte.byte) (i : nat)
    (s : system) : system :=
  if decide (i < length (scfgs s))
  then set_rpc (RFanout cfg data i) s
  else set_rpc (RSelect cfg data) s.

(** [func (scs *scrapeConfigs) add(...)]: count the config as pending,
    spawn its goroutine (which creates the group and waits for the first
    config) and append it to [scs.scfgs]. *)
Definition add (nm : string) (iv : Z) (s : system) : system :=
  let s1 := add_pending 1 s in
  let scfg := {| scName := nm; checkInterval := iv; cfgCh := None;
                 pc := AwaitInitial; swsPrev := [];
                 sg := Group.newScraperGroup nm |} in
  set_scfgs (scfgs s1 ++ [scfg]) s1.

(** The reload branches of the select, shared by SIGHUP and the ticker. *)
Definition reload (cfg : Config) (data : list Byte.byte) (sighup : bool)
    (r : loadResult) (s : system) : system :=
  let s0 := if sighup then logr LogSighup s else s in
  match r with
  | LoadErr err => logr (LogReloadFailed err) s0
  | LoadOk cfgNew dataNew =>
      if bytes_Equal data dataNew
      then (if sighup then logr LogNothingChanged s0 else s0)
      else
        let s1 := logr LogFoundChanges s0 in
        let s2 :=
          {| PendingScrapeConfigs := PendingScrapeConfigs s1; rpc := rpc s1;
             scfgs := scfgs s1; scsStopClosed := scsStopClosed s1;
             globalStopClosed := globalStopClosed s1;
             configReloads := S (configReloads s1); rlog := rlog s1;
             panicked := panicked s1 |} in
        fanout_from cfgNew dataNew 0 s2
  end.

(** [updateScrapeWork]: hand the extracted list to the group and remember
    it. *)
Definition updateScrapeWork (c : scrapeConfig) (sws : list ScrapeWork)
    (p : scfgPc) (ch : Chan.cfgChan) : outcome scrapeConfig :=
  let mk g := {| scName := scName c; checkInterval := checkInterval c;
                 cfgCh := ch; pc := p; swsPrev := sws; sg := g |} in
  match Group.update key (suppressDuplicateScrapeTargetErrors fl) (sg c) sws
  with
  | Done g => Done (mk g)
  | Panic g => Panic (mk g)
  end.

(** The atomic steps of the process.  The lists [sws] are what the
    extractor [getScrapeWork(cfg, swsPrev)] returned at that call. *)
Inductive action :=
  | ARunnerStart (r : loadResult)
  | ARunnerAdd
  | ARunnerSend
  | ARunnerSighup (r : loadResult)
  | ARunnerTick (r : loadResult)
  | ARunnerStop
  | ARunnerJoin
  | AStop
  | AScRecvInitial (i : nat)
  | AScFirstReconcile (i : nat) (sws : list ScrapeWork)
  | AScReport (i : nat)
  | AScConfig (i : nat) (sws : list ScrapeWork)
  | AScTick (i : nat) (sws : list ScrapeWork)
  | AScStop (i : nat).

Definition put (i : nat) (o : outcome scrapeConfig) (s : system) : system :=
  match o with
  | Done c => set_scfgs (<[i := c]> (scfgs s)) s
  | Panic c =>
      {| PendingScrapeConfigs := PendingScrapeConfigs s; rpc := rpc s;
         scfgs := <[i := c]> (scfgs s); scsStopClosed := scsStopClosed s;
         globalStopClosed := globalStopClosed s;
         configReloads := configReloads s; rlog := rlog s;
         panicked := true |}
  end.

Definition with_pc (p : scfgPc) (ch : Chan.cfgChan) (c : scrapeConfig)
  : scrapeConfig :=
  {| scName := scName c; checkInterval := checkInterval c; cfgCh := ch;
     pc := p; swsPrev := swsPrev c; sg := sg c |}.

Definition exited (c : scrapeConfig) : bool :=
  match pc c with Exited => true | _ => false end.

(** One step of the runner goroutine. *)
Definition runner_step (s : system) (a : action) : option system :=
  match a, rpc s with
  | ARunnerStart r, RStart =>
      if decide (promscrapeConfigFile fl = "")
      then Some (set_rpc RReturned s)
      else match r with
           | LoadErr err =>
               Some (set_rpc RFatal (logr (LogFatal err) (logr LogReading s)))
           | LoadOk cfg data =>
               Some (set_rpc (RAdding cfg data (categories fl))
                       (logr LogReading s))
           end
  | ARunnerAdd, RAdding cfg data ((nm, iv) :: todo) =>
      let s1 := add nm iv s in
      Some (match todo with
            | [] => fanout_from cfg data 0 s1
            | _ => set_rpc (RAdding cfg data todo) s1
            end)
  | ARunnerSend, RFanout cfg data i =>
      c ← scfgs s !! i;
      ch ← Chan.send cfg (cfgCh c);
      Some (fanout_from cfg data (S i)
              (set_scfgs (<[i := with_pc (pc c) ch c]> (scfgs s)) s))
  | ARunnerSighup r, RSelect cfg data => Some (reload cfg data true r s)
  | ARunnerTick r, RSelect cfg data =>
      if decide (0 < configCheckInterval fl)%Z
      then Some (reload cfg data false r s)
      else None
  | ARunnerStop, RSelect cfg data =>
      if globalStopClosed s
      then Some
        {| PendingScrapeConfigs := PendingScrapeConfigs s; rpc := RStopping;
           scfgs := scfgs s; scsStopClosed := true;
           globalStopClosed := globalStopClosed s;
           configReloads := configReloads s;
           rlog := rlog s ++ [LogStopping]; panicked := panicked s |}
      else None
  | ARunnerJoin, RStopping =>
      (* scs.wg.Wait() returns once every goroutine has returned; the
         records of the goroutines are kept, [scs.scfgs = nil] only drops
         the runner's handles on them. *)
      if forallb exited (scfgs s)
      then Some (set_rpc RReturned (logr LogStopped s))
      else None
  | _, _ => None
  end.

(** One step of the goroutine of [scs.scfgs[i]]. *)
Definition scfg_step (s : system) (a : action) : option system :=
  match a with
  | AScRecvInitial i =>
      c ← scfgs s !! i;
      match pc c with
      | AwaitInitial =>
          '(cfg, ch) ← Chan.recv (cfgCh c);
          Some (put i (Done (with_pc (FirstReconcile cfg) ch c)) s)
      | _ => None
      end
  | AScFirstReconcile i sws =>
      c ← scfgs s !! i;
      match pc c with
      | FirstReconcile cfg =>
          Some (put i (updateScrapeWork c sws (ReportReady cfg) (cfgCh c)) s)
      | _ => None
      end
  | AScReport i =>
      c ← scfgs s !! i;
      match pc c with
      | ReportReady cfg =>
          Some (add_pending (-1)
                  (put i (Done (with_pc (Selecting cfg) (cfgCh c) c)) s))
      | _ => None
      end
  | AScConfig i sws =>
      c ← scfgs s !! i;
      match pc c with
      | Selecting _ =>
          '(cfg, ch) ← Chan.recv (cfgCh c);
          Some (put i (updateScrapeWork c sws (Selecting cfg) ch) s)
      | _ => None
      end
  | AScTick i sws =>
      c ← scfgs s !! i;
      match pc c with
      | Selecting cfg =>
          if decide (0 < checkInterval c)%Z
          then Some (put i (updateScrapeWork c sws (Selecting cfg) (cfgCh c)) s)
          else None
      | _ => None
      end
  | AScStop i =>
      c ← scfgs s !! i;
      match pc c with
      | Selecting _ =>
          if scsStopClosed s
          then Some (put i (Done
                 {| scName := scName c; checkInterval := checkInterval c;
                    cfgCh := cfgCh c; pc := Exited; swsPrev := swsPrev c;
                    sg := Group.stop (sg c) |}) s)
          else None
      | _ => None
      end
  | _ => None
  end.

(** The process brought down by a panic. *)
Definition crashed (s : system) : system :=
  {| PendingScrapeConfigs := PendingScrapeConfigs s; rpc := rpc s;
     scfgs := scfgs s; scsStopClosed := scsStopClosed s;
     globalStopClosed := globalStopClosed s;
     configReloads := configReloads s; rlog := rlog s; panicked := true |}.

(** One step of the process; [None] when the step is not enabled.  A
    panic or [logger.Fatalf] ends the process.  [AStop] is the
    [close(globalStopCh)] of a call of [Stop()]: on a channel that is
    already closed it panics. *)
Definition step (s : system) (a : action) : option system :=
  if panicked s then None
  else match a with
       | AStop =>
           if globalStopClosed s then Some (crashed s)
           else Some
             {| PendingScrapeConfigs := PendingScrapeConfigs s;
                rpc := rpc s; scfgs := scfgs s;
                scsStopClosed := scsStopClosed s; globalStopClosed := true;
                configReloads := configReloads s; rlog := rlog s;
                panicked := panicked s |}
       | ARunnerStart _ | ARunnerAdd | ARunnerSend | ARunnerSighup _
       | ARunnerTick _ | ARunnerStop | ARunnerJoin => runner_step s a
       | _ => scfg_step s a
       end.

(** Running a schedule; [None] if some step of it is not enabled. *)
Fixpoint run (s : system) (acts : list action) : option system :=
  match acts with
  | [] => Some s
  | a :: rest => s' ← step s a; run s' rest
  end.

(** [Stop()] returns once [scraperWG.Wait()] does, that is once the
    goroutine of [runScraper] has returned. *)
Definition Stop_returns (s : system) : Prop :=
  globalStopClosed s = true /\ rpc s = RReturned.

(** The scrape configs that have not reported their first reconcile. *)
Definition reported (c : scrapeConfig) : bool :=
  match pc c with
  | Selecting _ | Exited => true
  | _ => false
  end.

(** The first [sg.update] of a scrape config has returned. *)
Definition applied_initial (c : scrapeConfig) : bool :=
  match pc c with
  | ReportReady _ | Selecting _ | Exited => true
  | _ => false
  end.

(** The names of the categories whose scrape config exists. *)
Definition names (s : system) : list string := scName <$> scfgs s.

(** The reload event of the select: SIGHUP or the ticker, with what
    [loadConfig] returned. *)
Definition reload_event (sighup : bool) (r : loadResult) : action :=
  if sighup then ARunnerSighup r else ARunnerTick r.

(** All the [scs.add] calls of [runScraper] have been made. *)
Definition adds_done (s : system) : bool :=
  match rpc s with
  | RStart | RAdding _ _ _ => false
  | _ => true
  end.

(** By how much a step moves [PendingScrapeConfigs]. *)
Definition pending_delta (a : action) : Z :=
  match a with
  | ARunnerAdd => 1
  | AScReport _ => -1
  | _ => 0
  end.

(** A scrape config that has not been handed its first config. *)
Definition untouched (c : scrapeConfig) : Prop :=
  pc c = AwaitInitial /\ cfgCh c = None.

(** The scrape configs that have not reported, in a list. *)
Definition unreported (l : list scrapeConfig) : nat :=
  length (filter (fun c => reported c = false) l).

(** The invariant of the process: the counter is the number of scrape
    configs that have not reported, and the scrape configs are the
    categories added so far. *)
Definition inv (s : system) : Prop :=
  PendingScrapeConfigs s = Z.of_nat (unreported (scfgs s))
  /\ length (scfgs s) <= 10
  /\ match rpc s with
     | RStart | RFatal => scfgs s = []
     | RAdding _ _ todo =>
         (scName <$> scfgs s) ++ todo.*1 = (categories fl).*1
         /\ todo <> [] /\ Forall untouched (scfgs s)
     | RReturned =>
         scfgs s = [] \/ scName <$> scfgs s = (categories fl).*1
     | _ => scName <$> scfgs s = (categories fl).*1
     end.

(** What a step of a scrape config does to its record [c], giving [c'],
    and to the counter. *)
Definition scfg_moves (c c' : scrapeConfig) (a : action) (p p' : Z) : Prop :=
  scName c' = scName c
  /\ ~ untouched c
  /\ ((reported c' = reported c /\ p' = p /\ pending_delta a = 0%Z)
      \/ (pc c' <> Exited /\ reported c = false /\ reported c' = true
          /\ p' = addInt32 p (-1) /\ pending_delta a = (-1)%Z)).

(** The group of every running scrape config is open (its map is not
    nil). *)
Definition groups_open (s : system) : Prop :=
  Forall (fun c => pc c <> Exited -> is_Some (Group.m (sg c))) (scfgs s).

(** The calls of [Stop()] in a schedule. *)
Definition is_Stop (a : action) : bool :=
  match a with
  | AStop => true
  | _ => false
  end.

Definition stop_calls (acts : list action) : nat :=
  length (List.filter is_Stop acts).

(** The process with a config file, and the schedule that brings it to
    its first wait in the select. *)
Definition boot (cfg : Config) (data : list Byte.byte) : list action :=
  ARunnerStart (LoadOk cfg data)
  :: replicate 10 ARunnerAdd ++ replicate 10 ARunnerSend.

(** *** The steps of a scrape config, as a relation *)

(** What the statement [a] of the goroutine of [scs.scfgs[i]] does to its
    record [c]: the record it leaves, or the state in which it panics. *)
Inductive scfg_transition (s : system) (i : nat) (c : scrapeConfig)
  : action -> outcome scrapeConfig -> Prop :=
  | trans_recv cfg :
      pc c = AwaitInitial -> cfgCh c = Some cfg ->
      scfg_transition s i c (AScRecvInitial i)
        (Done (with_pc (FirstReconcile cfg) None c))
  | trans_first cfg sws :
      pc c = FirstReconcile cfg ->
      scfg_transition s i c (AScFirstReconcile i sws)
        (updateScrapeWork c sws (ReportReady cfg) (cfgCh c))
  | trans_report cfg :
      pc c = ReportReady cfg ->
      scfg_transition s i c (AScReport i)
        (Done (with_pc (Selecting cfg) (cfgCh c) c))
  | trans_config cfg0 cfg sws :
      pc c = Selecting cfg0 -> cfgCh c = Some cfg ->
      scfg_transition s i c (AScConfig i sws)
        (updateScrapeWork c sws (Selecting cfg) None)
  | trans_tick cfg sws :
      pc c = Selecting cfg -> (0 < checkInterval c)%Z ->
      scfg_transition s i c (AScTick i sws)
        (updateScrapeWork c sws (Selecting cfg) (cfgCh c))
  | trans_stop cfg :
      pc c = Selecting cfg -> scsStopClosed s = true ->
      scfg_transition s i c (AScStop i)
        (Done {| scName := scName c; checkInterval := checkInterval c;
                 cfgCh := cfgCh c; pc := Exited; swsPrev := swsPrev c;
                 sg := Group.stop (sg c) |}).

(** The state after a step of a scrape config that left [o]. *)
Definition after_scfg (i : nat) (a : action) (o : outcome scrapeConfig)
    (s : system) : system :=
  match a with
  | AScReport _ => add_pending (-1) (put i o s)
  | _ => put i o s
  end.

(** *** The order of a shutdown *)

(** [scs.stopCh] is closed by [scs.stop()] only, which [runScraper] calls
    only after [Stop()] closed [globalStopCh]; a scrape config returns only
    after [scs.stopCh] was closed; [runScraper] returns only after every
    scrape config has. *)
Definition shutdown_order (s : system) : Prop :=
  (scsStopClosed s = true -> globalStopClosed s = true)
  /\ match rpc s with
     | RStopping => scsStopClosed s = true
     | RReturned => True
     | _ => scsStopClosed s = false
     end
  /\ Forall (fun c => pc c = Exited -> scsStopClosed s = true) (scfgs s)
  /\ (rpc s = RReturned -> Forall (fun c => pc c = Exited) (scfgs s))
  /\ (rpc s = RStart -> scfgs s = [])
  /\ (forall cfg data i, rpc s = RFanout cfg data i -> i < length (scfgs s)).

(** While the first fan-out is under way, the scrape configs that are still
    without their first config are ones the runner has not reached yet;
    afterwards there is none. *)
Definition fed (s : system) : Prop :=
  forall j c, scfgs s !! j = Some c -> untouched c ->
    match rpc s with
    | RStart | RAdding _ _ _ => True
    | RFanout _ _ i => i <= j
    | _ => False
    end.

(** *** Categories and flags *)

(** The name and the check interval of every scrape config. *)
Definition described (s : system) : list (string * Z) :=
  (fun c => (scName c, checkInterval c)) <$> scfgs s.

(** The scrape configs are the categories added so far, each with the
    interval of its flag. *)
Definition follows_flags (s : system) : Prop :=
  match rpc s with
  | RStart | RFatal => scfgs s = []
  | RAdding _ _ todo => described s ++ todo = categories fl
  | RReturned => scfgs s = [] \/ described s = categories fl
  | _ => described s = categories fl
  end.

(** *** The reload counter *)

Definition is_found_changes (e : runnerLog) : bool :=
  match e with
  | LogFoundChanges => true
  | _ => false
  end.

(** The number of "found changes" lines in the log of the runner. *)
Definition found_changes (l : list runnerLog) : nat :=
  length (List.filter is_found_changes l).

(** *** The calls made on the group of a scrape config *)

(** The calls of [scrapeConfig.run] on its group so far: one [update] per
    extracted list, then [stop] once the goroutine has returned. *)
Definition group_ops (c : scrapeConfig) (lists : list (list ScrapeWork))
  : list Group.op :=
  (Group.OpUpdate <$> lists) ++ (if exited c then [Group.OpStop] else []).

(** The group of [c] is what these calls make of a new group named after
    [c], [swsPrev] is the list of the last [update], and there was an
    [update] exactly when the first reconcile is over. *)
Definition group_history (c : scrapeConfig) (lists : list (list ScrapeWork))
  : Prop :=
  Group.exec key (suppressDuplicateScrapeTargetErrors fl)
    (Group.newScraperGroup (scName c)) (group_ops c lists)
  = Done (sg c)
  /\ swsPrev c = default [] (last lists)
  /\ (lists = [] <-> applied_initial c = false).

(** A scrape config whose goroutine has returned, with its group stopped:
    the map is nil and no worker is left with an open stop channel. *)
Definition stopped (c : scrapeConfig) : Prop :=
  pc c = Exited
  /\ Group.m (sg c) = None
  /\ Group.alive (Group.trace (sg c)) = [].

(** *** The fan-out, send by send *)

(** The scrape configs with their buffers replaced by [chs]. *)
Definition with_buffers (l : list scrapeConfig) (chs : list Chan.cfgChan)
  : list scrapeConfig :=
  zip_with (fun c ch => with_pc (pc c) ch c) l chs.

(** *** Progress towards a shutdown *)

(** The statements the goroutine of a scrape config has to go through
    before it can return, plus one for a config waiting in its buffer. *)
Definition scfg_weight (c : scrapeConfig) : nat :=
  match pc c with
  | AwaitInitial => 4
  | FirstReconcile _ => 3
  | ReportReady _ => 2
  | Selecting _ => 1
  | Exited => 0
  end
  + match cfgCh c with
    | Some _ => 1
    | None => 0
    end.

(** A bound on the steps [runScraper] has to take before it can return,
    with [n] scrape configs created so far. *)
Definition runner_weight (p : runnerPc) (n : nat) : nat :=
  match p with
  | RStart => 7 * length (categories fl) + 4
  | RAdding _ _ todo => 5 * length todo + 2 * (n + length todo) + 3
  | RFanout _ _ i => 2 * (n - i) + 3
  | RSelect _ _ => 2
  | RStopping => 1
  | RReturned | RFatal => 0
  end.

(** A bound on the steps the process has to take before [Stop()] can
    return. *)
Definition steps_left (s : system) : nat :=
  runner_weight (rpc s) (length (scfgs s))
  + sum_list_with scfg_weight (scfgs s)
  + (if globalStopClosed s then 0 else 1).

(** [runScraper] returns at once when there is no config file, and
    otherwise only from the stop branch of its select, with its scrape
    configs created. *)
Definition returned_with (s : system) : Prop :=
  rpc s = RReturned -> promscrapeConfigFile fl <> "" -> scfgs s <> [].

(** The invariants of the process, together. *)
Definition sound (s : system) : Prop :=
  inv s /\ groups_open s /\ shutdown_order s /\ fed s /\ returned_with s.

(** *** The ledger of [PendingScrapeConfigs] *)

(** The [scs.add] calls of a schedule, each with the increment of its
    first statement. *)
Definition is_add (a : action) : bool :=
  match a with
  | ARunnerAdd => true
  | _ => false
  end.

Definition adds (acts : list action) : nat :=
  length (List.filter is_add acts).

(** The scrape configs that run the decrement in a schedule, in order. *)
Definition reports (acts : list action) : list nat :=
  omap (fun a => match a with AScReport i => Some i | _ => None end) acts.

(** The scrape configs that run their first [updateScrapeWork] in a
    schedule, in order. *)
Definition first_updates (acts : list action) : list nat :=
  omap (fun a => match a with
                 | AScFirstReconcile i _ => Some i
                 | _ => None
                 end) acts.

(** For every scrape config: whether its first [sg.update] has returned,
    and whether it has run the decrement. *)
Definition progress_flags (s : system) : list (bool * bool) :=
  (fun c => (applied_initial c, reported c)) <$> scfgs s.

(** Every category of [runScraper] has a scrape config whose first
    [sg.update] has returned. *)
Definition every_category_applied (s : system) : bool :=
  forallb (fun nm =>
             existsb (fun c => bool_decide (scName c = nm)
                               && applied_initial c) (scfgs s))
    (categories fl).*1.

(** C8 in the words of the specification, at one state: the counter reads
    zero if and only if every category has applied the initial config. *)
Definition zero_iff_all_applied (s : system) : Prop :=
  PendingScrapeConfigs s = 0%Z <-> every_category_applied s = true.

End System.

End Runner.

Module RunnerSample.

Import Runner.

Definition fl : flags :=
  {| configCheckInterval := 0;
     fileSDCheckInterval := 30000000000;
     kubernetesSDCheckInterval := 30000000000;
     openstackSDCheckInterval := 30000000000;
     consulSDCheckInterval := 30000000000;
     eurekaSDCheckInterval := 30000000000;
     dnsSDCheckInterval := 30000000000;
     ec2SDCheckInterval := 60000000000;
     gceSDCheckInterval := 60000000000;
     dockerswarmSDCheckInterval := 30000000000;
     promscrapeConfigFile := "scrape.yml";
     suppressDuplicateScrapeTargetErrors := false |}.

(** The same flags without [-promscrape.config]. *)
Definition fl_nofile : flags :=
  {| configCheckInterval := 0;
     fileSDCheckInterval := 30000000000;
     kubernetesSDCheckInterval := 30000000000;
     openstackSDCheckInterval := 30000000000;
     consulSDCheckInterval := 30000000000;
     eurekaSDCheckInterval := 30000000000;
     dnsSDCheckInterval := 30000000000;
     ec2SDCheckInterval := 60000000000;
     gceSDCheckInterval := 60000000000;
     dockerswarmSDCheckInterval := 30000000000;
     promscrapeConfigFile := "";
     suppressDuplicateScrapeTargetErrors := false |}.

(** Configs are numbered snapshots here. *)
Definition raw : list Byte.byte := [Byte.x73; Byte.x63].

(** The process waiting in the select after the first fan-out. *)
Definition waiting : option (@system nat) :=
  run Sample.url_key fl init (boot 1 raw).

Definition waiting_state : @system nat := default init waiting.

(** Every category receives the config, reconciles once and reports. *)
Definition first_round : list (@action nat) :=
  flat_map (fun i => [AScRecvInitial i;
                      AScFirstReconcile i [Sample.target_a];
                      AScReport i]) (seq 0 10).

(** The process once every category has reported. *)
Definition ready_state : @system nat :=
  default init (run Sample.url_key fl init (boot 1 raw ++ first_round)).

(** An orderly shutdown: [Stop()] is called, the runner closes
    [scs.stopCh], every scrape config returns and the runner joins them. *)
Definition shutdown : list (@action nat) :=
  [AStop; ARunnerStop] ++ (AScStop <$> seq 0 10) ++ [ARunnerJoin].

(** The process after [Stop()] has returned. *)
Definition stopped_state : @system nat :=
  default init
    (run Sample.url_key fl init (boot 1 raw ++ first_round ++ shutdown)).

(** Another content of the config file. *)
Definition raw2 : list Byte.byte := [Byte.x73; Byte.x64].

(** A reload with changed bytes that arrives when only [static_configs]
    has taken its first config: the new fan-out finds the other buffers
    full. *)
Definition early_reload : list (@action nat) :=
  boot 1 raw ++ [AScRecvInitial 0; ARunnerSighup (LoadOk 2 raw2)].

Definition reloading_state : @system nat :=
  default init (run Sample.url_key fl init early_reload).

(** The process after the first [scs.add]. *)
Definition first_add_state : @system nat :=
  default init
    (run Sample.url_key fl init [ARunnerStart (LoadOk 1 raw); ARunnerAdd]).

(** Every category receives the config and reconciles once; none has run
    the decrement yet. *)
Definition reconciled_round : list (@action nat) :=
  flat_map (fun i => [AScRecvInitial i;
                      AScFirstReconcile i [Sample.target_a]]) (seq 0 10).

Definition applied_state : @system nat :=
  default init
    (run Sample.url_key fl init (boot 1 raw ++ reconciled_round)).

(** [Stop()] is called twice on the process after its first round. *)
Definition double_stop : list (@action nat) :=
  boot 1 raw ++ first_round ++ [AStop; AStop].

Definition crashed_state : @system nat :=
  default init (run Sample.url_key fl init double_stop).

End RunnerSample.

(** * Properties *)

Set Warnings "-clear-no-such-hyp".

(** ** The reconcile of a scraper group *)

Module GroupFacts.

Import Group.

Section Facts.

Variable key : ScrapeWork -> string.
Variable suppress : bool.

(** *** One iteration of the first loop *)

Lemma visit_cases st sw :
  visit_case key suppress st sw (visit key suppress st sw).
Proof.
  unfold visit.
  destruct (swsMap_get (key sw) (swsMap st)) as [ol|] eqn:Hget.
  - replace (emit _ _) with
      {| name := name (grp st); m := m (grp st); nextCh := nextCh (grp st);
         trace := trace (grp st) ++ dup_events suppress sw ol |}.
    + by apply visit_dup.
    + unfold dup_events, emit. destruct suppress; simpl; [done|].
      by rewrite <- app_assoc.
  - destruct (m_lookup (key sw) (grp st)) as [sc|] eqn:Hlk.
    + by eapply visit_kept.
    + unfold m_lookup in Hlk. simpl.
      destruct (m (grp st)) as [mm|] eqn:Hm.
      * unfold set_m, emit, fresh. simpl. rewrite <- app_assoc. simpl.
        by apply visit_new.
      * unfold emit, fresh. simpl. rewrite <- app_assoc. simpl.
        by apply visit_nil.
Qed.

(** *** The first loop *)

Lemma swsMap_get_None k (sm : gmap string labelSlice) :
  k ∉ dom sm -> swsMap_get k sm = None.
Proof.
  intros H. unfold swsMap_get. apply not_elem_of_dom in H. by rewrite H.
Qed.

Lemma swsMap_get_Some k (sm : gmap string labelSlice) ol :
  swsMap_get k sm = Some ol -> k ∈ dom sm.
Proof.
  unfold swsMap_get. destruct (sm !! k) eqn:E; [|done].
  intros _. apply elem_of_dom. eauto.
Qed.

Lemma keyset_cons sw sws : keyset key (sw :: sws) = {[key sw]} ∪ keyset key sws.
Proof. done. Qed.

Lemma visit_all_open sws : forall st,
  is_Some (m (grp st)) ->
  exists st', visit_all key suppress st sws = Done st' /\ is_Some (m (grp st')).
Proof.
  induction sws as [|sw rest IH]; intros st Hopen; simpl.
  - eauto.
  - destruct (visit_cases st sw) as [ol Hg|sc Hg Hl|mm Hg Hm Hl|Hg Hm].
    + apply IH. done.
    + apply IH. done.
    + apply IH. simpl. eauto.
    + rewrite Hm in Hopen. by destruct Hopen.
Qed.

Lemma visit_all_swsMap_dom sws : forall st st',
  visit_all key suppress st sws = Done st' ->
  dom (swsMap st') = dom (swsMap st) ∪ keyset key sws.
Proof.
  induction sws as [|sw rest IH]; intros st st' H; simpl in H.
  - inversion H; subst. unfold keyset. set_solver.
  - rewrite keyset_cons.
    destruct (visit_cases st sw) as [ol Hg|sc Hg Hl|mm Hg Hm Hl|Hg Hm];
      [apply IH in H; simpl in H; rewrite H ..|done].
    + apply swsMap_get_Some in Hg. set_solver.
    + rewrite dom_insert_L. set_solver.
    + rewrite dom_insert_L. set_solver.
Qed.

Lemma m_lookup_live k sg sc : m_lookup k sg = Some sc -> k ∈ live_keys sg.
Proof.
  unfold m_lookup, live_keys. destruct (m sg); [|done].
  intros H. apply elem_of_dom. eauto.
Qed.

Lemma m_lookup_not_live k sg : m_lookup k sg = None -> k ∉ live_keys sg.
Proof.
  unfold m_lookup, live_keys. destruct (m sg); [|set_solver].
  intros H. by apply not_elem_of_dom.
Qed.

Lemma visit_all_live_keys sws : forall st st',
  visit_all key suppress st sws = Done st' ->
  dom (swsMap st) ⊆ live_keys (grp st) ->
  live_keys (grp st') = live_keys (grp st) ∪ keyset key sws
  /\ dom (swsMap st') ⊆ live_keys (grp st').
Proof.
  induction sws as [|sw rest IH]; intros st st' H Hsub; simpl in H.
  - inversion H; subst. unfold keyset. set_solver.
  - rewrite keyset_cons.
    destruct (visit_cases st sw) as [ol Hg|sc Hg Hl|mm Hg Hm Hl|Hg Hm];
      [..|done].
    + apply IH in H as [H1 H2]; [|done]. simpl in *.
      apply swsMap_get_Some in Hg. set_solver.
    + apply m_lookup_live in Hl.
      apply IH in H as [H1 H2]; simpl in *.
      * set_solver.
      * rewrite dom_insert_L. set_solver.
    + assert (live_keys (grp st) = dom mm) as Hlive
        by (unfold live_keys; by rewrite Hm).
      apply IH in H as [H1 H2].
      * unfold live_keys in H1, H2 |- *; simpl in *.
        rewrite dom_insert_L in H1. rewrite Hm. set_solver.
      * unfold live_keys; simpl. rewrite !dom_insert_L. set_solver.
Qed.

Lemma visit_all_kept sws k sc : forall st st',
  visit_all key suppress st sws = Done st' ->
  m_lookup k (grp st) = Some sc ->
  m_lookup k (grp st') = Some sc.
Proof.
  induction sws as [|sw rest IH]; intros st st' H Hk; simpl in H.
  - by inversion H; subst.
  - destruct (visit_cases st sw) as [ol Hg|sc' Hg Hl|mm Hg Hm Hl|Hg Hm];
      [apply IH in H; [done|] ..|done]; simpl; try done.
    unfold m_lookup in *. simpl. rewrite Hm in Hk.
    rewrite lookup_insert_ne; [done|]. congruence.
Qed.

Lemma first_with_key_cons k sw sws :
  first_with_key key k (sw :: sws)
  = if decide (key sw = k) then Some sw else first_with_key key k sws.
Proof.
  unfold first_with_key. simpl. by destruct (decide (key sw = k));
    [rewrite bool_decide_eq_true_2|rewrite bool_decide_eq_false_2].
Qed.

Lemma visit_all_origin sws k sc : forall st st',
  visit_all key suppress st sws = Done st' ->
  dom (swsMap st) ⊆ live_keys (grp st) ->
  m_lookup k (grp st') = Some sc ->
  m_lookup k (grp st) = Some sc
  \/ (m_lookup k (grp st) = None
      /\ first_with_key key k sws = Some (Config sc)).
Proof.
  induction sws as [|sw rest IH]; intros st st' H Hsub Hk; simpl in H.
  - inversion H; subst. by left.
  - rewrite first_with_key_cons.
    destruct (visit_cases st sw) as [ol Hg|sc' Hg Hl|mm Hg Hm Hl|Hg Hm];
      [..|done].
    + apply IH in H; [|done|done]. simpl in H.
      destruct H as [H|[H1 H2]]; [by left|].
      right. split; [done|]. case_decide as Hd; [|done].
      apply swsMap_get_Some in Hg. apply m_lookup_not_live in H1.
      unfold m_lookup, live_keys in *; simpl in *. set_solver.
    + apply IH in H; [| |done]; simpl in *.
      * destruct H as [H|[H1 H2]]; [by left|].
        right. split; [done|]. case_decide as Hd; [|done]. congruence.
      * rewrite dom_insert_L. apply m_lookup_live in Hl. set_solver.
    + pose proof H as H'. apply IH in H; [| |done]; simpl in *.
      * unfold m_lookup in H |- *. simpl in H. rewrite Hm.
        destruct (decide (key sw = k)) as [<-|Hne].
        -- right. split; [done|].
           rewrite lookup_insert_eq in H.
           destruct H as [H|[H _]]; [|done]. by inversion H.
        -- rewrite lookup_insert_ne in H; done.
      * unfold live_keys in *. simpl. rewrite Hm in Hsub.
        rewrite !dom_insert_L. set_solver.
Qed.

(** *** The second loop *)

Lemma sweep_keep sm st k0 sc0 ol :
  sm !! k0 = Some ol -> sweep sm st (k0, sc0) = st.
Proof. unfold sweep. simpl. by intros ->. Qed.

Lemma sweep_drop sm st k0 sc0 :
  sm !! k0 = None ->
  sweep sm st (k0, sc0)
  = {| grp2 := {| name := name (grp2 st);
                  m := delete k0 <$> m (grp2 st);
                  nextCh := nextCh (grp2 st);
                  trace := trace (grp2 st) ++ [EvClose (stopCh sc0)] |};
       deletionsCount := S (deletionsCount st) |}.
Proof. unfold sweep. simpl. by intros ->. Qed.

Lemma doomed_keep sm k0 sc0 l ol :
  sm !! k0 = Some ol -> doomed sm ((k0, sc0) :: l) = doomed sm l.
Proof.
  intros H. unfold doomed. rewrite filter_cons. simpl.
  rewrite decide_False; [done|]. by rewrite H.
Qed.

Lemma doomed_drop sm k0 sc0 l :
  sm !! k0 = None -> doomed sm ((k0, sc0) :: l) = (k0, sc0) :: doomed sm l.
Proof.
  intros H. unfold doomed. rewrite filter_cons. simpl.
  by rewrite decide_True.
Qed.

Lemma sweep_foldl sm l : forall st mm,
  m (grp2 st) = Some mm ->
  exists mm',
    m (grp2 (foldl (sweep sm) st l)) = Some mm'
    /\ (forall k, mm' !! k
                  = if decide (k ∈ (doomed sm l).*1) then None else mm !! k)
    /\ name (grp2 (foldl (sweep sm) st l)) = name (grp2 st)
    /\ nextCh (grp2 (foldl (sweep sm) st l)) = nextCh (grp2 st)
    /\ trace (grp2 (foldl (sweep sm) st l))
       = trace (grp2 st) ++ closes (doomed sm l)
    /\ deletionsCount (foldl (sweep sm) st l)
       = deletionsCount st + length (doomed sm l).
Proof.
  induction l as [|[k0 sc0] l IH]; intros st mm Hm; simpl.
  - exists mm. split_and!; try done. by rewrite app_nil_r.
  - destruct (sm !! k0) as [ol|] eqn:Hk0.
    + rewrite (sweep_keep _ _ _ _ _ Hk0), (doomed_keep _ _ _ _ _ Hk0).
      by apply IH.
    + rewrite (sweep_drop _ _ _ _ Hk0), (doomed_drop _ _ _ _ Hk0).
      match goal with |- context [foldl _ ?s _] => set (st1 := s) end.
      destruct (IH st1 (delete k0 mm)) as (mm' & H1 & H2 & H3 & H4 & H5 & H6).
      { subst st1. simpl. by rewrite Hm. }
      exists mm'. split_and!; try done.
      * intros k. rewrite H2. simpl.
        destruct (decide (k = k0)) as [->|Hne].
        -- rewrite lookup_delete_eq.
           rewrite (decide_True (P := k0 ∈ k0 :: _)); [|by left].
           by case_decide.
        -- rewrite lookup_delete_ne by done.
           case_decide as Hin.
           ++ rewrite decide_True; [done|]. by right.
           ++ rewrite decide_False; [done|].
              intros Hin'. apply elem_of_cons in Hin' as [?|?]; done.
      * rewrite H5. subst st1. simpl. unfold closes. simpl.
        by rewrite <- app_assoc.
      * rewrite H6. subst st1. simpl. lia.
Qed.

Lemma doomed_map_to_list sm (mm : gmap string scraper) k :
  k ∈ (doomed sm (map_to_list mm)).*1 <-> is_Some (mm !! k) /\ sm !! k = None.
Proof.
  unfold doomed. rewrite list_elem_of_fmap. split.
  - intros ([k' sc] & -> & Hin). apply list_elem_of_filter in Hin as [Hsm Hin].
    apply elem_of_map_to_list in Hin. simpl in *. eauto.
  - intros [[sc Hsc] Hsm]. exists (k, sc). split; [done|].
    apply list_elem_of_filter. split; [done|]. by apply elem_of_map_to_list.
Qed.

Lemma sweep_all_open sm sg mm :
  m sg = Some mm ->
  exists mm',
    m (grp2 (sweep_all sm sg)) = Some mm'
    /\ (forall k, mm' !! k = match sm !! k with
                             | Some _ => mm !! k
                             | None => None
                             end)
    /\ name (grp2 (sweep_all sm sg)) = name sg
    /\ nextCh (grp2 (sweep_all sm sg)) = nextCh sg
    /\ trace (grp2 (sweep_all sm sg))
       = trace sg ++ closes (doomed sm (map_to_list mm))
    /\ deletionsCount (sweep_all sm sg)
       = length (doomed sm (map_to_list mm)).
Proof.
  intros Hm. unfold sweep_all, entries. rewrite Hm.
  destruct (sweep_foldl sm (map_to_list mm)
              {| grp2 := sg; deletionsCount := 0 |} mm Hm)
    as (mm' & H1 & H2 & H3 & H4 & H5 & H6).
  exists mm'. split_and!; try done.
  intros k. rewrite H2. case_decide as Hin.
  - apply doomed_map_to_list in Hin as [_ ->]. done.
  - destruct (sm !! k) eqn:Hsm; [done|].
    destruct (mm !! k) eqn:Hmm; [|done].
    exfalso. apply Hin. apply doomed_map_to_list. eauto.
Qed.

Lemma sweep_all_nil sm sg :
  m sg = None -> sweep_all sm sg = {| grp2 := sg; deletionsCount := 0 |}.
Proof. intros Hm. unfold sweep_all, entries. by rewrite Hm. Qed.

Lemma report_m a d sg : m (report a d sg) = m sg.
Proof. unfold report. by destruct (_ || _). Qed.

Lemma report_name a d sg : name (report a d sg) = name sg.
Proof. unfold report. by destruct (_ || _). Qed.

Lemma report_nextCh a d sg : nextCh (report a d sg) = nextCh sg.
Proof. unfold report. by destruct (_ || _). Qed.

Lemma report_m_lookup a d sg k : m_lookup k (report a d sg) = m_lookup k sg.
Proof. unfold m_lookup. by rewrite report_m. Qed.

Lemma report_live_keys a d sg : live_keys (report a d sg) = live_keys sg.
Proof. unfold live_keys. by rewrite report_m. Qed.

(** *** The whole reconcile *)

Lemma update_Done_inv sg sws sg' :
  update key suppress sg sws = Done sg' ->
  exists st,
    visit_all key suppress (start sg) sws = Done st
    /\ sg' = report (additionsCount st)
               (deletionsCount (sweep_all (swsMap st) (grp st)))
               (grp2 (sweep_all (swsMap st) (grp st))).
Proof.
  unfold update, reconcile. fold (start sg).
  destruct (visit_all key suppress (start sg) sws) as [st|st]; [|done].
  simpl. intros H. inversion H. eauto.
Qed.

Lemma update_open_returns sg sws :
  is_Some (m sg) -> returned (update key suppress sg sws).
Proof.
  intros Hopen. unfold update, reconcile. fold (start sg).
  destruct (visit_all_open sws (start sg) Hopen) as (st & -> & _). done.
Qed.

Lemma sweep_all_m_lookup sm sg k :
  m_lookup k (grp2 (sweep_all sm sg))
  = match sm !! k with
    | Some _ => m_lookup k sg
    | None => None
    end.
Proof.
  unfold m_lookup. destruct (m sg) as [mm|] eqn:Hm.
  - destruct (sweep_all_open sm sg mm Hm) as (mm' & -> & H2 & _). apply H2.
  - rewrite sweep_all_nil by done. simpl. rewrite Hm. by destruct (sm !! k).
Qed.

Lemma update_m_lookup sg sws sg' k :
  update key suppress sg sws = Done sg' ->
  exists st,
    visit_all key suppress (start sg) sws = Done st
    /\ m_lookup k sg' = if decide (k ∈ keyset key sws)
                        then m_lookup k (grp st) else None.
Proof.
  intros (st & Hv & ->)%update_Done_inv. exists st. split; [done|].
  rewrite report_m_lookup, sweep_all_m_lookup.
  pose proof (visit_all_swsMap_dom _ _ _ Hv) as Hdom. simpl in Hdom.
  rewrite dom_empty_L, (left_id_L ∅ (∪)) in Hdom.
  case_decide as Hin.
  - rewrite <- Hdom in Hin. apply elem_of_dom in Hin as [ol ->]. done.
  - rewrite <- Hdom in Hin. apply not_elem_of_dom in Hin. by rewrite Hin.
Qed.

Lemma live_keys_lookup sg k : k ∈ live_keys sg <-> is_Some (m_lookup k sg).
Proof.
  unfold live_keys, m_lookup. destruct (m sg).
  - apply elem_of_dom.
  - split; [set_solver|]. by intros [? ?].
Qed.

(** C1. After [update(sws)] returns, the keys of the live map are exactly
    the keys of the entries of [sws]; each entry of the map is either the
    scraper that was already live under that key or one built from the
    first entry of [sws] with that key.  On an open group (non-nil map)
    [update] always returns. *)
Theorem update_live_keys sg sws :
  (is_Some (m sg) -> returned (update key suppress sg sws))
  /\ forall sg', update key suppress sg sws = Done sg' ->
       live_keys sg' = keyset key sws
       /\ forall k sc, m_lookup k sg' = Some sc ->
            m_lookup k sg = Some sc
            \/ (m_lookup k sg = None
                /\ first_with_key key k sws = Some (Config sc)).
Proof.
  split; [apply update_open_returns|].
  intros sg' Hup.
  assert (dom (swsMap (start sg)) ⊆ live_keys (grp (start sg))) as Hsub
    by (simpl; set_solver).
  split.
  - apply set_eq. intros k. rewrite live_keys_lookup.
    destruct (update_m_lookup sg sws sg' k Hup) as (st & Hv & ->).
    destruct (visit_all_live_keys _ _ _ Hv Hsub) as [Hl _]. simpl in Hl.
    case_decide as Hin.
    + rewrite <- live_keys_lookup, Hl. set_solver.
    + split; [by intros [? ?]|done].
  - intros k sc Hk.
    destruct (update_m_lookup sg sws sg' k Hup) as (st & Hv & Heq).
    rewrite Heq in Hk. case_decide; [|done].
    apply (visit_all_origin _ _ _ _ _ Hv Hsub Hk).
Qed.

(** *** Workers in the trace *)

Lemma spawned_app t1 t2 : spawned (t1 ++ t2) = spawned t1 ++ spawned t2.
Proof.
  induction t1 as [|e t1 IH]; [done|]. simpl. destruct e; simpl; by rewrite ?IH.
Qed.

Lemma closed_app t1 t2 : closed (t1 ++ t2) = closed t1 ++ closed t2.
Proof.
  induction t1 as [|e t1 IH]; [done|]. simpl. destruct e; simpl; by rewrite ?IH.
Qed.

Lemma spawned_closes l : spawned (closes l) = [].
Proof. induction l as [|e l IH]; [done|]. done. Qed.

Lemma closed_closes l : closed (closes l) = (fun e => stopCh e.2) <$> l.
Proof. induction l as [|e l IH]; [done|]. simpl. by rewrite IH. Qed.

Lemma spawned_dup_events sw ol : spawned (dup_events suppress sw ol) = [].
Proof. unfold dup_events. by destruct suppress. Qed.

Lemma closed_dup_events sw ol : closed (dup_events suppress sw ol) = [].
Proof. unfold dup_events. by destruct suppress. Qed.

Lemma alive_elem t sc :
  sc ∈ alive t <-> sc ∈ spawned t /\ stopCh sc ∉ closed t.
Proof. unfold alive. rewrite list_elem_of_filter. tauto. Qed.

Lemma filter_sublist_impl {A} (P Q : A -> Prop)
    `{forall x, Decision (P x)} `{forall x, Decision (Q x)} (l : list A) :
  (forall x, P x -> Q x) -> filter P l `sublist_of` filter Q l.
Proof.
  intros HPQ. induction l as [|x l IH]; [done|].
  rewrite !filter_cons. destruct (decide (P x)) as [HP|HP].
  - rewrite decide_True by auto. by constructor.
  - destruct (decide (Q x)); [by constructor|done].
Qed.

Lemma alive_nospawn t evs :
  spawned evs = [] -> alive (t ++ evs) `sublist_of` alive t.
Proof.
  intros Hs. unfold alive. rewrite spawned_app, Hs, app_nil_r.
  apply filter_sublist_impl. intros sc. rewrite closed_app.
  rewrite not_elem_of_app. tauto.
Qed.

Lemma alive_nospawn_elem t evs sc :
  spawned evs = [] ->
  sc ∈ alive (t ++ evs) <-> sc ∈ alive t /\ stopCh sc ∉ closed evs.
Proof.
  intros Hs. rewrite !alive_elem, spawned_app, closed_app, Hs, app_nil_r.
  rewrite not_elem_of_app. tauto.
Qed.

Lemma alive_go t sc :
  alive (t ++ [EvGo sc])
  = alive t ++ (if decide (stopCh sc ∈ closed t) then [] else [sc]).
Proof.
  unfold alive. rewrite spawned_app, closed_app. simpl.
  rewrite app_nil_r, filter_app. f_equal.
  rewrite filter_cons, filter_nil.
  destruct (decide (stopCh sc ∈ closed t)).
  - by rewrite decide_False by auto.
  - by rewrite decide_True.
Qed.

Lemma at_most_one_nospawn t evs :
  spawned evs = [] -> at_most_one key t -> at_most_one key (t ++ evs).
Proof.
  intros Hs. unfold at_most_one, alive_keys. intros Hnd.
  eapply sublist_NoDup; [exact Hnd|].
  apply fmap_sublist. by apply alive_nospawn.
Qed.

Lemma at_most_one_go t sc :
  at_most_one key t -> key (Config sc) ∉ alive_keys key t ->
  at_most_one key (t ++ [EvGo sc]).
Proof.
  unfold at_most_one, alive_keys. intros Hnd Hk. rewrite alive_go.
  destruct (decide (stopCh sc ∈ closed t)).
  - by rewrite app_nil_r.
  - rewrite fmap_app. simpl. apply NoDup_app. split_and!; [done| |].
    + intros k Hin Hin'. apply list_elem_of_singleton in Hin'. by subst.
    + apply NoDup_singleton.
Qed.

Lemma prefix_app_cases (t evs p : list event) :
  p `prefix_of` t ++ evs ->
  p `prefix_of` t \/ exists q, p = t ++ q /\ q `prefix_of` evs.
Proof.
  intros [k Hk]. apply app_eq_inv in Hk as [(k' & -> & ->)|(k' & -> & ->)].
  - left. by exists k'.
  - right. exists k'. split; [done|]. by exists k.
Qed.

Lemma every_instant_nospawn t evs :
  spawned evs = [] ->
  at_every_instant (at_most_one key) t ->
  at_every_instant (at_most_one key) (t ++ evs).
Proof.
  intros Hs Ht p Hp. apply prefix_app_cases in Hp as [Hp|(q & -> & [k ->])].
  - by apply Ht.
  - apply at_most_one_nospawn.
    + rewrite spawned_app in Hs. by apply app_eq_nil in Hs as [? _].
    + apply Ht. done.
Qed.

Lemma every_instant_go t sc :
  at_every_instant (at_most_one key) t ->
  key (Config sc) ∉ alive_keys key t ->
  at_every_instant (at_most_one key) (t ++ [EvGo sc]).
Proof.
  intros Ht Hk p Hp. apply prefix_app_cases in Hp as [Hp|(q & -> & Hq)].
  - by apply Ht.
  - destruct q as [|e q].
    + rewrite app_nil_r. by apply Ht.
    + destruct Hq as [k Hq]. inversion Hq; subst.
      destruct q; [|done]. apply at_most_one_go; [|done]. by apply Ht.
Qed.

Lemma alive_keys_elem t k :
  k ∈ alive_keys key t <-> exists sc, sc ∈ alive t /\ key (Config sc) = k.
Proof.
  unfold alive_keys. rewrite list_elem_of_fmap. naive_solver.
Qed.

Lemma alive_in_map_free sg k :
  alive_in_map key sg -> m_lookup k sg = None -> k ∉ alive_keys key (trace sg).
Proof.
  intros HJ Hk (sc & Hsc & <-)%alive_keys_elem.
  apply HJ in Hsc. congruence.
Qed.

End Facts.

Section Invariant.

Variable key : ScrapeWork -> string.
Variable suppress : bool.

(** *** The invariant of a group *)

Lemma consistent_new n : consistent key (newScraperGroup n).
Proof.
  split.
  - intros sc Hsc. by apply elem_of_nil in Hsc.
  - intros p Hp. apply prefix_nil_inv in Hp as ->.
    unfold at_most_one, alive_keys. simpl. apply NoDup_nil_2.
Qed.

Lemma consistent_nospawn sg sg' evs :
  spawned evs = [] ->
  trace sg' = trace sg ++ evs ->
  (forall sc, sc ∈ alive (trace sg) -> stopCh sc ∉ closed evs ->
     m_lookup (key (Config sc)) sg = Some sc ->
     m_lookup (key (Config sc)) sg' = Some sc) ->
  consistent key sg -> consistent key sg'.
Proof.
  intros Hs Ht Hm [HJ Ha]. split.
  - intros sc Hsc. rewrite Ht in Hsc.
    apply alive_nospawn_elem in Hsc as [Hsc Hc]; [|done]. auto.
  - rewrite Ht. by apply every_instant_nospawn.
Qed.

Lemma every_instant_spawn t sc sw :
  at_every_instant (at_most_one key) t ->
  key (Config sc) ∉ alive_keys key t ->
  at_every_instant (at_most_one key) (t ++ [EvGo sc; EvRegister sw]).
Proof.
  intros Ht Hk. change [EvGo sc; EvRegister sw] with ([EvGo sc] ++ [EvRegister sw]).
  rewrite app_assoc. apply every_instant_nospawn; [done|].
  by apply every_instant_go.
Qed.

Lemma alive_spawn t sc sw sc0 :
  sc0 ∈ alive (t ++ [EvGo sc; EvRegister sw]) -> sc0 ∈ alive t \/ sc0 = sc.
Proof.
  change [EvGo sc; EvRegister sw] with ([EvGo sc] ++ [EvRegister sw]).
  rewrite app_assoc. intros [H _]%alive_nospawn_elem; [|done].
  rewrite alive_go in H. apply elem_of_app in H as [H|H]; [by left|].
  case_decide; [by apply elem_of_nil in H|].
  apply list_elem_of_singleton in H. by right.
Qed.

Lemma visit_consistent st sw :
  consistent key (grp st) ->
  at_every_instant (at_most_one key)
    (trace (grp (outcome_state (visit key suppress st sw))))
  /\ forall st', visit key suppress st sw = Done st' ->
       consistent key (grp st').
Proof.
  intros Hc.
  destruct (visit_cases key suppress st sw) as [ol Hg|sc Hg Hl|mm Hg Hm Hl|Hg Hm];
    simpl.
  - assert (consistent key
              {| name := name (grp st); m := m (grp st);
                 nextCh := nextCh (grp st);
                 trace := trace (grp st) ++ dup_events suppress sw ol |})
      as Hc'.
    { eapply (consistent_nospawn (grp st)); [|done| |done].
      - apply spawned_dup_events.
      - auto. }
    split; [apply Hc'|]. intros st' H. by inversion H; subst.
  - split; [apply Hc|]. intros st' H. by inversion H; subst.
  - destruct Hc as [HJ Ha].
    assert (key sw ∉ alive_keys key (trace (grp st))) as Hfree.
    { apply alive_in_map_free; [done|]. unfold m_lookup. by rewrite Hm. }
    assert (at_every_instant (at_most_one key)
              (trace (grp st) ++ [EvGo (fresh st sw); EvRegister sw])) as Ha'
      by (by apply every_instant_spawn).
    split; [done|]. intros st' H. inversion H; subst; clear H. simpl.
    split; [|done]. intros sc0 Hsc0. simpl in Hsc0.
    unfold m_lookup. simpl.
    apply alive_spawn in Hsc0 as [Hsc0| ->].
    + pose proof (HJ _ Hsc0) as Hin. unfold m_lookup in Hin.
      rewrite Hm in Hin. rewrite lookup_insert_ne; [done|]. congruence.
    + simpl. by rewrite lookup_insert_eq.
  - destruct Hc as [HJ Ha]. split; [|done].
    apply every_instant_spawn; [done|].
    apply alive_in_map_free; [done|]. unfold m_lookup. by rewrite Hm.
Qed.

Lemma visit_all_consistent sws : forall st,
  consistent key (grp st) ->
  at_every_instant (at_most_one key)
    (trace (grp (outcome_state (visit_all key suppress st sws))))
  /\ forall st', visit_all key suppress st sws = Done st' ->
       consistent key (grp st').
Proof.
  induction sws as [|sw rest IH]; intros st Hc; simpl.
  - split; [apply Hc|]. intros st' H. by inversion H; subst.
  - destruct (visit_consistent st sw Hc) as [Ha Hd].
    destruct (visit key suppress st sw) as [st1|st1]; simpl in *.
    + apply IH. by apply Hd.
    + split; [done|]. intros st' H. done.
Qed.

Lemma sweep_all_trace sm sg :
  trace (grp2 (sweep_all sm sg)) = trace sg ++ closes (doomed sm (entries sg)).
Proof.
  unfold entries. destruct (m sg) as [mm|] eqn:Hm.
  - by destruct (sweep_all_open sm sg mm Hm) as (mm' & _ & _ & _ & _ & -> & _).
  - rewrite sweep_all_nil by done. simpl. by rewrite app_nil_r.
Qed.

Lemma entries_lookup sg k sc :
  (k, sc) ∈ entries sg <-> m_lookup k sg = Some sc.
Proof.
  unfold entries, m_lookup. destruct (m sg) as [mm|].
  - apply elem_of_map_to_list.
  - split; [by intros ?%elem_of_nil|done].
Qed.

Lemma sweep_all_consistent sm sg :
  consistent key sg -> consistent key (grp2 (sweep_all sm sg)).
Proof.
  apply consistent_nospawn with (evs := closes (doomed sm (entries sg))).
  - apply spawned_closes.
  - apply sweep_all_trace.
  - intros sc Hsc Hcl Hin. rewrite sweep_all_m_lookup.
    destruct (sm !! key (Config sc)) eqn:Hsm; [done|].
    exfalso. apply Hcl. rewrite closed_closes.
    apply list_elem_of_fmap. exists (key (Config sc), sc). split; [done|].
    unfold doomed. apply list_elem_of_filter. split; [done|].
    by apply entries_lookup.
Qed.

Lemma report_trace a d sg :
  exists evs, trace (report a d sg) = trace sg ++ evs
              /\ spawned evs = [] /\ closed evs = [].
Proof.
  unfold report. destruct (_ || _).
  - exists [EvChangesAdd (a + d); EvLogSummary a d (m_len sg)].
    split; [|done]. simpl. by rewrite <- app_assoc.
  - exists []. by rewrite app_nil_r.
Qed.

Lemma report_consistent a d sg :
  consistent key sg -> consistent key (report a d sg).
Proof.
  destruct (report_trace a d sg) as (evs & Ht & Hs & Hc).
  apply consistent_nospawn with (evs := evs); [done|done|].
  intros sc _ _. by rewrite report_m_lookup.
Qed.

Lemma update_consistent sg sws :
  consistent key sg ->
  at_every_instant (at_most_one key)
    (trace (outcome_state (update key suppress sg sws)))
  /\ forall sg', update key suppress sg sws = Done sg' -> consistent key sg'.
Proof.
  intros Hc. unfold update, reconcile. fold (start sg).
  destruct (visit_all_consistent sws (start sg) Hc) as [Ha Hd].
  destruct (visit_all key suppress (start sg) sws) as [st|st]; simpl in *.
  - assert (consistent key
              (report (additionsCount st)
                 (deletionsCount (sweep_all (swsMap st) (grp st)))
                 (grp2 (sweep_all (swsMap st) (grp st))))) as Hc'.
    { apply report_consistent, sweep_all_consistent. by apply Hd. }
    split; [apply Hc'|]. intros sg' H. by inversion H; subst.
  - split; [done|]. intros sg' H. done.
Qed.

Lemma stop_closes_trace l : forall sg,
  foldl (fun g e => emit (EvClose (stopCh e.2)) g) sg l
  = {| name := name sg; m := m sg; nextCh := nextCh sg;
       trace := trace sg ++ closes l |}.
Proof.
  induction l as [|e l IH]; intros sg; simpl.
  - rewrite app_nil_r. by destruct sg.
  - rewrite IH. simpl. unfold closes. simpl. by rewrite <- app_assoc.
Qed.

Lemma stop_eq sg :
  stop sg = {| name := name sg; m := None; nextCh := nextCh sg;
               trace := trace sg ++ closes (entries sg) ++ [EvWgWait] |}.
Proof.
  unfold stop. rewrite stop_closes_trace. unfold emit, set_m. simpl.
  by rewrite <- app_assoc.
Qed.

Lemma stop_consistent sg : consistent key sg -> consistent key (stop sg).
Proof.
  intros Hc. rewrite stop_eq.
  eapply (consistent_nospawn sg _ (closes (entries sg) ++ [EvWgWait]));
    [| done | | done].
  - rewrite spawned_app, spawned_closes. done.
  - intros sc Hsc Hcl Hin. exfalso. apply Hcl.
    rewrite closed_app, closed_closes. apply elem_of_app. left.
    apply list_elem_of_fmap. exists (key (Config sc), sc). split; [done|].
    by apply entries_lookup.
Qed.

(** C2. Whatever calls of [update] and [stop] are made on a group, at every
    instant of the history the workers that were spawned and not yet told
    to stop run under pairwise distinct keys: no second scraper is ever
    started under a key that has a live one. *)
Theorem at_most_one_scraper_per_key n ops :
  at_every_instant (at_most_one key)
    (trace (outcome_state (exec key suppress (newScraperGroup n) ops))).
Proof.
  assert (forall sg, consistent key sg ->
            at_every_instant (at_most_one key)
              (trace (outcome_state (exec key suppress sg ops)))) as Hgen.
  { induction ops as [|o ops IH]; intros sg Hc; simpl.
    - apply Hc.
    - destruct o as [sws|]; simpl.
      + destruct (update_consistent sg sws Hc) as [Ha Hd].
        destruct (update key suppress sg sws) as [sg'|sg']; simpl in *.
        * apply IH. by apply Hd.
        * done.
      + apply IH. by apply stop_consistent. }
  apply Hgen, consistent_new.
Qed.

End Invariant.

Section Frame.

Variable key : ScrapeWork -> string.
Variable suppress : bool.

(** *** What one reconcile adds to the trace *)

Lemma visit_all_events sws : forall st st',
  visit_all key suppress st sws = Done st' ->
  exists evs,
    trace (grp st') = trace (grp st) ++ evs
    /\ closed evs = []
    /\ additionsCount st' = additionsCount st + length (spawned evs)
    /\ forall sc, sc ∈ spawned evs ->
         m_lookup (key (Config sc)) (grp st) = None.
Proof.
  induction sws as [|sw rest IH]; intros st st' H; simpl in H.
  - inversion H; subst. exists []. rewrite app_nil_r.
    split_and!; try done; try (simpl; lia).
    by intros sc ?%elem_of_nil.
  - destruct (visit_cases key suppress st sw)
      as [ol Hg|sc Hg Hl|mm Hg Hm Hl|Hg Hm]; [..|done];
      apply IH in H as (evs & Ht & Hc & Ha & Hs); simpl in *.
    + exists (dup_events suppress sw ol ++ evs). split_and!.
      * by rewrite Ht, app_assoc.
      * by rewrite closed_app, (closed_dup_events suppress), Hc.
      * by rewrite spawned_app, (spawned_dup_events suppress).
      * intros sc. rewrite spawned_app, (spawned_dup_events suppress). apply Hs.
    + by exists evs.
    + exists ([EvGo (fresh st sw); EvRegister sw] ++ evs). split_and!.
      * by rewrite Ht, <- app_assoc.
      * done.
      * simpl. lia.
      * simpl. intros sc [->|Hin]%elem_of_cons.
        -- simpl. unfold m_lookup. by rewrite Hm.
        -- apply Hs in Hin. unfold m_lookup in *. simpl in Hin.
           rewrite Hm. destruct (decide (key sw = key (Config sc))) as [He|Hne].
           ++ by rewrite He, lookup_insert_eq in Hin.
           ++ by rewrite lookup_insert_ne in Hin.
Qed.

Lemma sweep_all_deletions sm sg :
  deletionsCount (sweep_all sm sg) = length (doomed sm (entries sg)).
Proof.
  unfold entries. destruct (m sg) as [mm|] eqn:Hm.
  - by destruct (sweep_all_open sm sg mm Hm) as (mm' & _ & _ & _ & _ & _ & ->).
  - by rewrite sweep_all_nil.
Qed.

Lemma reconcile_Done_inv sg sws r :
  reconcile key suppress sg sws = Done r ->
  exists st,
    visit_all key suppress (start sg) sws = Done st
    /\ r = {| result := report (additionsCount st)
                          (deletionsCount (sweep_all (swsMap st) (grp st)))
                          (grp2 (sweep_all (swsMap st) (grp st)));
              additions := additionsCount st;
              deletions := deletionsCount (sweep_all (swsMap st) (grp st)) |}.
Proof.
  unfold reconcile. fold (start sg).
  destruct (visit_all key suppress (start sg) sws) as [st|st]; [|done].
  simpl. intros H. inversion H. eauto.
Qed.

Lemma update_reconcile sg sws :
  update key suppress sg sws
  = match reconcile key suppress sg sws with
    | Done r => Done (result r)
    | Panic r => Panic (result r)
    end.
Proof. done. Qed.

(** The events of a returning reconcile: the spawns are for keys that were
    not live, the closes are of entries that were live under keys that are
    not wanted, and the two counters count them. *)
Lemma reconcile_events sg sws r :
  reconcile key suppress sg sws = Done r ->
  exists evs,
    trace (result r) = trace sg ++ evs
    /\ additions r = length (spawned evs)
    /\ deletions r = length (closed evs)
    /\ (forall sc, sc ∈ spawned evs -> m_lookup (key (Config sc)) sg = None)
    /\ (forall ch, ch ∈ closed evs ->
          exists k sc, m_lookup k sg = Some sc /\ stopCh sc = ch
                       /\ k ∉ keyset key sws).
Proof.
  intros (st & Hv & ->)%reconcile_Done_inv. simpl.
  destruct (visit_all_events _ _ _ Hv) as (evs1 & Ht1 & Hc1 & Ha1 & Hs1).
  simpl in *.
  set (st2 := sweep_all (swsMap st) (grp st)).
  destruct (report_trace (additionsCount st) (deletionsCount st2) (grp2 st2))
    as (evs3 & Ht3 & Hs3 & Hc3).
  set (evs2 := closes (doomed (swsMap st) (entries (grp st)))).
  exists (evs1 ++ evs2 ++ evs3). split_and!.
  - rewrite Ht3. subst st2. rewrite sweep_all_trace, Ht1.
    by rewrite <- !app_assoc.
  - rewrite !spawned_app. subst evs2. rewrite spawned_closes, Hs3. simpl.
    by rewrite app_nil_r.
  - rewrite !closed_app, Hc1, Hc3, app_nil_r. simpl. subst evs2 st2.
    rewrite closed_closes, length_fmap. apply sweep_all_deletions.
  - intros sc. rewrite !spawned_app. subst evs2.
    rewrite spawned_closes, Hs3. simpl. rewrite app_nil_r. apply Hs1.
  - intros ch. rewrite !closed_app, Hc1, Hc3, app_nil_r. simpl. subst evs2.
    rewrite closed_closes. intros ([k sc] & -> & Hin)%list_elem_of_fmap.
    unfold doomed in Hin. apply list_elem_of_filter in Hin as [Hsm Hin].
    simpl in *. apply entries_lookup in Hin.
    assert (k ∉ keyset key sws) as Hk.
    { pose proof (visit_all_swsMap_dom key suppress _ _ _ Hv) as Hdom.
      simpl in Hdom. rewrite dom_empty_L, (left_id_L ∅ (∪)) in Hdom.
      rewrite <- Hdom. by apply not_elem_of_dom. }
    exists k, sc. split_and!; [|done|done].
    destruct (visit_all_origin key suppress _ _ _ _ _ Hv
                ltac:(simpl; set_solver) Hin) as [H|[_ H]]; [done|].
    exfalso. apply Hk. unfold first_with_key in H.
    apply find_some in H as [Hm Hb]. apply bool_decide_eq_true in Hb.
    subst k. unfold keyset. apply elem_of_list_to_set, list_elem_of_fmap.
    exists (Config sc). split; [done|]. by apply list_elem_of_In.
Qed.

(** A key that is live before a reconcile and appears among the keys of
    the desired list keeps its scraper, provided no other entry of the map
    shares its stop channel. *)
Lemma reconcile_keeps_wanted sg sws k sc :
  m_lookup k sg = Some sc ->
  k ∈ keyset key sws ->
  channels_distinct sg ->
  exists r evs,
    reconcile key suppress sg sws = Done r
    /\ trace (result r) = trace sg ++ evs
    /\ m_lookup k (result r) = Some sc
    /\ (forall sc', sc' ∈ spawned evs -> key (Config sc') <> k)
    /\ (stopCh sc ∉ closed evs)
    /\ additions r = length (spawned evs)
    /\ deletions r = length (closed evs).
Proof.
  intros Hk Hin Hdist.
  assert (is_Some (m sg)) as Hopen.
  { unfold m_lookup in Hk. destruct (m sg); [eauto|done]. }
  pose proof (update_open_returns key suppress sg sws Hopen) as Hret.
  rewrite update_reconcile in Hret.
  destruct (reconcile key suppress sg sws) as [r|r] eqn:Hr; [|done].
  destruct (reconcile_events sg sws r Hr) as (evs & Ht & Ha & Hd & Hs & Hc).
  exists r, evs. split_and!; try done.
  - assert (update key suppress sg sws = Done (result r)) as Hup
      by (by rewrite update_reconcile, Hr).
    destruct (update_m_lookup key suppress _ _ _ k Hup) as (st & Hv & ->).
    rewrite decide_True by done.
    by apply (visit_all_kept key suppress _ _ _ _ _ Hv).
  - intros sc' Hsc' Heq. apply Hs in Hsc'. rewrite Heq in Hsc'. congruence.
  - intros (k' & sc' & Hk' & Hch & Hnot)%Hc.
    assert (k' = k) by (by eapply Hdist). by subst.
Qed.

End Frame.

Section Channels.

Variable key : ScrapeWork -> string.
Variable suppress : bool.

(** *** Stop channels of reachable groups *)

Lemma channels_ok_submap sg sg' :
  (forall k sc, m_lookup k sg' = Some sc -> m_lookup k sg = Some sc) ->
  nextCh sg' = nextCh sg ->
  channels_ok sg -> channels_ok sg'.
Proof.
  intros Hsub Hn [Hd Ha]. split.
  - intros k1 k2 sc1 sc2 H1 H2. apply Hd; by apply Hsub.
  - intros k sc H. rewrite Hn. eapply Ha. by apply Hsub.
Qed.

Lemma visit_all_channels_ok sws : forall st st',
  visit_all key suppress st sws = Done st' ->
  channels_ok (grp st) -> channels_ok (grp st').
Proof.
  induction sws as [|sw rest IH]; intros st st' H Hok; simpl in H.
  - by inversion H; subst.
  - destruct (visit_cases key suppress st sw)
      as [ol Hg|sc Hg Hl|mm Hg Hm Hl|Hg Hm]; [..|done];
      apply IH in H; try done.
    destruct Hok as [Hd Ha].
    split; unfold channels_distinct, channels_allocated, m_lookup in *;
      simpl; rewrite Hm in Hd, Ha.
    + intros k1 k2 sc1 sc2.
        destruct (decide (key sw = k1)) as [<-|H1];
          destruct (decide (key sw = k2)) as [<-|H2];
          rewrite ?lookup_insert_eq, ?lookup_insert_ne by done; try done.
        -- intros E Hk2 Hch. inversion E; subst.
           apply Ha in Hk2. simpl in Hch. lia.
        -- intros Hk1 E Hch. inversion E; subst.
           apply Ha in Hk1. simpl in Hch. lia.
        -- apply Hd.
    + intros k sc. destruct (decide (key sw = k)) as [<-|H1];
          rewrite ?lookup_insert_eq, ?lookup_insert_ne by done.
        -- intros E. inversion E; subst. simpl. lia.
        -- intros Hk%Ha. lia.
Qed.

Lemma sweep_all_nextCh sm sg : nextCh (grp2 (sweep_all sm sg)) = nextCh sg.
Proof.
  destruct (m sg) as [mm|] eqn:Hm.
  - by destruct (sweep_all_open sm sg mm Hm) as (mm' & _ & _ & _ & -> & _).
  - by rewrite sweep_all_nil.
Qed.

Lemma update_channels_ok sg sws sg' :
  update key suppress sg sws = Done sg' ->
  channels_ok sg -> channels_ok sg'.
Proof.
  intros (st & Hv & ->)%update_Done_inv Hok.
  apply (visit_all_channels_ok _ _ _ Hv) in Hok. revert Hok.
  apply channels_ok_submap.
  - intros k sc. rewrite report_m_lookup, sweep_all_m_lookup.
    by destruct (swsMap st !! k).
  - by rewrite report_nextCh, sweep_all_nextCh.
Qed.

Lemma stop_channels_ok sg : channels_ok (stop sg).
Proof. rewrite stop_eq. split; intros ?; intros; done. Qed.

Lemma exec_channels_ok ops : forall sg sg',
  exec key suppress sg ops = Done sg' -> channels_ok sg -> channels_ok sg'.
Proof.
  induction ops as [|o ops IH]; intros sg sg' H Hok; simpl in H.
  - by inversion H; subst.
  - destruct o as [sws|]; simpl in H.
    + destruct (update key suppress sg sws) as [sg1|sg1] eqn:Hup; [|done].
      eapply IH; [done|]. by eapply update_channels_ok.
    + eapply IH; [done|]. apply stop_channels_ok.
Qed.

(** In every group reached from a new one, the entries of the live map
    have pairwise distinct stop channels. *)
Lemma reachable_channels_distinct n ops sg :
  exec key suppress (newScraperGroup n) ops = Done sg ->
  channels_distinct sg.
Proof.
  intros H. eapply exec_channels_ok in H as [Hd _]; [done|].
  split; intros ?; intros; unfold m_lookup in *; simpl in *;
    by rewrite lookup_empty in *.
Qed.

(** C3. In every group reached from a new one, a key that is live before
    a reconcile and appears among the keys of the desired list keeps its
    scraper: the same instance is stored under it afterwards, no worker is
    spawned for that key, its stop channel is not closed, and the additions
    and deletions counters count exactly the spawns and the closes, none
    of which concerns it. *)
Theorem update_keeps_wanted n ops sg sws k sc :
  exec key suppress (newScraperGroup n) ops = Done sg ->
  m_lookup k sg = Some sc ->
  k ∈ keyset key sws ->
  exists r evs,
    reconcile key suppress sg sws = Done r
    /\ trace (result r) = trace sg ++ evs
    /\ m_lookup k (result r) = Some sc
    /\ (forall sc', sc' ∈ spawned evs -> key (Config sc') <> k)
    /\ (stopCh sc ∉ closed evs)
    /\ additions r = length (spawned evs)
    /\ deletions r = length (closed evs).
Proof.
  intros Hreach Hk Hin.
  apply reconcile_keeps_wanted; [done|done|].
  by eapply reachable_channels_distinct.
Qed.

End Channels.

Section AfterStop.

Variable key : ScrapeWork -> string.
Variable suppress : bool.

(** *** Reconciles on a stopped group *)

Lemma update_nil_empty sg :
  m sg = None -> update key suppress sg [] = Done sg.
Proof.
  intros Hm. unfold update, reconcile. simpl.
  rewrite sweep_all_nil by done. simpl. done.
Qed.

Lemma update_nil_cons sg sw rest :
  m sg = None ->
  update key suppress sg (sw :: rest)
  = Panic {| name := name sg; m := None; nextCh := S (nextCh sg);
             trace := trace sg
                      ++ [EvGo {| stopCh := nextCh sg; Config := sw;
                                  ScrapeGroup := name sg |};
                          EvRegister sw] |}.
Proof.
  intros Hm. unfold update, reconcile. simpl.
  unfold visit, swsMap_get, m_lookup. rewrite ?lookup_empty. simpl.
  rewrite !Hm. simpl. unfold emit. simpl. by rewrite <- app_assoc.
Qed.

(** C6, as the code has it.  After [stop()], [update] of the empty list
    returns and leaves the group as it is; [update] of a non-empty list
    spawns and registers a worker for the first entry and then panics on
    the write to the nil map, which stays nil. *)
Theorem update_after_stop sg :
  update key suppress (stop sg) [] = Done (stop sg)
  /\ forall sw rest,
       update key suppress (stop sg) (sw :: rest)
       = Panic {| name := name sg; m := None; nextCh := S (nextCh sg);
                  trace := trace (stop sg)
                           ++ [EvGo {| stopCh := nextCh sg; Config := sw;
                                       ScrapeGroup := name sg |};
                               EvRegister sw] |}.
Proof.
  split.
  - apply update_nil_empty. by rewrite stop_eq.
  - intros sw rest. rewrite update_nil_cons by (by rewrite stop_eq).
    by rewrite stop_eq.
Qed.

End AfterStop.

Section Duplicates.

Variable key : ScrapeWork -> string.
Variable suppress : bool.

(** *** Duplicates inside one desired list *)

Lemma dropped_app t1 t2 : dropped (t1 ++ t2) = dropped t1 ++ dropped t2.
Proof.
  induction t1 as [|e t1 IH]; [done|]. simpl. destruct e; simpl; by rewrite ?IH.
Qed.

Lemma dropped_closes l : dropped (closes l) = [].
Proof. induction l as [|e l IH]; [done|]. done. Qed.

Lemma dropped_dup_events sw ol :
  dropped (dup_events suppress sw ol) = [OriginalLabels sw].
Proof. unfold dup_events. by destruct suppress. Qed.

Lemma report_dropped a d sg : dropped (trace (report a d sg)) = dropped (trace sg).
Proof.
  unfold report. destruct (_ || _); [|done]. simpl.
  rewrite !dropped_app. simpl. by rewrite !app_nil_r.
Qed.

Lemma update_dropped sg sws sg' :
  update key suppress sg sws = Done sg' ->
  exists st, visit_all key suppress (start sg) sws = Done st
             /\ dropped (trace sg') = dropped (trace (grp st)).
Proof.
  intros (st & Hv & ->)%update_Done_inv. exists st. split; [done|].
  rewrite report_dropped, sweep_all_trace, dropped_app, dropped_closes.
  by rewrite app_nil_r.
Qed.

Lemma visit_all_dropped_nonnil sws : forall st st',
  Forall (fun sw => OriginalLabels sw <> None) sws ->
  seen_nonnil (swsMap st) ->
  visit_all key suppress st sws = Done st' ->
  dropped (trace (grp st'))
  = dropped (trace (grp st))
    ++ (OriginalLabels <$> later_occurrences key (dom (swsMap st)) sws).
Proof.
  induction sws as [|sw rest IH]; intros st st' Hnn Hseen H; simpl in H.
  - inversion H; subst. simpl. by rewrite app_nil_r.
  - apply Forall_cons in Hnn as [Hsw Hnn]. simpl.
    assert (seen_nonnil (<[key sw := OriginalLabels sw]> (swsMap st)))
      as Hseen'.
    { intros k Hk. unfold swsMap_get.
      destruct (decide (key sw = k)) as [<-|Hne].
      - by rewrite lookup_insert_eq.
      - rewrite lookup_insert_ne by done. apply Hseen.
        rewrite dom_insert_L in Hk. set_solver. }
    destruct (visit_cases key suppress st sw)
      as [ol Hg|sc Hg Hl|mm Hg Hm Hl|Hg Hm]; [..|done].
    + rewrite decide_True by (by eapply swsMap_get_Some).
      apply IH in H; [|done|done]. rewrite H. simpl.
      rewrite dropped_app, dropped_dup_events. by rewrite <- app_assoc.
    + rewrite decide_False
        by (intros Hin; by apply Hseen in Hin).
      apply IH in H; [|done|done]. rewrite H. simpl. by rewrite dom_insert_L.
    + rewrite decide_False
        by (intros Hin; by apply Hseen in Hin).
      apply IH in H; [|done|done]. rewrite H. simpl.
      rewrite dropped_app. simpl. by rewrite app_nil_r, dom_insert_L.
Qed.

(** X10. When no entry of the desired list has nil original labels, every
    later occurrence of a key is registered in the duplicate registry, in
    order, whatever the value of the flag. *)
Lemma duplicates_registered sg sws sg' :
  Forall (fun sw => OriginalLabels sw <> None) sws ->
  update key suppress sg sws = Done sg' ->
  dropped (trace sg')
  = dropped (trace sg) ++ (OriginalLabels <$> later_occurrences key ∅ sws).
Proof.
  intros Hnn (st & Hv & ->)%update_dropped.
  rewrite (visit_all_dropped_nonnil sws (start sg) st Hnn); [done| |done].
  intros k Hk. simpl in Hk. set_solver.
Qed.

(** C4, where the code departs from it.  When the first of two entries with
    equal keys has nil original labels, the test [originalLabels != nil]
    does not see the second one as a duplicate: nothing is registered in
    the duplicate registry for it. *)
Theorem nil_labels_hide_duplicate sg sw1 sw2 :
  is_Some (m sg) ->
  OriginalLabels sw1 = None ->
  key sw1 = key sw2 ->
  exists sg',
    update key suppress sg [sw1; sw2] = Done sg'
    /\ later_occurrences key ∅ [sw1; sw2] = [sw2]
    /\ dropped (trace sg') = dropped (trace sg).
Proof.
  intros Hopen Hnil Hkey.
  pose proof (update_open_returns key suppress sg [sw1; sw2] Hopen) as Hret.
  destruct (update key suppress sg [sw1; sw2]) as [sg'|] eqn:Hup; [|done].
  exists sg'. split; [done|]. split.
  { simpl. rewrite decide_False by set_solver.
    rewrite decide_True by set_solver. done. }
  apply update_dropped in Hup as (st & Hv & ->).
  simpl in Hv. unfold start in Hv.
  assert (swsMap_get (key sw2) (<[key sw1 := OriginalLabels sw1]> ∅) = None)
    as Hget2.
  { unfold swsMap_get. by rewrite Hkey, lookup_insert_eq. }
  destruct (visit_cases key suppress
              {| swsMap := ∅; grp := sg; additionsCount := 0 |} sw1)
    as [ol Hg|sc Hg Hl|mm Hg Hm Hl|Hg Hm]; [|..|done].
  - unfold swsMap_get in Hg. simpl in Hg. by rewrite lookup_empty in Hg.
  - match type of Hv with context [visit _ _ ?s sw2] =>
      destruct (visit_cases key suppress s sw2)
        as [ol2 Hg2|sc2 Hg2 Hl2|mm2 Hg2 Hm2 Hl2|Hg2 Hm2] end;
      simpl in *; try congruence.
    + by inversion Hv; subst.
    + rewrite Hkey in Hl. unfold m_lookup in Hl. rewrite Hm2 in Hl. congruence.
  - match type of Hv with context [visit _ _ ?s sw2] =>
      destruct (visit_cases key suppress s sw2)
        as [ol2 Hg2|sc2 Hg2 Hl2|mm2 Hg2 Hm2 Hl2|Hg2 Hm2] end;
      simpl in *; try congruence.
    + inversion Hv; subst. simpl. rewrite dropped_app. simpl.
      by rewrite app_nil_r.
    + inversion Hm2; subst. by rewrite Hkey, lookup_insert_eq in Hl2.
Qed.

End Duplicates.

Section Flag.

Variable key : ScrapeWork -> string.

(** *** The suppress flag *)

Lemma silent_app t1 t2 : silent (t1 ++ t2) = silent t1 ++ silent t2.
Proof. unfold silent. apply List.filter_app. Qed.

Lemma visit_flag s1 s2 sw :
  same_but_log1 s1 s2 ->
  same_outcome same_but_log1 (visit key true s1 sw) (visit key false s2 sw).
Proof.
  destruct s1 as [sm1 [n1 m1 c1 t1] a1], s2 as [sm2 [n2 m2 c2 t2] a2].
  intros (Hsm & Hac & Hn & Hm & Hnc & Htr). simpl in *. subst.
  unfold visit, m_lookup. simpl.
  destruct (swsMap_get (key sw) sm2) as [ol|]; simpl;
    [|destruct m2 as [mm|]; simpl; [destruct (mm !! key sw); simpl|]];
    unfold same_but_log1, same_but_log; simpl;
    rewrite ?silent_app, ?Htr; try by split_and!.
  split_and!; try done. unfold silent. simpl. by rewrite app_nil_r.
Qed.

Lemma visit_all_flag sws : forall s1 s2,
  same_but_log1 s1 s2 ->
  same_outcome same_but_log1
    (visit_all key true s1 sws) (visit_all key false s2 sws).
Proof.
  induction sws as [|sw rest IH]; intros s1 s2 H; simpl; [done|].
  pose proof (visit_flag s1 s2 sw H) as Hv.
  destruct (visit key true s1 sw), (visit key false s2 sw); simpl in Hv;
    try done. by apply IH.
Qed.

Lemma sweep_all_flag sm g1 g2 :
  same_but_log g1 g2 ->
  same_but_log (grp2 (sweep_all sm g1)) (grp2 (sweep_all sm g2))
  /\ deletionsCount (sweep_all sm g1) = deletionsCount (sweep_all sm g2).
Proof.
  intros (Hn & Hm & Hnc & Htr).
  assert (entries g1 = entries g2) as He by (unfold entries; by rewrite Hm).
  rewrite !sweep_all_deletions, He. split; [|done].
  unfold same_but_log. rewrite !sweep_all_trace, !sweep_all_nextCh, He.
  rewrite !silent_app, Htr. split_and!; try done.
  - destruct (m g1) as [mm|] eqn:Hm1; symmetry in Hm.
    + destruct (sweep_all_open sm g1 mm Hm1) as (? & _ & _ & -> & _).
      by destruct (sweep_all_open sm g2 mm Hm) as (? & _ & _ & -> & _).
    + by rewrite !sweep_all_nil.
  - destruct (m g1) as [mm|] eqn:Hm1; symmetry in Hm.
    + destruct (sweep_all_open sm g1 mm Hm1) as (m1 & -> & H1 & _).
      destruct (sweep_all_open sm g2 mm Hm) as (m2 & -> & H2 & _).
      f_equal. apply map_eq. intros k. by rewrite H1, H2.
    + rewrite !sweep_all_nil by done. simpl. congruence.
Qed.

Lemma report_flag a d g1 g2 :
  same_but_log g1 g2 -> same_but_log (report a d g1) (report a d g2).
Proof.
  intros (Hn & Hm & Hnc & Htr). unfold report.
  destruct (_ || _); [|done]. unfold same_but_log, m_len. simpl.
  rewrite !silent_app, Htr, Hm. done.
Qed.

(** X11. The flag only silences the diagnostic: with and without it a
    reconcile ends the same way, with the same map, the same counters and
    the same effects apart from the log lines. *)
Lemma suppress_only_silences sg sws :
  same_outcome
    (fun r1 r2 => same_but_log (result r1) (result r2)
                  /\ additions r1 = additions r2
                  /\ deletions r1 = deletions r2)
    (reconcile key true sg sws) (reconcile key false sg sws).
Proof.
  unfold reconcile.
  pose proof (visit_all_flag sws (start sg) (start sg)) as Hv.
  unfold start in Hv.
  destruct (visit_all key true _ sws) as [s1|s1],
           (visit_all key false _ sws) as [s2|s2]; simpl in *;
    try (by apply Hv).
  - destruct Hv as (Hsm & Hac & Hg); [done|].
    destruct (sweep_all_flag (swsMap s2) (grp s1) (grp s2) Hg) as [Hs Hd].
    rewrite Hsm, Hac, Hd. split_and!; try done. by apply report_flag.
  - destruct Hv as (Hsm & Hac & Hg); [done|]. by split_and!.
Qed.

End Flag.

Section Workers.

(** *** Goroutines and their schedule *)

Lemma remaining_set_eq sc ws p :
  is_Some (remaining sc p) -> remaining sc (set_remaining sc ws p) = Some ws.
Proof.
  induction p as [|[sc' ws'] p IH]; simpl; [by intros [? ?]|].
  destruct (decide (sc' = sc)) as [->|Hne]; simpl.
  - by rewrite decide_True.
  - rewrite decide_False by done. apply IH.
Qed.

Lemma remaining_set_ne sc sc' ws p :
  sc <> sc' -> remaining sc (set_remaining sc' ws p) = remaining sc p.
Proof.
  intros Hne. induction p as [|[sc0 ws0] p IH]; simpl; [done|].
  destruct (decide (sc0 = sc')) as [->|Hne']; simpl.
  - by rewrite !decide_False by congruence.
  - by rewrite IH.
Qed.

Lemma remaining_app sc p q :
  remaining sc (p ++ q)
  = match remaining sc p with
    | Some ws => Some ws
    | None => remaining sc q
    end.
Proof.
  induction p as [|[sc0 ws0] p IH]; simpl; [done|].
  by destruct (decide (sc0 = sc)).
Qed.

Lemma remaining_spawn sc e p ws :
  remaining sc (spawn e p) = Some ws ->
  remaining sc p = Some ws
  \/ (remaining sc p = None /\ e = EvGo sc /\ ws = worker sc).
Proof.
  destruct e; simpl; try by left.
  rewrite remaining_app. destruct (remaining sc p); [by left|].
  simpl. case_decide; [|done]. subst. intros [= <-]. by right.
Qed.

Lemma advance_inv sc w p p' :
  advance sc w p = Some p' ->
  exists ws, remaining sc p = Some (w :: ws) /\ p' = set_remaining sc ws p.
Proof.
  unfold advance. destruct (remaining sc p) as [[|w' ws]|]; try done.
  case_decide; [|done]. subst. intros [= <-]. eauto.
Qed.

Lemma pool_ok_nil : pool_ok [].
Proof. intros sc ws H. done. Qed.

Lemma pool_ok_spawn e p : pool_ok p -> pool_ok (spawn e p).
Proof.
  intros Hok sc ws [H|(_ & _ & ->)]%remaining_spawn; [by apply Hok|done].
Qed.

Lemma pool_ok_advance sc w p p' :
  pool_ok p -> advance sc w p = Some p' -> pool_ok p'.
Proof.
  intros Hok (ws & Hr & ->)%advance_inv sc0 ws0 H0.
  destruct (decide (sc0 = sc)) as [->|Hne].
  - rewrite remaining_set_eq in H0 by eauto. inversion H0; subst.
    apply Hok in Hr. eapply suffix_cons_l. exact Hr.
  - rewrite remaining_set_ne in H0 by done. by apply Hok.
Qed.

Lemma suffix_worker_unregister sc sw ws :
  WUnregister sw :: ws `suffix_of` worker sc ->
  sw = Config sc /\ ws = [WDone].
Proof.
  intros [k Hk]. unfold worker in Hk.
  do 5 (destruct k as [|? k]; simplify_eq/=; try done).
Qed.

Lemma suffix_worker_before_unregister sc w :
  [w; WUnregister (Config sc); WDone] `suffix_of` worker sc ->
  w = WRunReturn sc.
Proof.
  intros [k Hk]. unfold worker in Hk.
  do 5 (destruct k as [|? k]; simplify_eq/=; try done).
Qed.

Lemma schedule_unregister s : forall p t i sc sw,
  pool_ok p ->
  interleaving p t s = true ->
  s !! i = Some (Worker sc (WUnregister sw)) ->
  sw = Config sc
  /\ ((exists j, j < i /\ s !! j = Some (Worker sc (WRunReturn sc)))
      \/ remaining sc p = Some [WUnregister (Config sc); WDone]).
Proof.
  induction s as [|x s IH]; intros p t i sc sw Hok Hs Hi; [done|].
  destruct x as [e|sc' w]; simpl in Hs.
  - destruct t as [|e' t]; [done|].
    apply andb_prop in Hs as [_ Hs].
    destruct i as [|i]; [done|]. simpl in Hi.
    destruct (IH _ _ _ _ _ (pool_ok_spawn e p Hok) Hs Hi)
      as [-> [(j & Hj & Hsj)|Hr]]; (split; [done|]).
    + left. exists (S j). split; [lia|done].
    + apply remaining_spawn in Hr as [Hr|(_ & _ & Hw)]; [by right|done].
  - destruct (advance sc' w p) as [p'|] eqn:Hadv; [|done].
    pose proof (pool_ok_advance _ _ _ _ Hok Hadv) as Hok'.
    apply advance_inv in Hadv as (ws & Hr & ->).
    destruct i as [|i]; simpl in Hi.
    + inversion Hi; subst. apply Hok in Hr as Hsuf.
      apply suffix_worker_unregister in Hsuf as [-> ->]. by split; [|right].
    + destruct (IH _ _ _ _ _ Hok' Hs Hi)
        as [-> [(j & Hj & Hsj)|Hr']]; (split; [done|]).
      * left. exists (S j). split; [lia|done].
      * destruct (decide (sc = sc')) as [->|Hne].
        -- rewrite remaining_set_eq in Hr' by eauto. inversion Hr'; subst.
           apply Hok in Hr. apply suffix_worker_before_unregister in Hr as ->.
           left. exists 0. split; [lia|done].
        -- rewrite remaining_set_ne in Hr' by done. by right.
Qed.

Lemma schedule_spawned s : forall p t i sc w,
  interleaving p t s = true ->
  s !! i = Some (Worker sc w) ->
  (exists j, j < i /\ s !! j = Some (Owner (EvGo sc)))
  \/ is_Some (remaining sc p).
Proof.
  induction s as [|x s IH]; intros p t i sc w Hs Hi; [done|].
  destruct x as [e|sc' w']; simpl in Hs.
  - destruct t as [|e' t]; [done|].
    apply andb_prop in Hs as [_ Hs].
    destruct i as [|i]; [done|]. simpl in Hi.
    destruct (IH _ _ _ _ _ Hs Hi) as [(j & Hj & Hsj)|[ws Hr]].
    + left. exists (S j). split; [lia|done].
    + apply remaining_spawn in Hr as [Hr|(_ & -> & _)]; [by right; eauto|].
      left. exists 0. split; [lia|done].
  - destruct (advance sc' w' p) as [p'|] eqn:Hadv; [|done].
    apply advance_inv in Hadv as (ws & Hr & ->).
    destruct i as [|i]; simpl in Hi.
    + inversion Hi; subst. right. eauto.
    + destruct (IH _ _ _ _ _ Hs Hi) as [(j & Hj & Hsj)|[ws' Hr']].
      * left. exists (S j). split; [lia|done].
      * right. destruct (decide (sc = sc')) as [->|Hne]; [eauto|].
        rewrite remaining_set_ne in Hr' by done. eauto.
Qed.

(** *** The order of spawn and register in the trace *)

Lemma go_then_register_nospawn evs :
  spawned evs = [] -> go_then_register evs.
Proof.
  induction evs as [|e evs IH]; [done|]. destruct e; simpl; try done.
Qed.

Lemma go_then_register_app t1 t2 :
  go_then_register t1 -> go_then_register t2 -> go_then_register (t1 ++ t2).
Proof.
  induction t1 as [|e t1 IH]; [done|]. intros H1 H2.
  destruct e; simpl in *; try by apply IH.
  destruct t1 as [|[] t1]; try done. simpl in *.
  destruct H1 as [-> H1]. split; [done|]. by apply IH.
Qed.

End Workers.

Section Lifecycle.

Variable key : ScrapeWork -> string.
Variable suppress : bool.

Lemma visit_go_then_register st sw :
  go_then_register (trace (grp st)) ->
  go_then_register (trace (grp (outcome_state (visit key suppress st sw)))).
Proof.
  intros H.
  destruct (visit_cases key suppress st sw)
    as [ol Hg|sc Hg Hl|mm Hg Hm Hl|Hg Hm]; simpl; try done;
    apply go_then_register_app; try done.
  apply go_then_register_nospawn, spawned_dup_events.
Qed.

Lemma visit_all_go_then_register sws : forall st,
  go_then_register (trace (grp st)) ->
  go_then_register
    (trace (grp (outcome_state (visit_all key suppress st sws)))).
Proof.
  induction sws as [|sw rest IH]; intros st H; simpl; [done|].
  pose proof (visit_go_then_register st sw H) as Hv.
  destruct (visit key suppress st sw) as [st1|st1]; simpl in *; [|done].
  by apply IH.
Qed.

Lemma update_go_then_register sg sws :
  go_then_register (trace sg) ->
  go_then_register (trace (outcome_state (update key suppress sg sws))).
Proof.
  intros H. unfold update, reconcile. fold (start sg).
  pose proof (visit_all_go_then_register sws (start sg) H) as Hv.
  destruct (visit_all key suppress (start sg) sws) as [st|st]; simpl in *;
    [|done].
  destruct (report_trace (additionsCount st)
              (deletionsCount (sweep_all (swsMap st) (grp st)))
              (grp2 (sweep_all (swsMap st) (grp st)))) as (evs & -> & Hs & _).
  apply go_then_register_app; [|by apply go_then_register_nospawn].
  rewrite sweep_all_trace. apply go_then_register_app; [done|].
  apply go_then_register_nospawn, spawned_closes.
Qed.

Lemma exec_go_then_register ops : forall sg,
  go_then_register (trace sg) ->
  go_then_register (trace (outcome_state (exec key suppress sg ops))).
Proof.
  induction ops as [|o ops IH]; intros sg H; simpl; [done|].
  destruct o as [sws|]; simpl.
  - pose proof (update_go_then_register sg sws H) as Hu.
    destruct (update key suppress sg sws) as [sg'|sg']; simpl in *; [|done].
    by apply IH.
  - apply IH. rewrite stop_eq. simpl.
    apply go_then_register_app; [done|].
    apply go_then_register_nospawn.
    by rewrite spawned_app, spawned_closes.
Qed.

(** C9, as the code has it.  In every history of a group, the [go]
    statement that spawns a worker comes first and the call of [Register]
    for its target is the very next effect; in every execution
    interleaved with the workers, each statement of a worker comes after
    its [go] statement, and [Unregister] is called by a worker for its own
    target only after its [run] has returned. *)
Theorem spawn_register_unregister n ops s :
  interleaving []
    (trace (outcome_state (exec key suppress (newScraperGroup n) ops))) s
  = true ->
  go_then_register
    (trace (outcome_state (exec key suppress (newScraperGroup n) ops)))
  /\ spawned_before_step s
  /\ unregister_after_return s.
Proof.
  intros Hs. split_and!.
  - by apply exec_go_then_register.
  - intros i sc w Hi.
    destruct (schedule_spawned _ _ _ _ _ _ Hs Hi) as [H|[ws H]]; done.
  - intros i sc sw Hi.
    destruct (schedule_unregister _ _ _ _ _ _ pool_ok_nil Hs Hi)
      as [-> [H|H]]; done.
Qed.

End Lifecycle.

Section LiveMap.

Variable key : ScrapeWork -> string.
Variable suppress : bool.

(** *** The live map and the alive workers *)

Lemma tidy_new n : tidy key (newScraperGroup n).
Proof.
  unfold tidy, entries_alive, closed_allocated, channels_ok,
    channels_distinct, channels_allocated, m_lookup. simpl.
  split_and!.
  - intros k sc H. by rewrite lookup_empty in H.
  - intros ch H. by apply elem_of_nil in H.
  - intros k1 k2 sc1 sc2 H. by rewrite lookup_empty in H.
  - intros k sc H. by rewrite lookup_empty in H.
Qed.

Lemma visit_all_tidy sws : forall st st',
  visit_all key suppress st sws = Done st' ->
  tidy key (grp st) -> tidy key (grp st').
Proof.
  induction sws as [|sw rest IH]; intros st st' H Ht; simpl in H.
  - by inversion H; subst.
  - destruct (visit_cases key suppress st sw)
      as [ol Hg|sc Hg Hl|mm Hg Hm Hl|Hg Hm]; [..|done];
      apply IH in H; try done; clear IH.
    + destruct Ht as (He & Hc & Hok). split_and!.
      * intros k sc Hk. unfold m_lookup in Hk. simpl in *.
        destruct (He k sc Hk) as [Ha Hkey]. split; [|done].
        apply alive_nospawn_elem; [apply spawned_dup_events|].
        split; [done|]. rewrite (closed_dup_events suppress).
        apply not_elem_of_nil.
      * intros ch. simpl. rewrite closed_app, (closed_dup_events suppress).
        rewrite app_nil_r. apply Hc.
      * revert Hok. apply channels_ok_submap; [|done].
        intros k sc. unfold m_lookup. simpl. done.
    + destruct Ht as (He & Hc & Hok). split_and!.
      * intros k sc. unfold m_lookup. simpl.
        change [EvGo (fresh st sw); EvRegister sw]
          with ([EvGo (fresh st sw)] ++ [EvRegister sw]).
        rewrite app_assoc.
        destruct (decide (key sw = k)) as [<-|Hne].
        -- rewrite lookup_insert_eq. intros [= <-]. split; [|done].
           apply alive_nospawn_elem; [done|]. split; [|apply not_elem_of_nil].
           rewrite alive_go. apply elem_of_app. right.
           rewrite decide_False; [by apply list_elem_of_singleton|].
           intros Hin%Hc. simpl in Hin. lia.
        -- rewrite lookup_insert_ne by done. intros Hk.
           destruct (He k sc) as [Ha Hkey];
             [unfold m_lookup; by rewrite Hm|].
           split; [|done].
           apply alive_nospawn_elem; [done|]. split; [|apply not_elem_of_nil].
           rewrite alive_go. apply elem_of_app. by left.
      * intros ch. simpl. rewrite closed_app. simpl. rewrite app_nil_r.
        intros Hin%Hc. lia.
      * apply (visit_all_channels_ok key suppress [sw] st); [|done].
        simpl.
        destruct (visit_cases key suppress st sw)
          as [ol' Hg'|sc' Hg' Hl'|mm' Hg' Hm' Hl'|Hg' Hm']; try congruence.
        unfold m_lookup in Hl'. rewrite Hm in Hl'. congruence.
Qed.

Lemma update_tidy sg sws sg' :
  update key suppress sg sws = Done sg' -> tidy key sg -> tidy key sg'.
Proof.
  intros Hup Ht. pose proof Hup as (st & Hv & ->)%update_Done_inv.
  pose proof (visit_all_tidy _ _ _ Hv Ht) as (He & Hc & Hd & Ha).
  destruct (report_trace (additionsCount st)
              (deletionsCount (sweep_all (swsMap st) (grp st)))
              (grp2 (sweep_all (swsMap st) (grp st))))
    as (evs & Htr & Hs & Hcl).
  split_and!.
  - intros k sc. rewrite report_m_lookup, sweep_all_m_lookup.
    destruct (swsMap st !! k) eqn:Hsm; [|done]. intros Hk.
    destruct (He k sc Hk) as [Hal Hkey]. split; [|done].
    rewrite Htr. apply alive_nospawn_elem; [done|].
    split; [|rewrite Hcl; apply not_elem_of_nil].
    rewrite sweep_all_trace.
    apply alive_nospawn_elem; [apply spawned_closes|]. split; [done|].
    rewrite closed_closes.
    intros ([k' sc'] & Hch & Hin)%list_elem_of_fmap. simpl in Hch.
    unfold doomed in Hin. apply list_elem_of_filter in Hin as [Hsm' Hin].
    apply entries_lookup in Hin. simpl in Hsm'.
    assert (k = k') by (by eapply Hd). subst. congruence.
  - intros ch. rewrite Htr, closed_app, Hcl, app_nil_r.
    rewrite sweep_all_trace, closed_app, closed_closes.
    rewrite report_nextCh, sweep_all_nextCh.
    intros [Hin|Hin]%elem_of_app; [by apply Hc|].
    apply list_elem_of_fmap in Hin as ([k' sc'] & -> & Hin).
    unfold doomed in Hin. apply list_elem_of_filter in Hin as [_ Hin].
    apply entries_lookup in Hin. by eapply Ha.
  - eapply update_channels_ok; [done|]. by destruct Ht as (_ & _ & ?).
Qed.

Lemma stop_tidy sg : tidy key sg -> tidy key (stop sg).
Proof.
  intros (He & Hc & Hd & Ha). rewrite stop_eq. split_and!.
  - intros k sc H. done.
  - intros ch. simpl. rewrite !closed_app, closed_closes. simpl.
    rewrite app_nil_r.
    intros [Hin|Hin]%elem_of_app; [by apply Hc|].
    apply list_elem_of_fmap in Hin as ([k' sc'] & -> & Hin).
    apply entries_lookup in Hin. by eapply Ha.
  - rewrite <- stop_eq. apply stop_channels_ok.
Qed.

Lemma exec_tidy ops : forall sg sg',
  exec key suppress sg ops = Done sg' -> tidy key sg -> tidy key sg'.
Proof.
  induction ops as [|o ops IH]; intros sg sg' H Ht; simpl in H.
  - by inversion H; subst.
  - destruct o as [sws|]; simpl in H.
    + destruct (update key suppress sg sws) as [sg1|sg1] eqn:Hup; [|done].
      eapply IH; [done|]. by eapply update_tidy.
    + eapply IH; [done|]. by apply stop_tidy.
Qed.

Lemma exec_Done_consistent ops : forall sg sg',
  exec key suppress sg ops = Done sg' ->
  consistent key sg -> consistent key sg'.
Proof.
  induction ops as [|o ops IH]; intros sg sg' H Hc; simpl in H.
  - by inversion H; subst.
  - destruct o as [sws|]; simpl in H.
    + destruct (update_consistent key suppress sg sws Hc) as [_ Hd].
      destruct (update key suppress sg sws) as [sg1|sg1]; [|done].
      eapply IH; [done|]. by apply Hd.
    + eapply IH; [done|]. by apply stop_consistent.
Qed.

(** X9. In every group reached from a new one the live map holds exactly
    the alive workers, each under its own key; in particular the channel of
    an entry has not been closed, so the closes of [update] and [stop]
    never hit a closed channel. *)
Lemma live_map_is_alive n ops sg sc :
  exec key suppress (newScraperGroup n) ops = Done sg ->
  sc ∈ alive (trace sg) <-> m_lookup (key (Config sc)) sg = Some sc.
Proof.
  intros H. split.
  - eapply exec_Done_consistent in H as [Hin _]; [|apply consistent_new].
    apply Hin.
  - intros Hk. eapply exec_tidy in H as (He & _); [|apply tidy_new].
    by destruct (He _ _ Hk).
Qed.

End LiveMap.

Section Samples.

Import Sample.

(** *** The properties on the sample targets *)

Example static_ab_trace :
  trace static_ab
  = [EvGo {| stopCh := 0; Config := target_a;
             ScrapeGroup := "static_configs" |};
     EvRegister target_a;
     EvGo {| stopCh := 1; Config := target_b;
             ScrapeGroup := "static_configs" |};
     EvRegister target_b;
     EvChangesAdd 2; EvLogSummary 2 0 2].
Proof. reflexivity. Qed.

(** C1 on the sample group: after a reconcile with [c; a; c] the live keys
    are those of [c] and [a]. *)
Lemma update_live_keys_witness :
  live_keys (outcome_state (update url_key false static_ab [target_c; target_a; target_c]))
  = keyset url_key [target_c; target_a; target_c].
Proof.
  apply (update_live_keys url_key false static_ab
           [target_c; target_a; target_c]).
  vm_compute. reflexivity.
Defined.

(** C2 on a sample history, at its last instant. *)
Lemma at_most_one_scraper_per_key_witness :
  at_most_one url_key
    (trace (outcome_state
              (exec url_key false (newScraperGroup "static_configs")
                 [OpUpdate [target_a; target_b]; OpUpdate [target_b];
                  OpUpdate [target_a; target_a]; OpStop]))).
Proof.
  apply (at_most_one_scraper_per_key url_key false "static_configs"
           [OpUpdate [target_a; target_b]; OpUpdate [target_b];
            OpUpdate [target_a; target_a]; OpStop]).
  reflexivity.
Defined.

(** C3 on the sample group: [a] stays live through a reconcile with
    [c; a]. *)
Lemma update_keeps_wanted_witness :
  exists r evs,
    reconcile url_key false static_ab [target_c; target_a] = Done r
    /\ trace (result r) = trace static_ab ++ evs
    /\ m_lookup "http://a/metrics" (result r)
       = Some {| stopCh := 0; Config := target_a;
                 ScrapeGroup := "static_configs" |}
    /\ (forall sc', sc' ∈ spawned evs ->
          url_key (Config sc') <> "http://a/metrics")
    /\ (0 ∉ closed evs)
    /\ additions r = length (spawned evs)
    /\ deletions r = length (closed evs).
Proof.
  apply (update_keeps_wanted url_key false "static_configs"
           [OpUpdate [target_a; target_b]] static_ab [target_c; target_a]
           "http://a/metrics"
           {| stopCh := 0; Config := target_a;
              ScrapeGroup := "static_configs" |}).
  - vm_compute. reflexivity.
  - vm_compute. reflexivity.
  - vm_compute. reflexivity.
Defined.

(** The failing input of C4: the target [a] twice, first with nil original
    labels. *)
Lemma nil_labels_hide_duplicate_witness :
  exists sg',
    update url_key false static [target_a_nil; target_a] = Done sg'
    /\ later_occurrences url_key ∅ [target_a_nil; target_a] = [target_a]
    /\ dropped (trace sg') = dropped (trace static).
Proof.
  apply (nil_labels_hide_duplicate url_key false static target_a_nil
           target_a).
  - vm_compute. eauto.
  - reflexivity.
  - reflexivity.
Defined.

(** Listing the same endpoint twice: one scraper is started, the second
    entry is logged and registered as dropped. *)
Example duplicate_targets_sample :
  trace (outcome_state (update url_key false static [target_a; target_a]))
  = [EvGo {| stopCh := 0; Config := target_a;
             ScrapeGroup := "static_configs" |};
     EvRegister target_a;
     EvLogDuplicate target_a [job];
     EvDropped (Some [job]);
     EvChangesAdd 1; EvLogSummary 1 0 1].
Proof. reflexivity. Qed.

(** Service-discovery churn: three targets, then the same minus one plus a
    new one. *)
Example churn_sample :
  let r1 := outcome_state
              (reconcile url_key false static [target_a; target_b; target_c])
  in
  let r2 := outcome_state
              (reconcile url_key false (result r1)
                 [target_b; target_c; target_d]) in
  (additions r1, deletions r1) = (3, 0)
  /\ (additions r2, deletions r2) = (1, 1)
  /\ dropped (trace (result r2)) = []
  /\ closed (trace (result r2)) = [0].
Proof. vm_compute. by split_and!. Qed.

(** Reconciling the same list again changes nothing. *)
Example same_list_again_sample :
  reconcile url_key false static_ab [target_a; target_b]
  = Done {| result := static_ab; additions := 0; deletions := 0 |}.
Proof. vm_compute. reflexivity. Qed.

(** The same list with non-nil original labels on the first entry: the
    second entry is registered. *)
Example duplicate_registered_sample :
  dropped (trace (outcome_state
                    (update url_key true static [target_a; target_a])))
  = [Some [job]].
Proof. reflexivity. Qed.

(** C6 fails on the code: a reconcile of one target on a stopped group
    does not return, and it has spawned a worker by the time it panics. *)
Lemma update_after_stop_counterexample :
  ~ returned (update url_key false (stop static_ab) [target_c])
  /\ spawned (trace (outcome_state
                       (update url_key false (stop static_ab) [target_c])))
     <> spawned (trace (stop static_ab))
  /\ outcome_state (update url_key false (stop static_ab) [target_c])
     <> stop static_ab.
Proof.
  split_and!.
  - vm_compute. tauto.
  - vm_compute. discriminate.
  - intros H. apply (f_equal nextCh) in H. vm_compute in H. discriminate.
Qed.

(** C9 fails on the code: after the first reconcile of the sample group
    there is an execution in which the worker of [a] enters [run] before
    anything was registered. *)
Lemma register_before_run_counterexample :
  ~ register_before_run (trace static_ab).
Proof.
  intros H.
  destruct (H [Owner (EvGo {| stopCh := 0; Config := target_a;
                              ScrapeGroup := "static_configs" |});
               Worker {| stopCh := 0; Config := target_a;
                         ScrapeGroup := "static_configs" |}
                      (WRunCall {| stopCh := 0; Config := target_a;
                                   ScrapeGroup := "static_configs" |})]
              {| stopCh := 0; Config := target_a;
                 ScrapeGroup := "static_configs" |} 1)
    as (j & Hj & Hs).
  - reflexivity.
  - reflexivity.
  - destruct j as [|j]; [discriminate|lia].
Qed.

(** C9 as amended, on the first reconcile of the sample group and an
    execution in which the worker of [a] runs before [Register]. *)
Lemma spawn_register_unregister_witness :
  go_then_register (trace static_ab)
  /\ spawned_before_step
       [Owner (EvGo {| stopCh := 0; Config := target_a;
                       ScrapeGroup := "static_configs" |});
        Worker {| stopCh := 0; Config := target_a;
                  ScrapeGroup := "static_configs" |}
               (WRunCall {| stopCh := 0; Config := target_a;
                            ScrapeGroup := "static_configs" |});
        Owner (EvRegister target_a)]
  /\ unregister_after_return
       [Owner (EvGo {| stopCh := 0; Config := target_a;
                       ScrapeGroup := "static_configs" |});
        Worker {| stopCh := 0; Config := target_a;
                  ScrapeGroup := "static_configs" |}
               (WRunCall {| stopCh := 0; Config := target_a;
                            ScrapeGroup := "static_configs" |});
        Owner (EvRegister target_a)].
Proof.
  apply (spawn_register_unregister url_key false "static_configs"
           [OpUpdate [target_a; target_b]]).
  reflexivity.
Defined.

End Samples.

Section History.

Variable key : ScrapeWork -> string.
Variable suppress : bool.

(** *** Stop channels over a whole history *)

Lemma channels_fresh_nospawn sg sg' evs :
  trace sg' = trace sg ++ evs -> spawned evs = [] -> nextCh sg' = nextCh sg ->
  channels_fresh sg -> channels_fresh sg'.
Proof.
  intros Ht Hs Hn [Hnd Hlt]. unfold channels_fresh.
  rewrite Ht, spawned_app, Hs, app_nil_r, Hn. done.
Qed.

Lemma visit_channels_fresh st sw :
  channels_fresh (grp st) ->
  channels_fresh (grp (outcome_state (visit key suppress st sw))).
Proof.
  intros Hf.
  assert (channels_fresh
            {| name := name (grp st); m := None;
               nextCh := S (nextCh (grp st));
               trace := trace (grp st) ++ [EvGo (fresh st sw); EvRegister sw] |})
    as Hnew.
  { destruct Hf as [Hnd Hlt]. unfold channels_fresh. simpl.
    rewrite spawned_app. simpl. split.
    - rewrite fmap_app. simpl. apply NoDup_app. split_and!; [done| |].
      + intros ch (sc & -> & Hsc%Hlt)%list_elem_of_fmap Hin.
        apply list_elem_of_singleton in Hin. lia.
      + apply NoDup_singleton.
    - intros sc [Hsc%Hlt| ->%list_elem_of_singleton]%elem_of_app;
        simpl; lia. }
  destruct (visit_cases key suppress st sw)
    as [ol Hg|sc Hg Hl|mm Hg Hm Hl|Hg Hm]; simpl; try done.
  apply (channels_fresh_nospawn (grp st) _ (dup_events suppress sw ol));
    [done|apply spawned_dup_events|done|done].
Qed.

Lemma visit_all_channels_fresh sws : forall st,
  channels_fresh (grp st) ->
  channels_fresh (grp (outcome_state (visit_all key suppress st sws))).
Proof.
  induction sws as [|sw rest IH]; intros st Hf; simpl; [done|].
  pose proof (visit_channels_fresh st sw Hf) as Hv.
  destruct (visit key suppress st sw) as [st1|st1]; simpl in *; [|done].
  by apply IH.
Qed.

Lemma update_channels_fresh sg sws :
  channels_fresh sg ->
  channels_fresh (outcome_state (update key suppress sg sws)).
Proof.
  intros Hf. unfold update, reconcile. fold (start sg).
  pose proof (visit_all_channels_fresh sws (start sg) Hf) as Hv.
  destruct (visit_all key suppress (start sg) sws) as [st|st]; simpl in *;
    [|done].
  destruct (report_trace (additionsCount st)
              (deletionsCount (sweep_all (swsMap st) (grp st)))
              (grp2 (sweep_all (swsMap st) (grp st))))
    as (evs & Htr & Hs & Hcl).
  eapply (channels_fresh_nospawn (grp st) _
            (closes (doomed (swsMap st) (entries (grp st))) ++ evs)).
  - by rewrite Htr, sweep_all_trace, <- app_assoc.
  - by rewrite spawned_app, spawned_closes, Hs.
  - by rewrite report_nextCh, sweep_all_nextCh.
  - done.
Qed.

Lemma stop_channels_fresh sg : channels_fresh sg -> channels_fresh (stop sg).
Proof.
  apply channels_fresh_nospawn with (evs := closes (entries sg) ++ [EvWgWait]).
  - by rewrite stop_eq.
  - by rewrite spawned_app, spawned_closes.
  - by rewrite stop_eq.
Qed.

(** X1. Whatever calls of [update] and [stop] are made on a group, the
    scrapers built by [newScraper] over the whole history, including one
    built by a call that panics, have pairwise distinct stop channels: a
    close reaches the worker it is meant for and no other. *)
Theorem every_scraper_owns_its_channel n ops :
  NoDup (stopCh <$>
           spawned (trace (outcome_state
                             (exec key suppress (newScraperGroup n) ops)))).
Proof.
  assert (forall sg, channels_fresh sg ->
            channels_fresh (outcome_state (exec key suppress sg ops))) as Hgen.
  { induction ops as [|o ops IH]; intros sg Hf; simpl; [done|].
    destruct o as [sws|]; simpl.
    - pose proof (update_channels_fresh sg sws Hf) as Hu.
      destruct (update key suppress sg sws) as [sg'|sg']; simpl in *; [|done].
      by apply IH.
    - by apply IH, stop_channels_fresh. }
  apply Hgen. split; simpl; [apply NoDup_nil_2|].
  by intros sc ?%elem_of_nil.
Qed.

(** *** No channel is closed twice *)

Lemma visit_all_closed sws : forall st,
  exists evs,
    trace (grp (outcome_state (visit_all key suppress st sws)))
    = trace (grp st) ++ evs
    /\ closed evs = [].
Proof.
  induction sws as [|sw rest IH]; intros st; simpl.
  - exists []. by rewrite app_nil_r.
  - destruct (visit_cases key suppress st sw)
      as [ol Hg|sc Hg Hl|mm Hg Hm Hl|Hg Hm]; simpl.
    + match goal with |- context [visit_all _ _ ?s rest] =>
        destruct (IH s) as (evs & Ht & Hc) end.
      simpl in Ht. exists (dup_events suppress sw ol ++ evs).
      rewrite Ht, <- app_assoc, closed_app, (closed_dup_events suppress).
      done.
    + match goal with |- context [visit_all _ _ ?s rest] =>
        destruct (IH s) as (evs & Ht & Hc) end.
      by exists evs.
    + match goal with |- context [visit_all _ _ ?s rest] =>
        destruct (IH s) as (evs & Ht & Hc) end.
      simpl in Ht. exists ([EvGo (fresh st sw); EvRegister sw] ++ evs).
      by rewrite Ht, <- app_assoc.
    + by exists [EvGo (fresh st sw); EvRegister sw].
Qed.

Lemma closed_once_nospawn t evs :
  closed evs = [] -> closed_once t -> closed_once (t ++ evs).
Proof.
  intros Hc [Hnd Hsp]. unfold closed_once.
  rewrite closed_app, Hc, app_nil_r. split; [done|].
  intros ch (sc & Hsc & Hch)%Hsp. exists sc. split; [|done].
  rewrite spawned_app. apply elem_of_app. by left.
Qed.

(** Closing the channels of entries of the live map of a tidy group. *)
Lemma closed_once_closes sg l :
  tidy key sg ->
  NoDup l ->
  (forall e, e ∈ l -> e ∈ entries sg) ->
  closed_once (trace sg) -> closed_once (trace sg ++ closes l).
Proof.
  intros (He & _ & Hd & _) Hl Hin [Hnd Hsp]. unfold closed_once.
  rewrite closed_app, closed_closes, spawned_app, spawned_closes, app_nil_r.
  split.
  - apply NoDup_app. split_and!; [done| |].
    + intros ch Hch ([k sc] & -> & Hk)%list_elem_of_fmap. simpl in Hch.
      apply Hin, entries_lookup, He in Hk as [Hal _].
      apply alive_elem in Hal as [_ Hal]. done.
    + apply NoDup_fmap_2_strong; [|done].
      intros [k1 sc1] [k2 sc2] H1%Hin%entries_lookup H2%Hin%entries_lookup Hch.
      simpl in Hch. assert (k1 = k2) by (by eapply Hd). subst.
      f_equal. congruence.
  - intros ch [Hch|Hch]%elem_of_app; [by apply Hsp|].
    apply list_elem_of_fmap in Hch as ([k sc] & -> & Hk).
    apply Hin, entries_lookup, He in Hk as [Hal _].
    apply alive_elem in Hal as [Hal _]. eauto.
Qed.

Lemma update_closed_once sg sws :
  tidy key sg -> closed_once (trace sg) ->
  closed_once (trace (outcome_state (update key suppress sg sws))).
Proof.
  intros Ht Hc. unfold update, reconcile. fold (start sg).
  destruct (visit_all_closed sws (start sg)) as (evs1 & Ht1 & Hc1).
  destruct (visit_all key suppress (start sg) sws) as [st|st] eqn:Hv;
    simpl in *.
  - destruct (report_trace (additionsCount st)
                (deletionsCount (sweep_all (swsMap st) (grp st)))
                (grp2 (sweep_all (swsMap st) (grp st))))
      as (evs & Htr & Hs & Hcl).
    rewrite Htr. apply closed_once_nospawn; [done|].
    rewrite sweep_all_trace.
    apply closed_once_closes.
    + by apply (visit_all_tidy key suppress _ _ _ Hv).
    + unfold doomed. apply NoDup_filter. unfold entries.
      destruct (m (grp st)); [apply NoDup_map_to_list|apply NoDup_nil_2].
    + intros e. unfold doomed. by intros [_ ?]%list_elem_of_filter.
    + rewrite Ht1. by apply closed_once_nospawn.
  - rewrite Ht1. by apply closed_once_nospawn.
Qed.

Lemma stop_closed_once sg :
  tidy key sg -> closed_once (trace sg) -> closed_once (trace (stop sg)).
Proof.
  intros Ht Hc. rewrite stop_eq. simpl. rewrite app_assoc.
  apply closed_once_nospawn; [done|].
  apply closed_once_closes; try done.
  unfold entries. destruct (m sg); [apply NoDup_map_to_list|apply NoDup_nil_2].
Qed.

(** X2. Whatever calls of [update] and [stop] are made on a group, no stop
    channel is closed twice over the whole history (a second [close] would
    panic), and every channel that is closed is the stop channel of a
    worker that was spawned. *)
Theorem no_channel_closed_twice n ops :
  closed_once
    (trace (outcome_state (exec key suppress (newScraperGroup n) ops))).
Proof.
  assert (forall sg, tidy key sg -> closed_once (trace sg) ->
            closed_once (trace (outcome_state (exec key suppress sg ops))))
    as Hgen.
  { induction ops as [|o ops IH]; intros sg Ht Hc; simpl; [done|].
    destruct o as [sws|]; simpl.
    - pose proof (update_closed_once sg sws Ht Hc) as Hu.
      destruct (update key suppress sg sws) as [sg'|sg'] eqn:Hup;
        simpl in *; [|done].
      apply IH; [|done]. by eapply update_tidy.
    - apply IH; [by apply stop_tidy|by apply stop_closed_once]. }
  apply Hgen; [apply tidy_new|].
  split; simpl; [apply NoDup_nil_2|]. by intros ch ?%elem_of_nil.
Qed.

End History.

Section Counters.

Variable key : ScrapeWork -> string.
Variable suppress : bool.

(** *** Removed targets *)

Lemma visit_all_keyset_dom sg sws st :
  visit_all key suppress (start sg) sws = Done st ->
  dom (swsMap st) = keyset key sws.
Proof.
  intros Hv. pose proof (visit_all_swsMap_dom key suppress _ _ _ Hv) as Hdom.
  simpl in Hdom. by rewrite dom_empty_L, (left_id_L ∅ (∪)) in Hdom.
Qed.

(** X3. A scraper that is live under a key that does not occur in the
    desired list is stopped by the reconcile: its stop channel is closed,
    its entry is deleted from the map, and the deletion is counted. *)
Theorem update_stops_unwanted sg sws k sc :
  m_lookup k sg = Some sc ->
  k ∉ keyset key sws ->
  exists r evs,
    reconcile key suppress sg sws = Done r
    /\ trace (result r) = trace sg ++ evs
    /\ m_lookup k (result r) = None
    /\ stopCh sc ∈ closed evs
    /\ 0 < deletions r.
Proof.
  intros Hk Hnot.
  assert (is_Some (m sg)) as Hopen.
  { unfold m_lookup in Hk. destruct (m sg); [eauto|done]. }
  pose proof (update_open_returns key suppress sg sws Hopen) as Hret.
  rewrite update_reconcile in Hret.
  destruct (reconcile key suppress sg sws) as [r|r] eqn:Hr; [|done].
  pose proof Hr as (st & Hv & ->)%reconcile_Done_inv. simpl.
  destruct (visit_all_events key suppress _ _ _ Hv)
    as (evs1 & Ht1 & Hc1 & _ & _).
  simpl in Ht1.
  set (st2 := sweep_all (swsMap st) (grp st)).
  destruct (report_trace (additionsCount st) (deletionsCount st2) (grp2 st2))
    as (evs3 & Ht3 & Hs3 & Hc3).
  assert ((k, sc) ∈ doomed (swsMap st) (entries (grp st))) as Hdoomed.
  { unfold doomed. apply list_elem_of_filter. split.
    - simpl. apply not_elem_of_dom. by rewrite (visit_all_keyset_dom sg sws).
    - apply entries_lookup. by apply (visit_all_kept key suppress _ _ _ _ _ Hv). }
  eexists _, (evs1 ++ closes (doomed (swsMap st) (entries (grp st))) ++ evs3).
  split_and!; [done| | | |]; simpl; fold st2.
  - rewrite Ht3. subst st2. rewrite sweep_all_trace, Ht1.
    by rewrite <- !app_assoc.
  - rewrite report_m_lookup. subst st2. rewrite sweep_all_m_lookup.
    assert (swsMap st !! k = None) as ->; [|done].
    apply not_elem_of_dom. by rewrite (visit_all_keyset_dom sg sws).
  - rewrite !closed_app, Hc1, Hc3, app_nil_r. simpl. rewrite closed_closes.
    apply list_elem_of_fmap. by exists (k, sc).
  - subst st2. rewrite sweep_all_deletions.
    destruct (doomed (swsMap st) (entries (grp st))); simpl; [|lia].
    by apply elem_of_nil in Hdoomed.
Qed.

(** *** What the two counters count *)

Lemma visit_all_additions sws : forall st st',
  visit_all key suppress st sws = Done st' ->
  dom (swsMap st) ⊆ live_keys (grp st) ->
  additionsCount st'
  = additionsCount st + size (keyset key sws ∖ live_keys (grp st)).
Proof.
  induction sws as [|sw rest IH]; intros st st' H Hsub; simpl in H.
  - inversion H; subst.
    replace (keyset key [] ∖ live_keys (grp st')) with (∅ : gset string)
      by (unfold keyset; set_solver).
    rewrite size_empty. lia.
  - rewrite keyset_cons.
    destruct (visit_cases key suppress st sw)
      as [ol Hg|sc Hg Hl|mm Hg Hm Hl|Hg Hm]; [..|done].
    + apply IH in H; [|done]. simpl in H. rewrite H. f_equal. f_equal.
      apply swsMap_get_Some in Hg. set_solver.
    + apply m_lookup_live in Hl.
      apply IH in H; simpl in *.
      * rewrite H. f_equal. f_equal. set_solver.
      * rewrite dom_insert_L. set_solver.
    + assert (live_keys (grp st) = dom mm) as Hlive
        by (unfold live_keys; by rewrite Hm).
      assert (key sw ∉ live_keys (grp st)) as Hnew
        by (rewrite Hlive; by apply not_elem_of_dom).
      apply IH in H.
      * rewrite H. simpl. unfold live_keys at 1. simpl.
        rewrite dom_insert_L, <- Hlive.
        assert (({[key sw]} ∪ keyset key rest) ∖ live_keys (grp st)
                = {[key sw]}
                  ∪ keyset key rest ∖ ({[key sw]} ∪ live_keys (grp st)))
          as ->.
        { apply set_eq. intros k.
          rewrite !elem_of_union, !elem_of_difference, !elem_of_union,
            !elem_of_singleton.
          destruct (decide (k = key sw)) as [->|Hne]; [tauto|tauto]. }
        rewrite (size_union {[key sw]}).
        -- rewrite size_singleton. lia.
        -- intros k Hk1 Hk2. apply elem_of_singleton in Hk1. subst.
           apply elem_of_difference in Hk2 as [_ Hk2]. apply Hk2.
           apply elem_of_union. left. by apply elem_of_singleton.
      * unfold live_keys. simpl. rewrite !dom_insert_L. rewrite Hlive in Hsub.
        set_solver.
Qed.

Lemma doomed_length sm (mm : gmap string scraper) :
  length (doomed sm (map_to_list mm)) = size (dom mm ∖ dom sm).
Proof.
  rewrite <- (length_fmap fst).
  assert (NoDup (doomed sm (map_to_list mm)).*1) as Hnd.
  { eapply sublist_NoDup; [apply (NoDup_fst_map_to_list mm)|].
    apply fmap_sublist. unfold doomed. apply sublist_filter. }
  rewrite <- (size_list_to_set (C := gset string)) by done.
  f_equal. apply set_eq. intros k.
  rewrite elem_of_list_to_set, doomed_map_to_list, elem_of_difference.
  rewrite elem_of_dom, not_elem_of_dom. done.
Qed.

(** X4. The two counters of a reconcile are the sizes of the two set
    differences between the keys of the desired list and the keys that
    were live: one addition per wanted key that was not live, however often
    it occurs in the list, and one deletion per live key that is not
    wanted.  The map ends with one entry per key of the list. *)
Theorem reconcile_counts sg sws r :
  reconcile key suppress sg sws = Done r ->
  additions r = size (keyset key sws ∖ live_keys sg)
  /\ deletions r = size (live_keys sg ∖ keyset key sws)
  /\ m_len (result r) = size (keyset key sws).
Proof.
  intros Hr. pose proof Hr as (st & Hv & ->)%reconcile_Done_inv. simpl.
  assert (dom (swsMap (start sg)) ⊆ live_keys (grp (start sg))) as Hsub
    by (simpl; set_solver).
  pose proof (visit_all_keyset_dom _ _ _ Hv) as Hdom.
  destruct (visit_all_live_keys key suppress _ _ _ Hv Hsub) as [Hlive _].
  simpl in Hlive.
  split_and!.
  - rewrite (visit_all_additions _ _ _ Hv Hsub). done.
  - rewrite sweep_all_deletions. unfold entries.
    destruct (m (grp st)) as [mm|] eqn:Hm.
    + rewrite doomed_length, Hdom.
      unfold live_keys at 1 in Hlive. rewrite Hm in Hlive. rewrite Hlive.
      f_equal. set_solver.
    + unfold live_keys at 1 in Hlive. rewrite Hm in Hlive. simpl.
      replace (live_keys sg ∖ keyset key sws) with (∅ : gset string)
        by set_solver.
      by rewrite size_empty.
  - unfold m_len. rewrite report_m.
    destruct (m (grp st)) as [mm|] eqn:Hm.
    + destruct (sweep_all_open (swsMap st) (grp st) mm Hm)
        as (mm' & -> & Hlk & _).
      rewrite <- size_dom. f_equal. apply set_eq. intros k.
      rewrite elem_of_dom, Hlk. rewrite <- Hdom.
      unfold live_keys at 1 in Hlive. rewrite Hm in Hlive.
      destruct (swsMap st !! k) as [ol|] eqn:Hsm.
      * assert (k ∈ dom (swsMap st)) as Hk by (apply elem_of_dom; eauto).
        split; [done|]. intros _. apply elem_of_dom. rewrite Hlive.
        rewrite Hdom in Hk. set_solver.
      * split; [by intros [? ?]|]. intros Hin%elem_of_dom.
        rewrite Hsm in Hin. by destruct Hin.
    + rewrite sweep_all_nil by done. simpl. rewrite Hm.
      unfold live_keys at 1 in Hlive. rewrite Hm in Hlive.
      replace (keyset key sws) with (∅ : gset string) by set_solver.
      by rewrite size_empty.
Qed.

End Counters.

Section Stable.

Variable key : ScrapeWork -> string.
Variable suppress : bool.

(** *** A reconcile that has nothing to do *)

Lemma is_dup_dup_events sw ol :
  forallb is_dup_event (dup_events suppress sw ol) = true.
Proof. unfold dup_events. by destruct suppress. Qed.

(** The first loop on a list whose keys are all live: nothing is spawned,
    the only effects are those of skipping duplicates. *)
Lemma visit_all_wanted_live sws : forall st,
  keyset key sws ⊆ live_keys (grp st) ->
  exists sm evs,
    visit_all key suppress st sws
    = Done {| swsMap := sm;
              grp := {| name := name (grp st); m := m (grp st);
                        nextCh := nextCh (grp st);
                        trace := trace (grp st) ++ evs |};
              additionsCount := additionsCount st |}
    /\ forallb is_dup_event evs = true
    /\ dom sm = dom (swsMap st) ∪ keyset key sws
    /\ (NoDup (key <$> sws) -> keyset key sws ## dom (swsMap st) ->
        evs = []).
Proof.
  induction sws as [|sw rest IH]; intros st Hsub; simpl.
  - exists (swsMap st), []. split_and!; try done.
    + destruct st as [sm [n mm c t] a]. simpl. by rewrite app_nil_r.
    + unfold keyset. set_solver.
  - rewrite keyset_cons in Hsub |- *.
    destruct (visit_cases key suppress st sw)
      as [ol Hg|sc Hg Hl|mm Hg Hm Hl|Hg Hm].
    + match goal with |- context [visit_all _ _ ?s rest] =>
        destruct (IH s) as (sm & evs & -> & Hd & Hdom & Hnd) end.
      { simpl. unfold live_keys in *. simpl. set_solver. }
      simpl in *. exists sm, (dup_events suppress sw ol ++ evs).
      split_and!.
      * by rewrite <- app_assoc.
      * by rewrite forallb_app, is_dup_dup_events, Hd.
      * rewrite Hdom. apply swsMap_get_Some in Hg. set_solver.
      * intros _ Hdisj. apply swsMap_get_Some in Hg. set_solver.
    + match goal with |- context [visit_all _ _ ?s rest] =>
        destruct (IH s) as (sm & evs & -> & Hd & Hdom & Hnd) end.
      { simpl. set_solver. }
      simpl in *. exists sm, evs. split_and!; try done.
      * rewrite Hdom, dom_insert_L. set_solver.
      * intros [Hk Hrest]%NoDup_cons Hdisj. apply Hnd; [done|].
        rewrite dom_insert_L.
        assert (key sw ∉ keyset key rest)
          by (unfold keyset; by rewrite elem_of_list_to_set).
        set_solver.
    + exfalso. assert (key sw ∈ live_keys (grp st)) as Hin by set_solver.
      unfold live_keys in Hin. rewrite Hm in Hin.
      by apply not_elem_of_dom in Hl.
    + exfalso. assert (key sw ∈ live_keys (grp st)) as Hin by set_solver.
      unfold live_keys in Hin. rewrite Hm in Hin. set_solver.
Qed.

(** The second loop when every live key is wanted. *)
Lemma sweep_all_noop sm sg :
  live_keys sg ⊆ dom sm ->
  sweep_all sm sg = {| grp2 := sg; deletionsCount := 0 |}.
Proof.
  intros Hsub. unfold sweep_all.
  assert (Forall (fun e => is_Some (sm !! e.1)) (entries sg)) as Hall.
  { apply Forall_forall. intros [k sc] Hin%entries_lookup%m_lookup_live.
    simpl. apply elem_of_dom. set_solver. }
  generalize {| grp2 := sg; deletionsCount := 0 |}.
  induction Hall as [|[k sc] l [ol Hk] _ IH]; intros st; simpl; [done|].
  simpl in Hk. by rewrite (sweep_keep _ _ _ _ _ Hk).
Qed.

Lemma reconcile_wanted_live sg sws :
  keyset key sws = live_keys sg ->
  exists evs,
    reconcile key suppress sg sws
    = Done {| result := {| name := name sg; m := m sg; nextCh := nextCh sg;
                           trace := trace sg ++ evs |};
              additions := 0; deletions := 0 |}
    /\ forallb is_dup_event evs = true
    /\ (NoDup (key <$> sws) -> evs = []).
Proof.
  intros Heq. unfold reconcile. fold (start sg).
  destruct (visit_all_wanted_live sws (start sg))
    as (sm & evs & -> & Hd & Hdom & Hnd).
  { simpl. by rewrite Heq. }
  simpl in *. exists evs. split_and!; [|done|].
  - rewrite sweep_all_noop.
    + done.
    + unfold live_keys at 1. simpl. fold (live_keys sg).
      rewrite Hdom, Heq. set_solver.
  - intros H. apply Hnd; [done|]. set_solver.
Qed.

(** X5. A reconcile whose desired list has exactly the keys that are live
    (the usual case of a periodic re-check) changes nothing: the map, the
    allocator and both counters stay as they were, nothing is spawned or
    closed, the changes counter is not touched and no summary is logged.
    Its only effects are those of skipping the duplicates of the list, and
    there are none when the keys of the list are pairwise distinct. *)
Theorem reconcile_same_keys sg sws :
  keyset key sws = live_keys sg ->
  exists evs,
    reconcile key suppress sg sws
    = Done {| result := {| name := name sg; m := m sg; nextCh := nextCh sg;
                           trace := trace sg ++ evs |};
              additions := 0; deletions := 0 |}
    /\ forallb is_dup_event evs = true
    /\ (NoDup (key <$> sws) -> evs = []).
Proof. apply reconcile_wanted_live. Qed.

Lemma update_Done_live_keys sg sws sg' :
  update key suppress sg sws = Done sg' -> live_keys sg' = keyset key sws.
Proof.
  intros Hup. apply set_eq. intros k. rewrite live_keys_lookup.
  destruct (update_m_lookup key suppress sg sws sg' k Hup) as (st & Hv & ->).
  destruct (visit_all_live_keys key suppress _ _ _ Hv) as [Hl _];
    [simpl; set_solver|]. simpl in Hl.
  case_decide as Hin.
  - rewrite <- live_keys_lookup, Hl. set_solver.
  - split; [by intros [? ?]|done].
Qed.

(** X6. [update] is idempotent on a list without repeated keys: calling
    it again with the list it has just applied returns the group exactly
    as it is, effects included. *)
Theorem update_idempotent sg sws sg' :
  NoDup (key <$> sws) ->
  update key suppress sg sws = Done sg' ->
  update key suppress sg' sws = Done sg'.
Proof.
  intros Hnd Hup%update_Done_live_keys.
  destruct (reconcile_wanted_live sg' sws) as (evs & Hr & _ & Hnil);
    [done|].
  rewrite update_reconcile, Hr, (Hnil Hnd). simpl.
  rewrite app_nil_r. by destruct sg'.
Qed.

(** *** Stopping a group *)

Lemma stop_alive_nil sg :
  consistent key sg -> alive (trace (stop sg)) = [].
Proof.
  intros [Hin _]%stop_consistent.
  destruct (alive (trace (stop sg))) as [|sc l] eqn:Ha; [done|].
  specialize (Hin sc). rewrite Ha in Hin.
  specialize (Hin ltac:(left)). by rewrite stop_eq in Hin.
Qed.

End Stable.

Section MoreSamples.

Import Sample.

(** *** Further properties on the sample targets *)

(** Dropping [a] from the sample group closes its channel. *)
Lemma update_stops_unwanted_witness :
  exists r evs,
    reconcile url_key false static_ab [target_b; target_c] = Done r
    /\ trace (result r) = trace static_ab ++ evs
    /\ m_lookup "http://a/metrics" (result r) = None
    /\ 0 ∈ closed evs
    /\ 0 < deletions r.
Proof.
  apply (update_stops_unwanted url_key false static_ab [target_b; target_c]
           "http://a/metrics"
           {| stopCh := 0; Config := target_a;
              ScrapeGroup := "static_configs" |}).
  - vm_compute. reflexivity.
  - unfold keyset. simpl. set_solver.
Defined.

(** From [a; b] to [b; c; c; d]: two additions, one deletion, three
    entries. *)
Lemma reconcile_counts_witness :
  additions (outcome_state
               (reconcile url_key false static_ab
                  [target_b; target_c; target_c; target_d]))
  = size (keyset url_key [target_b; target_c; target_c; target_d]
          ∖ live_keys static_ab)
  /\ deletions (outcome_state
                  (reconcile url_key false static_ab
                     [target_b; target_c; target_c; target_d]))
     = size (live_keys static_ab
             ∖ keyset url_key [target_b; target_c; target_c; target_d])
  /\ m_len (result (outcome_state
                      (reconcile url_key false static_ab
                         [target_b; target_c; target_c; target_d])))
     = size (keyset url_key [target_b; target_c; target_c; target_d]).
Proof.
  apply (reconcile_counts url_key false static_ab
           [target_b; target_c; target_c; target_d]).
  vm_compute. reflexivity.
Defined.

(** The sample group re-checked with [b; a; b]: only the duplicate is
    handled. *)
Lemma reconcile_same_keys_witness :
  exists evs,
    reconcile url_key false static_ab [target_b; target_a; target_b]
    = Done {| result := {| name := name static_ab; m := m static_ab;
                           nextCh := nextCh static_ab;
                           trace := trace static_ab ++ evs |};
              additions := 0; deletions := 0 |}
    /\ forallb is_dup_event evs = true
    /\ (NoDup (url_key <$> [target_b; target_a; target_b]) -> evs = []).
Proof.
  apply (reconcile_same_keys url_key false static_ab
           [target_b; target_a; target_b]).
  vm_compute. reflexivity.
Defined.

Lemma update_idempotent_witness :
  update url_key false static_ab [target_a; target_b] = Done static_ab.
Proof.
  apply (update_idempotent url_key false static [target_a; target_b]).
  - simpl. repeat constructor; set_solver.
  - vm_compute. reflexivity.
Defined.

(** The worker of [b] in the sample group. *)
Lemma live_map_is_alive_witness :
  {| stopCh := 1; Config := target_b; ScrapeGroup := "static_configs" |}
    ∈ alive (trace static_ab)
  <-> m_lookup "http://b/metrics" static_ab
      = Some {| stopCh := 1; Config := target_b;
                ScrapeGroup := "static_configs" |}.
Proof.
  apply (live_map_is_alive url_key false "static_configs"
           [OpUpdate [target_a; target_b]] static_ab
           {| stopCh := 1; Config := target_b;
              ScrapeGroup := "static_configs" |}).
  vm_compute. reflexivity.
Defined.

(** [a; a; b] with the flag set: the second [a] is registered. *)
Lemma duplicates_registered_witness :
  dropped (trace (outcome_state
                    (update url_key true static
                       [target_a; target_a; target_b])))
  = dropped (trace static)
    ++ (OriginalLabels
          <$> later_occurrences url_key ∅ [target_a; target_a; target_b]).
Proof.
  apply (duplicates_registered url_key true static
           [target_a; target_a; target_b]).
  - repeat constructor; discriminate.
  - vm_compute. reflexivity.
Defined.

End MoreSamples.

Section Effects.

Variable key : ScrapeWork -> string.
Variable suppress : bool.

(** *** The effects of one reconcile, in order *)

Lemma visit_all_first_loop sws : forall st st',
  visit_all key suppress st sws = Done st' ->
  exists evs,
    trace (grp st') = trace (grp st) ++ evs
    /\ forallb is_first_loop_event evs = true.
Proof.
  induction sws as [|sw rest IH]; intros st st' H; simpl in H.
  - inversion H; subst. exists []. by rewrite app_nil_r.
  - destruct (visit_cases key suppress st sw)
      as [ol Hg|sc Hg Hl|mm Hg Hm Hl|Hg Hm]; [..|done];
      apply IH in H as (evs & Ht & Hf); simpl in *.
    + exists (dup_events suppress sw ol ++ evs). split.
      * by rewrite Ht, app_assoc.
      * rewrite forallb_app, Hf. unfold dup_events. by destruct suppress.
    + by exists evs.
    + exists ([EvGo (fresh st sw); EvRegister sw] ++ evs). split.
      * by rewrite Ht, <- app_assoc.
      * done.
Qed.

Lemma closes_all_close l : forallb is_close_event (closes l) = true.
Proof. induction l as [|e l IH]; [done|]. done. Qed.

Lemma report_summary a d sg :
  trace (report a d sg) = trace sg ++ summary_events a d (m_len sg).
Proof.
  unfold report, summary_events. destruct (_ || _); simpl.
  - by rewrite <- app_assoc.
  - by rewrite app_nil_r.
Qed.

(** X24. The effects of one returning reconcile come in three blocks, in
    this order: the effects of the first loop (spawns with their
    registrations, and the handling of duplicates), then the closes of the
    second loop, then the summary.  The closes are exactly those of the
    stop channels of the entries that were live under a key that is not
    wanted, so every new scraper is started before any old one is stopped.
    The summary is there exactly when something was added or removed: the
    changes counter moves by the number of additions plus deletions and
    one line is logged with the number of entries left. *)
Theorem update_effects_in_order sg sws r :
  reconcile key suppress sg sws = Done r ->
  exists evs1 evs2,
    trace (result r)
    = trace sg ++ evs1 ++ evs2
      ++ summary_events (additions r) (deletions r) (m_len (result r))
    /\ forallb is_first_loop_event evs1 = true
    /\ forallb is_close_event evs2 = true
    /\ forall ch, ch ∈ closed evs2 <->
         exists k sc, m_lookup k sg = Some sc /\ stopCh sc = ch
                      /\ k ∉ keyset key sws.
Proof.
  intros Hr. pose proof Hr as (st & Hv & ->)%reconcile_Done_inv. simpl.
  destruct (visit_all_first_loop _ _ _ Hv) as (evs1 & Ht1 & Hf1).
  simpl in Ht1.
  assert (dom (swsMap st) = keyset key sws) as Hdom.
  { pose proof (visit_all_swsMap_dom key suppress _ _ _ Hv) as Hdom.
    simpl in Hdom. by rewrite dom_empty_L, (left_id_L ∅ (∪)) in Hdom. }
  exists evs1, (closes (doomed (swsMap st) (entries (grp st)))).
  split_and!.
  - rewrite report_summary, sweep_all_trace, Ht1.
    unfold m_len. rewrite report_m. by rewrite <- !app_assoc.
  - done.
  - apply closes_all_close.
  - intros ch. rewrite closed_closes. split.
    + intros ([k sc] & -> & Hin)%list_elem_of_fmap.
      unfold doomed in Hin. apply list_elem_of_filter in Hin as [Hsm Hin].
      simpl in *. apply entries_lookup in Hin.
      assert (k ∉ keyset key sws) as Hk
        by (rewrite <- Hdom; by apply not_elem_of_dom).
      exists k, sc. split_and!; [|done|done].
      destruct (visit_all_origin key suppress _ _ _ _ _ Hv
                  ltac:(simpl; set_solver) Hin) as [H|[_ H]]; [done|].
      exfalso. apply Hk. unfold first_with_key in H.
      apply find_some in H as [Hm Hb]. apply bool_decide_eq_true in Hb.
      subst k. unfold keyset. apply elem_of_list_to_set, list_elem_of_fmap.
      exists (Config sc). split; [done|]. by apply list_elem_of_In.
    + intros (k & sc & Hk & <- & Hnot).
      apply list_elem_of_fmap. exists (k, sc). split; [done|].
      unfold doomed. apply list_elem_of_filter. split.
      * simpl. apply not_elem_of_dom. by rewrite Hdom.
      * apply entries_lookup.
        by apply (visit_all_kept key suppress _ _ _ _ _ Hv).
Qed.

(** *** The empty list *)

Lemma doomed_empty (l : list (string * scraper)) : doomed ∅ l = l.
Proof.
  unfold doomed. induction l as [|e l IH]; [done|].
  rewrite filter_cons, decide_True by apply lookup_empty. by rewrite IH.
Qed.

(** X7. Reconciling an open group with the empty list stops every scraper:
    the stop channel of each entry is closed, once, all are counted as
    deletions, nothing is spawned, and the changes counter moves by their
    number.  Unlike [stop], it leaves the map empty rather than nil, so
    the group stays usable. *)
Theorem update_empty_list sg mm :
  m sg = Some mm ->
  exists r evs,
    reconcile key suppress sg [] = Done r
    /\ trace (result r) = trace sg ++ evs
    /\ m (result r) = Some ∅
    /\ additions r = 0
    /\ deletions r = size mm
    /\ spawned evs = []
    /\ closed evs ≡ₚ (fun e => stopCh e.2) <$> map_to_list mm
    /\ (mm <> ∅ -> EvChangesAdd (size mm) ∈ evs).
Proof.
  intros Hm. unfold reconcile. simpl.
  destruct (sweep_all_open ∅ sg mm Hm) as (mm' & Hm' & Hlk & Hn & Hc & Ht & Hd).
  assert (mm' = ∅) as ->.
  { apply map_eq. intros k. by rewrite Hlk, !lookup_empty. }
  rewrite doomed_empty in Ht, Hd. rewrite length_map_to_list in Hd.
  eexists _, (closes (map_to_list mm) ++ summary_events 0 (size mm) 0).
  split_and!; [done|..]; simpl.
  - rewrite report_summary, Ht, Hd. unfold m_len. rewrite Hm'.
    by rewrite map_size_empty, <- app_assoc.
  - by rewrite report_m.
  - done.
  - done.
  - rewrite spawned_app, spawned_closes. unfold summary_events.
    by destruct (_ || _).
  - rewrite closed_app, closed_closes. unfold summary_events.
    destruct (_ || _); simpl; by rewrite app_nil_r.
  - intros Hne%map_size_non_empty_iff. apply elem_of_app. right.
    unfold summary_events.
    rewrite (bool_decide_eq_true_2 (0 < size mm)) by lia. simpl.
    by left.
Qed.

(** *** Stopping a group *)

(** X8. [stop] on a group reached from a new one tells every worker to
    stop: afterwards no worker that was spawned is left with an open stop
    channel, so [sg.wg.Wait()], its last statement, waits only for workers
    that were signalled.  It spawns nothing, the channels it closes are
    those of the entries of the map, and it leaves the map nil. *)
Theorem stop_leaves_no_worker n ops sg :
  exec key suppress (newScraperGroup n) ops = Done sg ->
  alive (trace (stop sg)) = []
  /\ m (stop sg) = None
  /\ spawned (trace (stop sg)) = spawned (trace sg)
  /\ closed (trace (stop sg))
     ≡ₚ closed (trace sg) ++ ((fun e => stopCh e.2) <$> entries sg)
  /\ last (trace (stop sg)) = Some EvWgWait.
Proof.
  intros H. split_and!.
  - apply (stop_alive_nil key).
    eapply exec_Done_consistent; [done|apply consistent_new].
  - by rewrite stop_eq.
  - rewrite stop_eq. simpl.
    by rewrite !spawned_app, spawned_closes, !app_nil_r.
  - rewrite stop_eq. simpl.
    by rewrite !closed_app, closed_closes, !app_nil_r.
  - rewrite stop_eq. simpl. by rewrite app_assoc, last_snoc.
Qed.

End Effects.

Section EffectsSamples.

Import Sample.

(** The sample group reconciled with the empty list. *)
Lemma update_empty_list_witness :
  exists r evs,
    reconcile url_key false static_ab [] = Done r
    /\ trace (result r) = trace static_ab ++ evs
    /\ m (result r) = Some ∅
    /\ additions r = 0
    /\ deletions r = size (default ∅ (m static_ab))
    /\ spawned evs = []
    /\ closed evs
       ≡ₚ (fun e => stopCh e.2) <$> map_to_list (default ∅ (m static_ab))
    /\ (default ∅ (m static_ab) <> ∅ ->
        EvChangesAdd (size (default ∅ (m static_ab))) ∈ evs).
Proof.
  apply (update_empty_list url_key false static_ab
           (default ∅ (m static_ab))).
  vm_compute. reflexivity.
Defined.

Lemma stop_leaves_no_worker_witness :
  alive (trace (stop static_ab)) = []
  /\ m (stop static_ab) = None
  /\ spawned (trace (stop static_ab)) = spawned (trace static_ab)
  /\ closed (trace (stop static_ab))
     ≡ₚ closed (trace static_ab)
        ++ ((fun e => stopCh e.2) <$> entries static_ab)
  /\ last (trace (stop static_ab)) = Some EvWgWait.
Proof.
  apply (stop_leaves_no_worker url_key false "static_configs"
           [OpUpdate [target_a; target_b]]).
  vm_compute. reflexivity.
Defined.

(** From [a; b] to [b; c; c; d] in the sample group. *)
Lemma update_effects_in_order_witness :
  exists evs1 evs2,
    trace (result (outcome_state
                     (reconcile url_key false static_ab
                        [target_b; target_c; target_c; target_d])))
    = trace static_ab ++ evs1 ++ evs2
      ++ summary_events
           (additions (outcome_state
                         (reconcile url_key false static_ab
                            [target_b; target_c; target_c; target_d])))
           (deletions (outcome_state
                         (reconcile url_key false static_ab
                            [target_b; target_c; target_c; target_d])))
           (m_len (result (outcome_state
                             (reconcile url_key false static_ab
                                [target_b; target_c; target_c; target_d]))))
    /\ forallb is_first_loop_event evs1 = true
    /\ forallb is_close_event evs2 = true
    /\ forall ch, ch ∈ closed evs2 <->
         exists k sc, m_lookup k static_ab = Some sc /\ stopCh sc = ch
                      /\ k ∉ keyset url_key
                               [target_b; target_c; target_c; target_d].
Proof.
  apply (update_effects_in_order url_key false static_ab
           [target_b; target_c; target_c; target_d]).
  vm_compute. reflexivity.
Defined.

End EffectsSamples.

End GroupFacts.

(** ** The config channels *)

Module ChanFacts.

Import Chan.

Section Facts.

Context {Config : Type}.

Lemma send_full (cfg old : Config) : send cfg (Some old) = None.
Proof. done. Qed.

Lemma send_empty (cfg : Config) : send cfg None = Some (Some cfg).
Proof. done. Qed.

(** C5, as the code has it.  [scfg.cfgCh <- cfg] is a blocking send on a
    buffer of one: a fan-out completes without waiting exactly when every
    buffer is empty, and then every buffer holds the new config; otherwise
    the runner is suspended at the first full buffer, the older config
    queued there stays in place, and the buffers after it are untouched. *)
Theorem updateConfig_blocks_when_full (cfg : Config) (chs : list cfgChan) :
  blocks_at_first_full cfg chs (updateConfig cfg chs).
Proof.
  induction chs as [|ch chs IH]; simpl.
  - done.
  - destruct ch as [old|]; simpl.
    + split_and!; [by exists old|done|done].
    + destruct (updateConfig cfg chs) as [chs'|i chs']; simpl in *.
      * destruct IH as [Hall ->]. split; [|done]. by constructor.
      * destruct IH as ((old & H1 & H2) & Hall & ->).
        split_and!; [by exists old| by constructor | done].
Qed.

End Facts.

(** C5 fails on the code: with an unread config in the second buffer the
    fan-out of a newer one does not complete. *)
Lemma latest_wins_counterexample : ~ latest_wins 2 [None; Some 1].
Proof. intros (chs' & H & _). discriminate H. Qed.

Example updateConfig_sample :
  updateConfig 2 [None; Some 1; None] = Blocked 1 [Some 2; Some 1; None].
Proof. reflexivity. Qed.

End ChanFacts.

(** ** The runner *)

Module RunnerFacts.

Import Runner.

Section Reload.

Context {Config : Type}.
Variable key : ScrapeWork -> string.
Variable fl : flags.

(** C7. A reload (SIGHUP, or a tick when the check interval is positive)
    whose load succeeds with bytes equal to the ones loaded before leaves
    the whole process as it was, up to the log: the runner stays in the
    select with the previous config and bytes, nothing is sent to any
    scrape config, the reload counter and every group (its live map and its
    change counter) are unchanged. *)
Theorem identical_reload_changes_nothing (s : @system Config) cfg data cfgNew dataNew
    (sighup : bool) :
  panicked s = false ->
  rpc s = RSelect cfg data ->
  bytes_Equal data dataNew = true ->
  (sighup = false -> (0 < configCheckInterval fl)%Z) ->
  step key fl s (reload_event sighup (LoadOk cfgNew dataNew))
  = Some {| PendingScrapeConfigs := PendingScrapeConfigs s;
            rpc := RSelect cfg data;
            scfgs := scfgs s;
            scsStopClosed := scsStopClosed s;
            globalStopClosed := globalStopClosed s;
            configReloads := configReloads s;
            rlog := rlog s ++ (if sighup then [LogSighup; LogNothingChanged]
                               else []);
            panicked := false |}.
Proof.
  intros Hp Hpc Heq Htick. unfold step, reload_event. rewrite Hp.
  destruct sighup; simpl; unfold runner_step; rewrite Hpc.
  - unfold reload. rewrite Heq. unfold logr. simpl.
    by rewrite Hpc, Hp, <- app_assoc.
  - rewrite decide_True by auto. unfold reload. rewrite Heq.
    rewrite app_nil_r. destruct s; simpl in *. by subst.
Qed.

(** A reload whose bytes differ is applied: the reload counter moves and
    the fan-out starts. *)
Lemma changed_reload_fans_out (s : @system Config) cfg data cfgNew dataNew :
  panicked s = false ->
  rpc s = RSelect cfg data ->
  bytes_Equal data dataNew = false ->
  exists s',
    step key fl s (ARunnerSighup (LoadOk cfgNew dataNew)) = Some s'
    /\ configReloads s' = S (configReloads s)
    /\ scfgs s' = scfgs s
    /\ rpc s' = if decide (0 < length (scfgs s))
                then RFanout cfgNew dataNew 0 else RSelect cfgNew dataNew.
Proof.
  intros Hp Hpc Hne. unfold step. rewrite Hp. simpl. unfold runner_step.
  rewrite Hpc. eexists. split; [done|]. unfold reload. rewrite Hne.
  unfold fanout_from. simpl. by case_decide.
Qed.

(** C10. Without [-promscrape.config], [CheckConfig] returns an error,
    while the goroutine started by [Init] returns from [runScraper] at once
    without loading, logging or creating anything, so that [Stop] returns
    whether it is called after or before that goroutine ran. *)
Theorem empty_path_check_and_start (load : string -> @loadResult Config)
    (r : @loadResult Config) :
  promscrapeConfigFile fl = "" ->
  CheckConfig fl load = Some "missing -promscrape.config option"
  /\ run key fl init [ARunnerStart r] = Some (set_rpc RReturned init)
  /\ (exists s, run key fl init [ARunnerStart r; AStop] = Some s
                /\ Stop_returns s /\ scfgs s = [] /\ rlog s = []
                /\ PendingScrapeConfigs s = 0%Z)
  /\ (exists s, run key fl init [AStop; ARunnerStart r] = Some s
                /\ Stop_returns s /\ scfgs s = [] /\ rlog s = []
                /\ PendingScrapeConfigs s = 0%Z).
Proof.
  intros Hempty. split_and!.
  - unfold CheckConfig. by rewrite decide_True.
  - simpl. unfold step, runner_step. simpl. by rewrite decide_True.
  - eexists. split.
    + simpl. unfold step, runner_step. simpl. rewrite decide_True by done.
      simpl. done.
    + by split_and!.
  - eexists. split.
    + simpl. unfold step, runner_step. simpl. rewrite decide_True by done.
      simpl. done.
    + by split_and!.
Qed.

(** With a config file, [CheckConfig] is the error of [loadConfig]. *)
Lemma CheckConfig_with_path (load : string -> @loadResult Config) :
  promscrapeConfigFile fl <> "" ->
  CheckConfig fl load
  = match load (promscrapeConfigFile fl) with
    | LoadOk _ _ => None
    | LoadErr err => Some err
    end.
Proof. intros H. unfold CheckConfig. by rewrite decide_False. Qed.

End Reload.

(** C7 on the sample process: a SIGHUP with the same bytes. *)
Lemma identical_reload_changes_nothing_witness :
  step Sample.url_key RunnerSample.fl RunnerSample.waiting_state
    (ARunnerSighup (LoadOk 2 RunnerSample.raw))
  = Some {| PendingScrapeConfigs := 10;
            rpc := RSelect 1 RunnerSample.raw;
            scfgs := scfgs RunnerSample.waiting_state;
            scsStopClosed := false;
            globalStopClosed := false;
            configReloads := 0;
            rlog := [LogReading; LogSighup; LogNothingChanged];
            panicked := false |}.
Proof.
  apply (identical_reload_changes_nothing Sample.url_key RunnerSample.fl
           RunnerSample.waiting_state 1 RunnerSample.raw 2 RunnerSample.raw
           true).
  - reflexivity.
  - reflexivity.
  - reflexivity.
  - discriminate.
Defined.

(** C10 on the sample flags without a config file. *)
Lemma empty_path_check_and_start_witness :
  CheckConfig RunnerSample.fl_nofile (fun _ => LoadOk 1 RunnerSample.raw)
  = Some "missing -promscrape.config option"
  /\ run Sample.url_key RunnerSample.fl_nofile init
       [ARunnerStart (LoadOk 1 RunnerSample.raw)]
     = Some (set_rpc RReturned init)
  /\ (exists s, run Sample.url_key RunnerSample.fl_nofile init
                  [ARunnerStart (LoadOk 1 RunnerSample.raw); AStop] = Some s
                /\ Stop_returns s /\ scfgs s = [] /\ rlog s = []
                /\ PendingScrapeConfigs s = 0%Z)
  /\ (exists s, run Sample.url_key RunnerSample.fl_nofile init
                  [AStop; ARunnerStart (LoadOk 1 RunnerSample.raw)] = Some s
                /\ Stop_returns s /\ scfgs s = [] /\ rlog s = []
                /\ PendingScrapeConfigs s = 0%Z).
Proof.
  apply (empty_path_check_and_start Sample.url_key RunnerSample.fl_nofile).
  reflexivity.
Defined.

Section Pending.

Context {Config : Type}.
Variable key : ScrapeWork -> string.
Variable fl : flags.

(** *** The pending counter *)

Lemma wrap32_small z :
  (- 2 ^ 31 <= z < 2 ^ 31)%Z -> wrap32 z = z.
Proof.
  intros H. unfold wrap32. rewrite Z.mod_small; lia.
Qed.

Lemma unreported_app (l1 l2 : list (@scrapeConfig Config)) :
  unreported (l1 ++ l2) = unreported l1 + unreported l2.
Proof. unfold unreported. by rewrite filter_app, length_app. Qed.

Lemma unreported_le (l : list (@scrapeConfig Config)) : unreported l <= length l.
Proof. apply length_filter. Qed.

Lemma unreported_insert (l : list (@scrapeConfig Config)) i c c' :
  l !! i = Some c ->
  unreported (<[i := c']> l) + (if reported c then 0 else 1)
  = unreported l + (if reported c' then 0 else 1).
Proof.
  revert i. induction l as [|x l IH]; intros i Hi; [done|].
  destruct i as [|i]; simpl in *.
  - inversion Hi; subst. unfold unreported. rewrite !filter_cons.
    destruct (reported c), (reported c'); simpl; lia.
  - specialize (IH i Hi). unfold unreported in *. rewrite !filter_cons.
    destruct (decide (reported x = false)); simpl; lia.
Qed.

Lemma unreported_zero (l : list (@scrapeConfig Config)) :
  unreported l = 0 <-> Forall (fun c => reported c = true) l.
Proof.
  unfold unreported. induction l as [|x l IH]; [done|].
  rewrite filter_cons, Forall_cons.
  destruct (reported x) eqn:Hx; simpl.
  - rewrite IH. tauto.
  - split; [lia|]. intros [? _]. done.
Qed.

Lemma names_insert (l : list (@scrapeConfig Config)) i c c' :
  l !! i = Some c -> scName c' = scName c ->
  scName <$> <[i := c']> l = scName <$> l.
Proof.
  intros Hi Hn. rewrite list_fmap_insert, Hn.
  apply list_insert_id. by rewrite list_lookup_fmap, Hi.
Qed.

Lemma put_scfgs i o (s : @system Config) :
  scfgs (put i o s) = <[i := outcome_state o]> (scfgs s).
Proof. by destruct o. Qed.

Lemma put_rpc i o (s : @system Config) : rpc (put i o s) = rpc s.
Proof. by destruct o. Qed.

Lemma put_pending i o (s : @system Config) :
  PendingScrapeConfigs (put i o s) = PendingScrapeConfigs s.
Proof. by destruct o. Qed.

Lemma updateScrapeWork_state (c : @scrapeConfig Config) sws p ch :
  scName (outcome_state (updateScrapeWork key fl c sws p ch)) = scName c
  /\ pc (outcome_state (updateScrapeWork key fl c sws p ch)) = p.
Proof. unfold updateScrapeWork. by destruct (Group.update _ _ _ _). Qed.

(** Every step of a scrape config rewrites one record of [scs.scfgs] and
    leaves the runner where it is. *)
Lemma scfg_step_moves (s s' : @system Config) a :
  scfg_step key fl s a = Some s' ->
  exists i c c',
    scfgs s !! i = Some c
    /\ scfgs s' = <[i := c']> (scfgs s)
    /\ rpc s' = rpc s
    /\ scfg_moves c c' a (PendingScrapeConfigs s) (PendingScrapeConfigs s').
Proof.
  unfold scfg_moves, untouched.
  destruct a as [| | | | | | | |i|i sws|i|i sws|i sws|i]; simpl; try done;
    destruct (scfgs s !! i) as [c|] eqn:Hi; simpl; try done;
    destruct (pc c) eqn:Hpc; try done.
  - destruct (cfgCh c) as [cfg|] eqn:Hch; simpl; [|done].
    intros [= <-]. exists i, c. eexists. split_and!; try done.
    + intros [_ ?]. congruence.
    + left. unfold reported. simpl. by rewrite Hpc.
  - intros [= <-]. exists i, c. eexists. split; [done|].
    rewrite put_scfgs, put_rpc, put_pending.
    destruct (updateScrapeWork_state c sws (ReportReady cfg) (cfgCh c))
      as [Hn Hp].
    split_and!; try done.
    + intros [? _]. congruence.
    + left. unfold reported. by rewrite Hp, Hpc.
  - intros [= <-]. exists i, c. eexists. split_and!; try done.
    + intros [? _]. congruence.
    + right. unfold reported. simpl. by rewrite Hpc.
  - destruct (cfgCh c) as [cfg'|] eqn:Hch; simpl; [|done].
    intros [= <-]. exists i, c. eexists. split; [done|].
    rewrite put_scfgs, put_rpc, put_pending.
    destruct (updateScrapeWork_state c sws (Selecting cfg') None)
      as [Hn Hp].
    split_and!; try done.
    + intros [? _]. congruence.
    + left. unfold reported. by rewrite Hp, Hpc.
  - case_decide; [|done].
    intros [= <-]. exists i, c. eexists. split; [done|].
    rewrite put_scfgs, put_rpc, put_pending.
    destruct (updateScrapeWork_state c sws (Selecting cfg) (cfgCh c))
      as [Hn Hp].
    split_and!; try done.
    + intros [? _]. congruence.
    + left. unfold reported. by rewrite Hp, Hpc.
  - destruct (scsStopClosed s); [|done].
    intros [= <-]. exists i, c. eexists. split_and!; try done.
    + intros [? _]. congruence.
    + left. unfold reported. simpl. by rewrite Hpc.
Qed.

Lemma categories_length : length (categories fl) = 10.
Proof. done. Qed.

Lemma inv_init : inv fl (@init Config).
Proof. unfold inv. simpl. split_and!; [done|lia|done]. Qed.

Lemma inv_bound (s : @system Config) :
  inv fl s ->
  (0 <= PendingScrapeConfigs s <= 10)%Z.
Proof.
  intros (Hp & Hl & _). rewrite Hp.
  pose proof (unreported_le (scfgs s)). lia.
Qed.

Lemma fanout_from_inv cfg data i (s : @system Config) :
  PendingScrapeConfigs s = Z.of_nat (unreported (scfgs s)) ->
  length (scfgs s) <= 10 ->
  scName <$> scfgs s = (categories fl).*1 ->
  inv fl (fanout_from cfg data i s)
  /\ adds_done (fanout_from cfg data i s) = true
  /\ PendingScrapeConfigs (fanout_from cfg data i s) = PendingScrapeConfigs s.
Proof.
  intros Hp Hl Hn. unfold fanout_from. by case_decide; split_and!.
Qed.

(** The invariant is kept by every step, which moves the counter by
    [pending_delta]; a decrement only happens after all the adds, which
    are never followed by another add. *)
Lemma step_inv (s s' : @system Config) a :
  inv fl s ->
  step key fl s a = Some s' ->
  inv fl s'
  /\ PendingScrapeConfigs s'
     = (PendingScrapeConfigs s + pending_delta a)%Z
  /\ (adds_done s = true -> adds_done s' = true /\ a <> ARunnerAdd)
  /\ (pending_delta a = (-1)%Z -> adds_done s = true).
Proof.
  intros Hinv Hstep. pose proof (inv_bound s Hinv) as Hb.
  destruct Hinv as (Hp & Hl & Hm).
  unfold step in Hstep. destruct (panicked s); [done|].
  assert (forall s0 : @system Config,
            scfg_step key fl s a = Some s0 -> s0 = s' ->
            inv fl s'
            /\ PendingScrapeConfigs s'
               = (PendingScrapeConfigs s + pending_delta a)%Z
            /\ (adds_done s = true -> adds_done s' = true /\ a <> ARunnerAdd)
            /\ (pending_delta a = (-1)%Z -> adds_done s = true)) as Hsc.
  { intros s0 Hs0 ->.
    destruct (scfg_step_moves _ _ _ Hs0)
      as (i & c & c' & Hi & Hs' & Hr & Hn & Hu & Hmv).
    assert (adds_done s = true) as Hdone.
    { unfold adds_done. revert Hm. destruct (rpc s) eqn:Hpc; intros Hm;
        simpl in Hm; try done.
      - by rewrite Hm in Hi.
      - destruct Hm as (_ & _ & Hall).
        exfalso. apply Hu. eapply Forall_lookup_1 in Hall; eauto. }
    assert (a <> ARunnerAdd) as Hna by (by destruct a).
    assert (adds_done s' = true) as Hdone'
      by (unfold adds_done in *; by rewrite Hr).
    pose proof (unreported_insert (scfgs s) i c c' Hi) as Hcount.
    assert (scName <$> scfgs s' = scName <$> scfgs s) as Hnames
      by (rewrite Hs'; by eapply names_insert).
    assert (length (scfgs s') = length (scfgs s)) as Hlen
      by (by rewrite Hs', length_insert).
    assert (match rpc s' with
            | RStart | RFatal => scfgs s' = []
            | RAdding _ _ todo =>
                (scName <$> scfgs s') ++ todo.*1 = (categories fl).*1
                /\ todo <> [] /\ Forall untouched (scfgs s')
            | RReturned =>
                scfgs s' = [] \/ scName <$> scfgs s' = (categories fl).*1
            | _ => scName <$> scfgs s' = (categories fl).*1
            end) as Hm'.
    { rewrite Hr, Hnames. unfold adds_done in Hdone. revert Hm Hdone.
      destruct (rpc s); intros Hm Hdone; simpl in Hm; try done.
      - destruct Hm as [Hm|Hm]; [by rewrite Hm in Hi|by right].
      - by rewrite Hm in Hi. }
    destruct Hmv as [(Hrep & Hpe & Hd)|(_ & Hr1 & Hr2 & Hpe & Hd)].
    - rewrite Hrep in Hcount. split_and!; try done.
      + split_and!; [|lia|done].
        rewrite Hpe, Hp, Hs'. f_equal.
        destruct (reported c), (reported c'); lia.
      + rewrite Hpe, Hd. lia.
    - rewrite Hr1, Hr2 in Hcount.
      assert (PendingScrapeConfigs s'
              = (PendingScrapeConfigs s + -1)%Z) as Hdec.
      { rewrite Hpe. unfold addInt32. apply wrap32_small. lia. }
      split_and!; try done.
      + split_and!; [|lia|done].
        rewrite Hdec, Hp, Hs'. lia.
      + by rewrite Hdec, Hd. }
  destruct a; try (by eapply Hsc); clear Hsc; simpl in Hstep.
  - (* ARunnerStart *)
    unfold runner_step in Hstep. revert Hm Hstep.
    destruct (rpc s) eqn:Hpc; intros Hm Hstep; simpl in Hm; try done.
    case_decide; [|destruct r]; inversion Hstep; subst; clear Hstep;
      unfold inv, adds_done; rewrite ?Hpc; simpl;
      split_and!; try done; try lia; try (by left); try (by rewrite Hm).
  - (* ARunnerAdd *)
    unfold runner_step in Hstep. revert Hm Hstep.
    destruct (rpc s) eqn:Hpc; intros Hm Hstep; simpl in Hm; try done.
    destruct todo as [|[nm iv] todo]; [done|].
    destruct Hm as (Hnames & _ & Hall).
    assert (length (scfgs s) + S (length todo) = 10) as Hlen.
    { apply (f_equal length) in Hnames.
      rewrite length_app, !length_fmap in Hnames. simpl in Hnames. lia. }
    set (s1 := add nm iv s) in *.
    assert (PendingScrapeConfigs s1 = (PendingScrapeConfigs s + 1)%Z) as Hp1.
    { subst s1. unfold add, add_pending, addInt32. simpl.
      apply wrap32_small. lia. }
    assert (PendingScrapeConfigs s1 = Z.of_nat (unreported (scfgs s1)))
      as Hc1.
    { rewrite Hp1, Hp. subst s1. unfold add. simpl.
      rewrite unreported_app. unfold unreported at 3. simpl. lia. }
    assert (length (scfgs s1) <= 10) as Hl1.
    { subst s1. unfold add. simpl. rewrite length_app. simpl. lia. }
    assert ((scName <$> scfgs s1) ++ todo.*1 = (categories fl).*1) as Hn1.
    { subst s1. unfold add. simpl. rewrite fmap_app, <- app_assoc. done. }
    assert (Forall untouched (scfgs s1)) as Hall1.
    { subst s1. unfold add. simpl. apply Forall_app. split; [done|].
      by constructor. }
    unfold adds_done at 1 3. rewrite Hpc. simpl.
    destruct todo as [|e todo]; inversion Hstep; subst; clear Hstep.
    + rewrite app_nil_r in Hn1.
      destruct (fanout_from_inv cfg data 0 s1 Hc1 Hl1 Hn1)
        as (Hi' & Hd' & Hp').
      split_and!; try done. by rewrite Hp', Hp1.
    + by split_and!.
  - (* ARunnerSend *)
    unfold runner_step in Hstep. revert Hm Hstep.
    destruct (rpc s) eqn:Hpc; intros Hm Hstep; simpl in Hm; try done.
    destruct (scfgs s !! i) as [c|] eqn:Hi; simpl in Hstep; [|done].
    destruct (Chan.send cfg (cfgCh c)) as [ch|] eqn:Hsend; simpl in Hstep;
      [|done].
    inversion Hstep; subst; clear Hstep.
    match goal with |- context [fanout_from _ _ _ ?x] => set (s1 := x) end.
    pose proof (unreported_insert (scfgs s) i c (with_pc (pc c) ch c) Hi)
      as Hcount.
    assert (reported (with_pc (pc c) ch c) = reported c) as Hrep by done.
    rewrite Hrep in Hcount.
    destruct (fanout_from_inv cfg data (S i) s1) as (Hi' & Hd' & Hp').
    { subst s1. simpl. rewrite Hp. f_equal.
      destruct (reported c); lia. }
    { subst s1. simpl. by rewrite length_insert. }
    { subst s1. simpl. rewrite <- Hm. by eapply names_insert. }
    split_and!; try done. rewrite Hp'. subst s1. simpl. lia.
  - (* ARunnerSighup *)
    unfold runner_step in Hstep. revert Hm Hstep.
    destruct (rpc s) eqn:Hpc; intros Hm Hstep; simpl in Hm; try done.
    inversion Hstep; subst; clear Hstep. unfold reload.
    destruct r as [cfgNew dataNew|err]; [destruct (bytes_Equal data dataNew)|].
    + unfold inv, adds_done; rewrite ?Hpc; simpl; rewrite ?Hpc.
      split_and!; try done; try lia.
    + match goal with |- context [fanout_from _ _ _ ?x] =>
        set (s1 := x) end.
      destruct (fanout_from_inv cfgNew dataNew 0 s1) as (Hi' & Hd' & Hp');
        try done.
      split_and!; try done. rewrite Hp'. subst s1. simpl. lia.
    + unfold inv, adds_done; rewrite ?Hpc; simpl; rewrite ?Hpc.
      split_and!; try done; try lia.
  - (* ARunnerTick *)
    unfold runner_step in Hstep. revert Hm Hstep.
    destruct (rpc s) eqn:Hpc; intros Hm Hstep; simpl in Hm; try done.
    case_decide; [|done].
    inversion Hstep; subst; clear Hstep. unfold reload.
    destruct r as [cfgNew dataNew|err]; [destruct (bytes_Equal data dataNew)|].
    + unfold inv, adds_done; rewrite ?Hpc; simpl; rewrite ?Hpc.
      split_and!; try done; try lia.
    + match goal with |- context [fanout_from _ _ _ ?x] =>
        set (s1 := x) end.
      destruct (fanout_from_inv cfgNew dataNew 0 s1) as (Hi' & Hd' & Hp');
        try done.
      split_and!; try done. rewrite Hp'. subst s1. simpl. lia.
    + unfold inv, adds_done; rewrite ?Hpc; simpl; rewrite ?Hpc.
      split_and!; try done; try lia.
  - (* ARunnerStop *)
    unfold runner_step in Hstep. revert Hm Hstep.
    destruct (rpc s) eqn:Hpc; intros Hm Hstep; simpl in Hm; try done.
    destruct (globalStopClosed s); [|done].
    inversion Hstep; subst; clear Hstep.
    unfold inv, adds_done; rewrite ?Hpc; simpl.
    split_and!; try done; try lia.
  - (* ARunnerJoin *)
    unfold runner_step in Hstep. revert Hm Hstep.
    destruct (rpc s) eqn:Hpc; intros Hm Hstep; simpl in Hm; try done.
    destruct (forallb exited (scfgs s)); [|done].
    inversion Hstep; subst; clear Hstep.
    unfold inv, adds_done; rewrite ?Hpc; simpl; rewrite ?Hpc.
    split_and!; try done; try lia. by right.
  - (* AStop *)
    destruct (globalStopClosed s);
      inversion Hstep; subst; clear Hstep;
      unfold inv, adds_done in *; simpl;
      split_and!; try done; try lia.
Qed.

Lemma run_inv acts : forall s s' : @system Config,
  inv fl s -> run key fl s acts = Some s' -> inv fl s'.
Proof.
  induction acts as [|a acts IH]; intros s s' Hinv H; simpl in H.
  - by inversion H; subst.
  - destruct (step key fl s a) as [s1|] eqn:Hs; simpl in H; [|done].
    eapply IH; [|done]. by eapply step_inv.
Qed.

Lemma run_after_adds acts : forall s s' : @system Config,
  inv fl s -> adds_done s = true -> run key fl s acts = Some s' ->
  (PendingScrapeConfigs s' <= PendingScrapeConfigs s)%Z.
Proof.
  induction acts as [|a acts IH]; intros s s' Hinv Hd H; simpl in H.
  - inversion H; subst. lia.
  - destruct (step key fl s a) as [s1|] eqn:Hs; simpl in H; [|done].
    destruct (step_inv _ _ _ Hinv Hs) as (Hinv1 & Hp1 & Hd1 & _).
    destruct (Hd1 Hd) as [Hd1' Hna].
    specialize (IH _ _ Hinv1 Hd1' H).
    assert (pending_delta a <= 0)%Z by (by destruct a).
    lia.
Qed.

End Pending.

Example pending_while_waiting :
  PendingScrapeConfigs RunnerSample.waiting_state = 10%Z.
Proof. reflexivity. Qed.

Section NoPanic.

Context {Config : Type}.
Variable key : ScrapeWork -> string.
Variable fl : flags.

(** *** No [update] of the process panics *)

Lemma update_open_stays_open suppress sg sws :
  is_Some (Group.m sg) ->
  exists sg', Group.update key suppress sg sws = Done sg'
              /\ is_Some (Group.m sg').
Proof.
  intros Hopen.
  pose proof (GroupFacts.update_open_returns key suppress sg sws Hopen) as Hr.
  destruct (Group.update key suppress sg sws) as [sg'|sg'] eqn:Hup; [|done].
  exists sg'. split; [done|].
  apply GroupFacts.update_Done_inv in Hup as (st & Hv & ->).
  rewrite GroupFacts.report_m.
  destruct (GroupFacts.visit_all_open key suppress sws (Group.start sg) Hopen)
    as (st' & Hv' & [mm Hm]).
  rewrite Hv in Hv'. inversion Hv'; subst.
  destruct (GroupFacts.sweep_all_open (Group.swsMap st') (Group.grp st') mm Hm)
    as (mm' & -> & _). eauto.
Qed.

Lemma updateScrapeWork_open (c : @scrapeConfig Config) sws p ch :
  is_Some (Group.m (sg c)) ->
  exists c', updateScrapeWork key fl c sws p ch = Done c'
             /\ is_Some (Group.m (sg c')).
Proof.
  intros Hopen. unfold updateScrapeWork.
  destruct (update_open_stays_open (suppressDuplicateScrapeTargetErrors fl)
              (sg c) sws Hopen) as (g & -> & Hg).
  eauto.
Qed.

Lemma reload_scfgs cfg data sighup r (s : @system Config) :
  scfgs (reload cfg data sighup r s) = scfgs s
  /\ panicked (reload cfg data sighup r s) = panicked s.
Proof.
  unfold reload, fanout_from.
  destruct r, sighup; simpl; try done;
    destruct (bytes_Equal _ _); simpl; try done; by case_decide.
Qed.

Lemma fanout_from_scfgs cfg data i (s : @system Config) :
  scfgs (fanout_from cfg data i s) = scfgs s
  /\ panicked (fanout_from cfg data i s) = panicked s.
Proof. unfold fanout_from. by case_decide. Qed.

Lemma groups_open_init : groups_open (@init Config).
Proof. by constructor. Qed.

(** A step other than a second [Stop()] does not panic: [update] is only
    called on open groups, and leaves them open. *)
Lemma step_live_groups_open (s s' : @system Config) a :
  panicked s = false /\ groups_open s ->
  (a = AStop -> globalStopClosed s = false) ->
  step key fl s a = Some s' ->
  panicked s' = false /\ groups_open s'.
Proof.
  intros [Hp Hall] Hlive Hstep. unfold step in Hstep. rewrite Hp in Hstep.
  unfold groups_open in *.
  assert (forall i c c',
            scfgs s !! i = Some c ->
            (pc c' <> Exited -> is_Some (Group.m (sg c'))) ->
            Forall (fun c => pc c <> Exited -> is_Some (Group.m (sg c)))
              (<[i := c']> (scfgs s))) as Hins.
  { intros i c c' Hi Hc'. apply Forall_insert; done. }
  assert (forall i c, scfgs s !! i = Some c ->
            pc c <> Exited -> is_Some (Group.m (sg c))) as Hget.
  { intros i c Hi. by eapply Forall_lookup_1 in Hall. }
  destruct a; simpl in Hstep.
  - unfold runner_step in Hstep. destruct (rpc s); try done.
    case_decide; [|destruct r]; inversion Hstep; subst; done.
  - unfold runner_step in Hstep. destruct (rpc s); try done.
    destruct todo as [|[nm iv] todo]; [done|].
    assert (Forall (fun c => pc c <> Exited -> is_Some (Group.m (sg c)))
              (scfgs (add nm iv s))) as Hadd.
    { unfold add. simpl. apply Forall_app. split; [done|].
      constructor; [|done]. simpl. eauto. }
    destruct todo; inversion Hstep; subst; clear Hstep.
    + destruct (fanout_from_scfgs cfg data 0 (add nm iv s)) as [-> ->].
      done.
    + done.
  - unfold runner_step in Hstep. destruct (rpc s); try done.
    destruct (scfgs s !! i) as [c|] eqn:Hi; simpl in Hstep; [|done].
    destruct (Chan.send cfg (cfgCh c)) as [ch|]; simpl in Hstep; [|done].
    inversion Hstep; subst; clear Hstep.
    match goal with |- context [fanout_from ?a ?b ?c ?x] =>
      destruct (fanout_from_scfgs a b c x) as [-> ->] end.
    simpl. split; [done|]. eapply Hins; [done|]. simpl. by eapply Hget.
  - unfold runner_step in Hstep. destruct (rpc s); try done.
    inversion Hstep; subst.
    by destruct (reload_scfgs cfg data true r s) as [-> ->].
  - unfold runner_step in Hstep. destruct (rpc s); try done.
    case_decide; [|done]. inversion Hstep; subst.
    by destruct (reload_scfgs cfg data false r s) as [-> ->].
  - unfold runner_step in Hstep. destruct (rpc s); try done.
    destruct (globalStopClosed s); [|done]. by inversion Hstep; subst.
  - unfold runner_step in Hstep. destruct (rpc s); try done.
    destruct (forallb exited (scfgs s)); [|done]. by inversion Hstep; subst.
  - rewrite (Hlive eq_refl) in Hstep. by inversion Hstep; subst.
  - destruct (scfgs s !! i) as [c|] eqn:Hi; simpl in Hstep; [|done].
    destruct (pc c) eqn:Hpc; try done.
    destruct (cfgCh c) as [cfg|]; simpl in Hstep; [|done].
    inversion Hstep; subst; clear Hstep. simpl. split; [done|].
    eapply Hins; [done|]. simpl. intros _. eapply Hget; [done|]. congruence.
  - destruct (scfgs s !! i) as [c|] eqn:Hi; simpl in Hstep; [|done].
    destruct (pc c) eqn:Hpc; try done.
    inversion Hstep; subst; clear Hstep.
    destruct (updateScrapeWork_open c sws (ReportReady cfg) (cfgCh c))
      as (c' & -> & Hc'); [eapply Hget; [done|congruence]|].
    simpl. split; [done|]. eapply Hins; done.
  - destruct (scfgs s !! i) as [c|] eqn:Hi; simpl in Hstep; [|done].
    destruct (pc c) eqn:Hpc; try done.
    inversion Hstep; subst; clear Hstep. simpl. split; [done|].
    eapply Hins; [done|]. simpl. intros _. eapply Hget; [done|]. congruence.
  - destruct (scfgs s !! i) as [c|] eqn:Hi; simpl in Hstep; [|done].
    destruct (pc c) eqn:Hpc; try done.
    destruct (cfgCh c) as [cfg'|]; simpl in Hstep; [|done].
    inversion Hstep; subst; clear Hstep.
    destruct (updateScrapeWork_open c sws (Selecting cfg') None)
      as (c' & -> & Hc'); [eapply Hget; [done|congruence]|].
    simpl. split; [done|]. eapply Hins; done.
  - destruct (scfgs s !! i) as [c|] eqn:Hi; simpl in Hstep; [|done].
    destruct (pc c) eqn:Hpc; try done.
    case_decide; [|done].
    inversion Hstep; subst; clear Hstep.
    destruct (updateScrapeWork_open c sws (Selecting cfg) (cfgCh c))
      as (c' & -> & Hc'); [eapply Hget; [done|congruence]|].
    simpl. split; [done|]. eapply Hins; done.
  - destruct (scfgs s !! i) as [c|] eqn:Hi; simpl in Hstep; [|done].
    destruct (pc c) eqn:Hpc; try done.
    destruct (scsStopClosed s); [|done].
    inversion Hstep; subst; clear Hstep. simpl. split; [done|].
    eapply Hins; [done|]. simpl. done.
Qed.

Lemma step_groups_open (s s' : @system Config) a :
  groups_open s -> step key fl s a = Some s' -> groups_open s'.
Proof.
  intros Hall Hstep.
  destruct (panicked s) eqn:Hp;
    [unfold step in Hstep; by rewrite Hp in Hstep|].
  destruct (globalStopClosed s) eqn:Hg.
  - destruct a;
      try (by eapply (step_live_groups_open s s'); [split| |exact Hstep]).
    unfold step in Hstep. rewrite Hp, Hg in Hstep.
    by inversion Hstep; subst.
  - by eapply (step_live_groups_open s s'); [split| |exact Hstep].
Qed.

(** The only step that panics is a second [Stop()]. *)
Lemma step_panicked (s s' : @system Config) a :
  groups_open s -> step key fl s a = Some s' ->
  panicked s' = (is_Stop a && globalStopClosed s)%bool.
Proof.
  intros Hall Hstep.
  destruct (panicked s) eqn:Hp;
    [unfold step in Hstep; by rewrite Hp in Hstep|].
  destruct (globalStopClosed s) eqn:Hg.
  - destruct a; simpl;
      try (by eapply (step_live_groups_open s s'); [split| |exact Hstep]).
    unfold step in Hstep. rewrite Hp, Hg in Hstep.
    by inversion Hstep; subst.
  - rewrite andb_false_r.
    by eapply (step_live_groups_open s s'); [split| |exact Hstep].
Qed.

(** *** The fan-out in the process *)

(** While the buffer of [scs.scfgs[i]] is full the runner cannot proceed
    with its send; the config queued there is not replaced. *)
Lemma runner_send_suspended (s : @system Config) cfg data i c old :
  rpc s = RFanout cfg data i ->
  scfgs s !! i = Some c ->
  cfgCh c = Some old ->
  step key fl s ARunnerSend = None.
Proof.
  intros Hpc Hi Hch. unfold step. destruct (panicked s); [done|].
  simpl. unfold runner_step. rewrite Hpc, Hi. simpl. by rewrite Hch.
Qed.

End NoPanic.

Section Shutdown.

Context {Config : Type}.
Variable key : ScrapeWork -> string.
Variable fl : flags.

(** *** The steps of the process, case by case *)

Lemma scfg_step_transition (s s' : @system Config) a :
  scfg_step key fl s a = Some s' ->
  exists i c o,
    scfgs s !! i = Some c
    /\ scfg_transition key fl s i c a o
    /\ s' = after_scfg i a o s.
Proof.
  destruct a as [| | | | | | | |i|i sws|i|i sws|i sws|i]; simpl; try done;
    destruct (scfgs s !! i) as [c|] eqn:Hi; simpl; try done;
    destruct (pc c) eqn:Hpc; try done.
  - destruct (cfgCh c) as [cfg|] eqn:Hch; simpl; [|done].
    intros [= <-]. exists i, c. eexists. split_and!; [done|by eapply trans_recv|done].
  - intros [= <-]. exists i, c. eexists. split_and!; [done|by eapply trans_first|done].
  - intros [= <-]. exists i, c. eexists. split_and!; [done|by eapply trans_report|done].
  - destruct (cfgCh c) as [cfg'|] eqn:Hch; simpl; [|done].
    intros [= <-]. exists i, c. eexists. split_and!; [done|by eapply trans_config|done].
  - case_decide; [|done].
    intros [= <-]. exists i, c. eexists. split_and!; [done|by eapply trans_tick|done].
  - destruct (scsStopClosed s) eqn:Hst; [|done].
    intros [= <-]. exists i, c. eexists. split_and!; [done|by eapply trans_stop|done].
Qed.

Lemma after_scfg_fields i a o (s : @system Config) :
  scfgs (after_scfg i a o s) = <[i := outcome_state o]> (scfgs s)
  /\ rpc (after_scfg i a o s) = rpc s
  /\ scsStopClosed (after_scfg i a o s) = scsStopClosed s
  /\ globalStopClosed (after_scfg i a o s) = globalStopClosed s
  /\ configReloads (after_scfg i a o s) = configReloads s
  /\ rlog (after_scfg i a o s) = rlog s.
Proof. by destruct a, o. Qed.

Lemma updateScrapeWork_fields (c : @scrapeConfig Config) sws p ch :
  let c' := outcome_state (updateScrapeWork key fl c sws p ch) in
  scName c' = scName c /\ checkInterval c' = checkInterval c
  /\ cfgCh c' = ch /\ pc c' = p /\ swsPrev c' = sws
  /\ sg c' = outcome_state
               (Group.update key (suppressDuplicateScrapeTargetErrors fl)
                  (sg c) sws).
Proof. unfold updateScrapeWork. by destruct (Group.update _ _ _ _). Qed.

(** A step of a scrape config keeps its name and interval, and leaves it
    neither waiting for its first config nor, unless [scs.stopCh] is
    closed, returned. *)
Lemma scfg_transition_fields (s : @system Config) i c a o :
  scfg_transition key fl s i c a o ->
  scName (outcome_state o) = scName c
  /\ checkInterval (outcome_state o) = checkInterval c
  /\ pc c <> Exited
  /\ pc (outcome_state o) <> AwaitInitial
  /\ (pc (outcome_state o) = Exited -> scsStopClosed s = true).
Proof.
  intros Ht. destruct Ht; simpl;
    try (destruct (updateScrapeWork_fields c sws (ReportReady cfg) (cfgCh c))
           as (-> & -> & _ & -> & _));
    try (destruct (updateScrapeWork_fields c sws (Selecting cfg) None)
           as (-> & -> & _ & -> & _));
    try (destruct (updateScrapeWork_fields c sws (Selecting cfg) (cfgCh c))
           as (-> & -> & _ & -> & _));
    split_and!; try done; congruence.
Qed.

Lemma reload_fields cfg data sighup r (s : @system Config) :
  let s' := reload cfg data sighup r s in
  scfgs s' = scfgs s
  /\ scsStopClosed s' = scsStopClosed s
  /\ globalStopClosed s' = globalStopClosed s
  /\ PendingScrapeConfigs s' = PendingScrapeConfigs s
  /\ (rpc s' = rpc s
      \/ (exists cfgNew dataNew,
            r = LoadOk cfgNew dataNew /\ bytes_Equal data dataNew = false
            /\ rpc s' = if decide (0 < length (scfgs s))
                        then RFanout cfgNew dataNew 0
                        else RSelect cfgNew dataNew)).
Proof.
  unfold reload, fanout_from.
  destruct r as [cfgNew dataNew|err].
  - destruct (bytes_Equal data dataNew) eqn:Hb.
    + destruct sighup; simpl; split_and!; try done; by left.
    + destruct sighup; simpl; case_decide; simpl; split_and!; try done;
        right; exists cfgNew, dataNew; by rewrite ?decide_True, ?decide_False.
  - destruct sighup; simpl; split_and!; try done; by left.
Qed.

(** Every enabled step, with the state it leads to. *)
Lemma step_cases (s s' : @system Config) a :
  step key fl s a = Some s' ->
  panicked s = false
  /\ match a with
     | ARunnerStart r =>
         rpc s = RStart
         /\ s' = if decide (promscrapeConfigFile fl = "")
                 then set_rpc RReturned s
                 else match r with
                      | LoadErr err =>
                          set_rpc RFatal
                            (logr (LogFatal err) (logr LogReading s))
                      | LoadOk cfg data =>
                          set_rpc (RAdding cfg data (categories fl))
                            (logr LogReading s)
                      end
     | ARunnerAdd =>
         exists cfg data nm iv todo,
           rpc s = RAdding cfg data ((nm, iv) :: todo)
           /\ s' = match todo with
                   | [] => fanout_from cfg data 0 (add nm iv s)
                   | _ => set_rpc (RAdding cfg data todo) (add nm iv s)
                   end
     | ARunnerSend =>
         exists cfg data i c,
           rpc s = RFanout cfg data i
           /\ scfgs s !! i = Some c
           /\ cfgCh c = None
           /\ s' = fanout_from cfg data (S i)
                     (set_scfgs
                        (<[i := with_pc (pc c) (Some cfg) c]> (scfgs s)) s)
     | ARunnerSighup r =>
         exists cfg data,
           rpc s = RSelect cfg data /\ s' = reload cfg data true r s
     | ARunnerTick r =>
         exists cfg data,
           rpc s = RSelect cfg data
           /\ (0 < configCheckInterval fl)%Z
           /\ s' = reload cfg data false r s
     | ARunnerStop =>
         exists cfg data,
           rpc s = RSelect cfg data
           /\ globalStopClosed s = true
           /\ s' = {| PendingScrapeConfigs := PendingScrapeConfigs s;
                      rpc := RStopping; scfgs := scfgs s;
                      scsStopClosed := true;
                      globalStopClosed := globalStopClosed s;
                      configReloads := configReloads s;
                      rlog := rlog s ++ [LogStopping];
                      panicked := panicked s |}
     | ARunnerJoin =>
         rpc s = RStopping
         /\ forallb exited (scfgs s) = true
         /\ s' = set_rpc RReturned (logr LogStopped s)
     | AStop =>
         s' = if globalStopClosed s then crashed s
              else {| PendingScrapeConfigs := PendingScrapeConfigs s;
                      rpc := rpc s; scfgs := scfgs s;
                      scsStopClosed := scsStopClosed s;
                      globalStopClosed := true;
                      configReloads := configReloads s; rlog := rlog s;
                      panicked := panicked s |}
     | _ =>
         exists i c o,
           scfgs s !! i = Some c
           /\ scfg_transition key fl s i c a o
           /\ s' = after_scfg i a o s
     end.
Proof.
  unfold step. intros Hstep.
  destruct (panicked s) eqn:Hp; [done|]. split; [done|].
  destruct a; try (by apply scfg_step_transition); simpl in Hstep;
    unfold runner_step in Hstep.
  - destruct (rpc s); try done. split; [done|].
    case_decide; [|destruct r]; inversion Hstep; subst; by rewrite ?Hp.
  - destruct (rpc s); try done.
    destruct todo as [|[nm iv] todo]; [done|].
    exists cfg, data, nm, iv, todo. split; [done|]. inversion Hstep; subst; by rewrite ?Hp.
  - destruct (rpc s); try done.
    destruct (scfgs s !! i) as [c|] eqn:Hi; simpl in Hstep; [|done].
    destruct (cfgCh c) as [old|] eqn:Hch; simpl in Hstep; [done|].
    exists cfg, data, i, c. split_and!; try done. inversion Hstep; subst; by rewrite ?Hp.
  - destruct (rpc s); try done. exists cfg, data. split; [done|].
    inversion Hstep; subst; by rewrite ?Hp.
  - destruct (rpc s); try done. case_decide; [|done].
    exists cfg, data. split_and!; try done. inversion Hstep; subst; by rewrite ?Hp.
  - destruct (rpc s); try done.
    destruct (globalStopClosed s) eqn:Hg; [|done].
    exists cfg, data. split_and!; try done. inversion Hstep; subst; by rewrite ?Hp.
  - destruct (rpc s); try done.
    destruct (forallb exited (scfgs s)) eqn:Hall; [|done].
    split_and!; try done. inversion Hstep; subst; by rewrite ?Hp.
  - destruct (globalStopClosed s) eqn:Hg;
      inversion Hstep; subst; by rewrite ?Hp.
Qed.


Lemma fanout_from_fields cfg data i (s : @system Config) :
  let s' := fanout_from cfg data i s in
  scfgs s' = scfgs s
  /\ scsStopClosed s' = scsStopClosed s
  /\ globalStopClosed s' = globalStopClosed s
  /\ configReloads s' = configReloads s
  /\ rlog s' = rlog s
  /\ ((rpc s' = RFanout cfg data i /\ i < length (scfgs s))
      \/ (rpc s' = RSelect cfg data /\ ~ i < length (scfgs s))).
Proof.
  unfold fanout_from. case_decide; simpl; split_and!; try done;
    [by left|by right].
Qed.

(** *** The order of a shutdown *)

Lemma shutdown_order_init : shutdown_order (@init Config).
Proof. unfold shutdown_order. simpl. by split_and!. Qed.

Lemma scfg_shutdown_order (s : @system Config) i c a o :
  shutdown_order s ->
  scfgs s !! i = Some c ->
  scfg_transition key fl s i c a o ->
  shutdown_order (after_scfg i a o s).
Proof.
  intros (HA & HB & HC & HD & HE & HF) Hi Ht.
  destruct (after_scfg_fields i a o s) as (Hs & Hr & Hst & Hg & _).
  destruct (scfg_transition_fields _ _ _ _ _ Ht) as (_ & _ & Hne & _ & Hex).
  unfold shutdown_order. rewrite Hs, Hr, Hst, Hg. split_and!; try done.
  - by apply Forall_insert.
  - intros Hret. specialize (HD Hret).
    eapply Forall_lookup_1 in HD; [|exact Hi]. done.
  - intros Hst'. by rewrite (HE Hst') in Hi.
  - intros ? ? ? Hf. rewrite length_insert. by eapply HF.
Qed.

Lemma step_shutdown_order (s s' : @system Config) a :
  shutdown_order s -> step key fl s a = Some s' -> shutdown_order s'.
Proof.
  intros Hord [Hp Hc]%step_cases.
  destruct a;
    try (destruct Hc as (i' & c & o & Hi & Ht & ->);
         by eapply scfg_shutdown_order).
  all: destruct Hord as (HA & HB & HC & HD & HE & HF).
  all: unfold shutdown_order.
  - (* ARunnerStart *)
    destruct Hc as [Hpc ->]. rewrite Hpc in HB.
    specialize (HE Hpc).
    case_decide; [|destruct r]; simpl; rewrite ?HE;
      split_and!; try done; by constructor.
  - (* ARunnerAdd *)
    destruct Hc as (cfg & data & nm & iv & todo & Hpc & ->).
    rewrite Hpc in HB.
    assert (Forall (fun c => pc c = Exited -> scsStopClosed s = true)
              (scfgs (add nm iv s))) as HC'.
    { unfold add. simpl. apply Forall_app. split; [done|].
      by constructor. }
    destruct todo as [|e todo].
    + destruct (fanout_from_fields cfg data 0 (add nm iv s))
        as (Hs & Hst & Hg & _ & _ & [[Hr Hlt]|[Hr Hlt]]); simpl in *;
        rewrite Hs, Hst, Hg, Hr; split_and!; try done.
      intros ? ? ? [= <- <- <-]. done.
    + simpl. split_and!; try done.
  - (* ARunnerSend *)
    destruct Hc as (cfg & data & i & c & Hpc & Hi & Hch & ->).
    rewrite Hpc in HB.
    match goal with |- context [fanout_from _ _ _ ?x] => set (s1 := x) end.
    assert (Forall (fun c => pc c = Exited -> scsStopClosed s = true)
              (scfgs s1)) as HC'.
    { subst s1. simpl. apply Forall_insert; [done|]. simpl.
      by eapply Forall_lookup_1 in HC. }
    destruct (fanout_from_fields cfg data (S i) s1)
      as (Hs & Hst & Hg & _ & _ & [[Hr Hlt]|[Hr Hlt]]); simpl in *;
      rewrite Hs, Hst, Hg, Hr; split_and!; try done.
    intros ? ? ? [= <- <- <-]. done.
  - (* ARunnerSighup *)
    destruct Hc as (cfg & data & Hpc & ->). rewrite Hpc in HB.
    destruct (reload_fields cfg data true r s)
      as (Hs & Hst & Hg & _ & Hr); simpl in *.
    rewrite Hs, Hst, Hg.
    destruct Hr as [Hr|(cfgNew & dataNew & _ & _ & Hr)]; rewrite Hr.
    + rewrite Hpc. split_and!; try done.
    + case_decide; split_and!; try done.
      intros ? ? ? [= <- <- <-]. done.
  - (* ARunnerTick *)
    destruct Hc as (cfg & data & Hpc & _ & ->). rewrite Hpc in HB.
    destruct (reload_fields cfg data false r s)
      as (Hs & Hst & Hg & _ & Hr); simpl in *.
    rewrite Hs, Hst, Hg.
    destruct Hr as [Hr|(cfgNew & dataNew & _ & _ & Hr)]; rewrite Hr.
    + rewrite Hpc. split_and!; try done.
    + case_decide; split_and!; try done.
      intros ? ? ? [= <- <- <-]. done.
  - (* ARunnerStop *)
    destruct Hc as (cfg & data & Hpc & Hg & ->). simpl.
    split_and!; try done.
    eapply Forall_impl; [exact HC|]. done.
  - (* ARunnerJoin *)
    destruct Hc as (Hpc & Hall & ->). simpl. rewrite Hpc in HB.
    split_and!; try done.
    intros _. apply Is_true_true_2, forallb_True in Hall.
    eapply Forall_impl; [exact Hall|]. intros c. unfold exited.
    by destruct (pc c).
  - (* AStop *)
    subst s'. destruct (globalStopClosed s) eqn:Hg; simpl;
      split_and!; try done.
Qed.


Lemma run_invariant (P : @system Config -> Prop) :
  (forall s s' a, P s -> step key fl s a = Some s' -> P s') ->
  forall acts s s', P s -> run key fl s acts = Some s' -> P s'.
Proof.
  intros Hstep acts. induction acts as [|a acts IH]; intros s s' HP H;
    simpl in H.
  - by inversion H; subst.
  - destruct (step key fl s a) as [s1|] eqn:Hs; simpl in H; [|done].
    eapply IH; [|done]. by eapply Hstep.
Qed.

(** X13. A shutdown goes in order.  In every state the process reaches:
    [scs.stopCh] is closed only after [Stop()] closed [globalStopCh]; a
    scrape config whose goroutine has returned (and so whose group was
    stopped) exists only after [scs.stopCh] was closed; and once
    [runScraper] has returned every goroutine of a scrape config has
    returned.  So no target group is stopped before [Stop()] is called. *)
Theorem shutdown_in_order acts (s : @system Config) :
  run key fl init acts = Some s ->
  (scsStopClosed s = true -> globalStopClosed s = true)
  /\ Forall (fun c => pc c = Exited -> globalStopClosed s = true) (scfgs s)
  /\ (rpc s = RReturned -> Forall (fun c => pc c = Exited) (scfgs s)).
Proof.
  intros Hrun.
  assert (shutdown_order s) as (HA & _ & HC & HD & _).
  { eapply (run_invariant shutdown_order); [|apply shutdown_order_init|done].
    intros. by eapply step_shutdown_order. }
  split_and!; [done| |done].
  eapply Forall_impl; [exact HC|]. simpl. auto.
Qed.

(** *** The first config reaches every scrape config *)

Lemma fed_init : fed (@init Config).
Proof. intros j c H. done. Qed.

Lemma scfg_fed (s : @system Config) i c a o :
  fed s ->
  scfgs s !! i = Some c ->
  scfg_transition key fl s i c a o ->
  fed (after_scfg i a o s).
Proof.
  intros Hfed Hi Ht j c'.
  destruct (after_scfg_fields i a o s) as (Hs & Hr & _).
  destruct (scfg_transition_fields _ _ _ _ _ Ht) as (_ & _ & _ & Hne & _).
  rewrite Hs, Hr. destruct (decide (j = i)) as [->|Hji].
  - rewrite list_lookup_insert_eq by (by eapply lookup_lt_Some).
    intros [= <-] [Hpc _]. done.
  - rewrite list_lookup_insert_ne by done. apply Hfed.
Qed.

Lemma step_fed (s s' : @system Config) a :
  shutdown_order s -> fed s -> step key fl s a = Some s' -> fed s'.
Proof.
  intros Hord Hfed [Hp Hc]%step_cases.
  destruct a;
    try (destruct Hc as (i' & c & o & Hi & Ht & ->);
         by eapply scfg_fed).
  - (* ARunnerStart *)
    destruct Hc as [Hpc ->]. destruct Hord as (_ & _ & _ & _ & HE & _).
    specialize (HE Hpc). intros j c.
    case_decide; [|destruct r]; simpl; by rewrite HE.
  - (* ARunnerAdd *)
    destruct Hc as (cfg & data & nm & iv & todo & Hpc & ->).
    destruct todo as [|e todo]; [|by intros j c].
    intros j c.
    destruct (fanout_from_fields cfg data 0 (add nm iv s))
      as (Hs & _ & _ & _ & _ & [[Hr Hlt]|[Hr Hlt]]); simpl in *;
      rewrite Hs, Hr.
    + intros _ _. lia.
    + exfalso. apply Hlt. rewrite length_app. simpl. lia.
  - (* ARunnerSend *)
    destruct Hc as (cfg & data & i & c & Hpc & Hi & Hch & ->).
    match goal with |- context [fanout_from _ _ _ ?x] => set (s1 := x) end.
    assert (forall j c', scfgs s1 !! j = Some c' -> untouched c' -> S i <= j)
      as Hlater.
    { subst s1. simpl. intros j c'. destruct (decide (j = i)) as [->|Hji].
      - rewrite list_lookup_insert_eq by (by eapply lookup_lt_Some).
        intros [= <-] [_ Hc']. done.
      - rewrite list_lookup_insert_ne by done. intros Hj Hu.
        specialize (Hfed j c' Hj Hu). rewrite Hpc in Hfed. lia. }
    intros j c'.
    destruct (fanout_from_fields cfg data (S i) s1)
      as (Hs & _ & _ & _ & _ & [[Hr Hlt]|[Hr Hlt]]); simpl in *;
      rewrite Hs, Hr.
    + apply Hlater.
    + intros Hj Hu. apply Hlt. specialize (Hlater j c' Hj Hu).
      apply lookup_lt_Some in Hj. lia.
  - (* ARunnerSighup *)
    destruct Hc as (cfg & data & Hpc & ->). intros j c.
    destruct (reload_fields cfg data true r s) as (Hs & _); simpl in *.
    rewrite Hs. intros Hj Hu. specialize (Hfed j c Hj Hu).
    by rewrite Hpc in Hfed.
  - (* ARunnerTick *)
    destruct Hc as (cfg & data & Hpc & _ & ->). intros j c.
    destruct (reload_fields cfg data false r s) as (Hs & _); simpl in *.
    rewrite Hs. intros Hj Hu. specialize (Hfed j c Hj Hu).
    by rewrite Hpc in Hfed.
  - (* ARunnerStop *)
    destruct Hc as (cfg & data & Hpc & Hg & ->). intros j c. simpl.
    intros Hj Hu. specialize (Hfed j c Hj Hu). by rewrite Hpc in Hfed.
  - (* ARunnerJoin *)
    destruct Hc as (Hpc & Hall & ->). intros j c. simpl.
    intros Hj Hu. specialize (Hfed j c Hj Hu). by rewrite Hpc in Hfed.
  - (* AStop *)
    subst s'. intros j c. destruct (globalStopClosed s); simpl; apply Hfed.
Qed.

Lemma run_shutdown_order_fed acts : forall s s' : @system Config,
  shutdown_order s /\ fed s -> run key fl s acts = Some s' ->
  shutdown_order s' /\ fed s'.
Proof.
  apply run_invariant. intros s s' a [Hord Hfed] Hstep. split.
  - by eapply step_shutdown_order.
  - by eapply step_fed.
Qed.

(** X14. [scrapeConfig.run] waits for its first config without watching
    the stop channel, so a scrape config that never got one could never be
    stopped.  That does not happen: in every state the process reaches
    with the runner past its first fan-out (waiting in the select,
    stopping or returned), every scrape config has been handed a config,
    and while a fan-out is under way only scrape configs the runner has
    not reached yet are without one. *)
Theorem first_config_reaches_everyone acts (s : @system Config) :
  run key fl init acts = Some s ->
  forall j c, scfgs s !! j = Some c ->
    match rpc s with
    | RSelect _ _ | RStopping | RReturned => ~ untouched c
    | RFanout _ _ i => j < i -> ~ untouched c
    | _ => True
    end.
Proof.
  intros Hrun j c Hj.
  destruct (run_shutdown_order_fed acts init s) as [_ Hfed];
    [split; [apply shutdown_order_init|apply fed_init]|done|].
  specialize (Hfed j c Hj).
  destruct (rpc s); try done; try (intros Hu; by apply Hfed).
  intros Hlt Hu. specialize (Hfed Hu). lia.
Qed.

(** *** Categories and flags *)

Lemma described_insert (l : list (@scrapeConfig Config)) i c c' :
  l !! i = Some c ->
  scName c' = scName c -> checkInterval c' = checkInterval c ->
  (fun c => (scName c, checkInterval c)) <$> <[i := c']> l
  = (fun c => (scName c, checkInterval c)) <$> l.
Proof.
  intros Hi Hn Hc. rewrite list_fmap_insert, Hn, Hc.
  apply list_insert_id. by rewrite list_lookup_fmap, Hi.
Qed.

Lemma scfg_follows_flags (s : @system Config) i c a o :
  follows_flags fl s ->
  scfgs s !! i = Some c ->
  scfg_transition key fl s i c a o ->
  follows_flags fl (after_scfg i a o s).
Proof.
  intros Hf Hi Ht.
  destruct (after_scfg_fields i a o s) as (Hs & Hr & _).
  destruct (scfg_transition_fields _ _ _ _ _ Ht) as (Hn & Hc & _).
  unfold follows_flags, described in *. rewrite Hs, Hr.
  rewrite (described_insert _ _ _ _ Hi Hn Hc).
  destruct (rpc s); try done; try (by rewrite Hf in Hi).
  destruct Hf as [Hf|Hf]; [by rewrite Hf in Hi|by right].
Qed.

Lemma step_follows_flags (s s' : @system Config) a :
  follows_flags fl s -> step key fl s a = Some s' -> follows_flags fl s'.
Proof.
  intros Hf [Hp Hc]%step_cases.
  destruct a;
    try (destruct Hc as (i' & c & o & Hi & Ht & ->);
         by eapply scfg_follows_flags).
  all: unfold follows_flags, described in *.
  - (* ARunnerStart *)
    destruct Hc as [Hpc ->]. rewrite Hpc in Hf.
    case_decide; [|destruct r]; simpl; rewrite ?Hf; try done. by left.
  - (* ARunnerAdd *)
    destruct Hc as (cfg & data & nm & iv & todo & Hpc & ->).
    rewrite Hpc in Hf.
    assert (((fun c => (scName c, checkInterval c)) <$> scfgs (add nm iv s))
            ++ todo = categories fl) as Hadd.
    { unfold add. simpl. rewrite fmap_app, <- app_assoc. done. }
    destruct todo as [|e todo]; [|done].
    rewrite app_nil_r in Hadd.
    destruct (fanout_from_fields cfg data 0 (add nm iv s))
      as (Hs & _ & _ & _ & _ & [[Hr _]|[Hr _]]); simpl in *;
      by rewrite Hs, Hr.
  - (* ARunnerSend *)
    destruct Hc as (cfg & data & i & c & Hpc & Hi & Hch & ->).
    rewrite Hpc in Hf.
    match goal with |- context [fanout_from _ _ _ ?x] => set (s1 := x) end.
    assert ((fun c => (scName c, checkInterval c)) <$> scfgs s1
            = categories fl) as Hd.
    { subst s1. simpl. rewrite <- Hf. by eapply described_insert. }
    destruct (fanout_from_fields cfg data (S i) s1)
      as (Hs & _ & _ & _ & _ & [[Hr _]|[Hr _]]); simpl in *;
      by rewrite Hs, Hr.
  - (* ARunnerSighup *)
    destruct Hc as (cfg & data & Hpc & ->). rewrite Hpc in Hf.
    destruct (reload_fields cfg data true r s)
      as (Hs & _ & _ & _ & Hr); simpl in *.
    rewrite Hs.
    destruct Hr as [Hr|(cfgNew & dataNew & _ & _ & Hr)]; rewrite Hr.
    + by rewrite Hpc.
    + by case_decide.
  - (* ARunnerTick *)
    destruct Hc as (cfg & data & Hpc & _ & ->). rewrite Hpc in Hf.
    destruct (reload_fields cfg data false r s)
      as (Hs & _ & _ & _ & Hr); simpl in *.
    rewrite Hs.
    destruct Hr as [Hr|(cfgNew & dataNew & _ & _ & Hr)]; rewrite Hr.
    + by rewrite Hpc.
    + by case_decide.
  - (* ARunnerStop *)
    destruct Hc as (cfg & data & Hpc & Hg & ->). simpl. by rewrite Hpc in Hf.
  - (* ARunnerJoin *)
    destruct Hc as (Hpc & Hall & ->). simpl. rewrite Hpc in Hf. by right.
  - (* AStop *)
    subst s'. by destruct (globalStopClosed s).
Qed.

(** X15. In every state the process reaches, the i-th scrape config is the
    i-th category of [runScraper], with the check interval of its flag;
    a periodic re-check of a category (a tick of its ticker) happens only
    if that interval is positive.  In particular [static_configs], added
    with interval 0, is re-read only when a new config arrives. *)
Theorem ticks_follow_flags acts (s : @system Config) :
  run key fl init acts = Some s ->
  (forall i c, scfgs s !! i = Some c ->
     categories fl !! i = Some (scName c, checkInterval c))
  /\ (forall i sws s', step key fl s (AScTick i sws) = Some s' ->
        exists nm iv, categories fl !! i = Some (nm, iv) /\ (0 < iv)%Z)
  /\ (forall sws, step key fl s (AScTick 0 sws) = None).
Proof.
  intros Hrun.
  assert (follows_flags fl s) as Hf.
  { refine (run_invariant (follows_flags fl) _ acts init s _ Hrun);
      [|reflexivity].
    intros. by eapply step_follows_flags. }
  assert (forall i c, scfgs s !! i = Some c ->
            categories fl !! i = Some (scName c, checkInterval c)) as Hcat.
  { intros i c Hi.
    assert (described s !! i = Some (scName c, checkInterval c)) as Hd
      by (unfold described; by rewrite list_lookup_fmap, Hi).
    unfold follows_flags in Hf.
    destruct (rpc s); try (by rewrite <- Hf); try (by rewrite Hf in Hi).
    - rewrite <- Hf. by apply lookup_app_l_Some.
    - destruct Hf as [Hf|Hf]; [by rewrite Hf in Hi|by rewrite <- Hf]. }
  assert (forall i sws s', step key fl s (AScTick i sws) = Some s' ->
            exists nm iv, categories fl !! i = Some (nm, iv) /\ (0 < iv)%Z)
    as Htick.
  { intros i sws s' [_ (i' & c & o & Hi & Ht & _)]%step_cases.
    inversion Ht; subst. eauto. }
  split_and!; [done|done|].
  intros sws. destruct (step key fl s (AScTick 0 sws)) as [s'|] eqn:Hs;
    [|done].
  apply Htick in Hs as (nm & iv & Hc & Hiv). simpl in Hc.
  inversion Hc; subst. lia.
Qed.

(** *** The reload counter *)

Lemma found_changes_snoc (l : list runnerLog) e :
  found_changes (l ++ [e])
  = found_changes l + (if is_found_changes e then 1 else 0).
Proof.
  unfold found_changes. rewrite List.filter_app, length_app. simpl.
  by destruct (is_found_changes e).
Qed.

Lemma step_reloads (s s' : @system Config) a :
  configReloads s = found_changes (rlog s) ->
  step key fl s a = Some s' ->
  configReloads s' = found_changes (rlog s').
Proof.
  intros Hc [Hp Hs]%step_cases.
  destruct a;
    try (destruct Hs as (i' & c & o & Hi & Ht & ->);
         match goal with |- context [after_scfg ?i ?a ?o ?s] =>
           destruct (after_scfg_fields i a o s) as (_ & _ & _ & _ & -> & ->)
         end; done).
  - destruct Hs as [Hpc ->].
    case_decide; [|destruct r]; simpl; rewrite ?found_changes_snoc; simpl;
      lia.
  - destruct Hs as (cfg & data & nm & iv & todo & Hpc & ->).
    destruct todo; [|done].
    by destruct (fanout_from_fields cfg data 0 (add nm iv s))
      as (_ & _ & _ & -> & -> & _).
  - destruct Hs as (cfg & data & i & c & Hpc & Hi & Hch & ->).
    match goal with |- context [fanout_from ?a ?b ?c ?x] =>
      by destruct (fanout_from_fields a b c x) as (_ & _ & _ & -> & -> & _)
    end.
  - destruct Hs as (cfg & data & Hpc & ->). unfold reload.
    destruct r as [cfgNew dataNew|err];
      [destruct (bytes_Equal data dataNew)|]; simpl;
      rewrite ?found_changes_snoc; simpl; try lia.
    match goal with |- context [fanout_from ?a ?b ?c ?x] =>
      destruct (fanout_from_fields a b c x) as (_ & _ & _ & -> & -> & _)
    end.
    simpl. rewrite !found_changes_snoc. simpl. lia.
  - destruct Hs as (cfg & data & Hpc & _ & ->). unfold reload.
    destruct r as [cfgNew dataNew|err];
      [destruct (bytes_Equal data dataNew)|]; simpl;
      rewrite ?found_changes_snoc; simpl; try lia.
    match goal with |- context [fanout_from ?a ?b ?c ?x] =>
      destruct (fanout_from_fields a b c x) as (_ & _ & _ & -> & -> & _)
    end.
    simpl. rewrite !found_changes_snoc. simpl. lia.
  - destruct Hs as (cfg & data & Hpc & Hg & ->). simpl.
    rewrite found_changes_snoc. simpl. lia.
  - destruct Hs as (Hpc & Hall & ->). simpl.
    rewrite found_changes_snoc. simpl. lia.
  - subst s'. by destruct (globalStopClosed s).
Qed.

(** X16. [vm_promscrape_config_reloads_total] counts the configs that were
    applied after a change: in every state the process reaches it equals
    the number of "found changes" lines logged, so a reload that fails to
    load or that reads the same bytes never moves it. *)
Theorem reloads_counter_matches_log acts (s : @system Config) :
  run key fl init acts = Some s ->
  configReloads s = found_changes (rlog s).
Proof.
  apply (run_invariant (fun s => configReloads s = found_changes (rlog s)));
    [|done].
  intros. by eapply step_reloads.
Qed.

End Shutdown.

Section Panics.

Context {Config : Type}.
Variable key : ScrapeWork -> string.
Variable fl : flags.

(** *** The only panic of the process *)

Lemma stop_calls_cons (a : @action Config) acts :
  stop_calls (a :: acts) = (if is_Stop a then 1 else 0) + stop_calls acts.
Proof. unfold stop_calls. simpl. by destruct (is_Stop a). Qed.

(** [globalStopCh] is closed by [Stop()] and by nothing else. *)
Lemma step_globalStopClosed (s s' : @system Config) a :
  step key fl s a = Some s' ->
  globalStopClosed s' = (globalStopClosed s || is_Stop a)%bool.
Proof.
  intros [Hp Hc]%step_cases.
  destruct a; simpl; rewrite ?orb_false_r, ?orb_true_r;
    try (destruct Hc as (i' & c & o & Hi & Ht & ->);
         match goal with |- context [after_scfg ?i ?a ?o ?s] =>
           by destruct (after_scfg_fields i a o s) as (_ & _ & _ & -> & _)
         end).
  - destruct Hc as [Hpc ->]. by case_decide; [|destruct r].
  - destruct Hc as (cfg & data & nm & iv & todo & Hpc & ->).
    destruct todo; [|done].
    by destruct (fanout_from_fields cfg data 0 (add nm iv s))
      as (_ & _ & -> & _).
  - destruct Hc as (cfg & data & i & c & Hpc & Hi & Hch & ->).
    match goal with |- context [fanout_from ?a ?b ?c ?x] =>
      by destruct (fanout_from_fields a b c x) as (_ & _ & -> & _)
    end.
  - destruct Hc as (cfg & data & Hpc & ->).
    by destruct (reload_fields cfg data true r s) as (_ & _ & -> & _).
  - destruct Hc as (cfg & data & Hpc & _ & ->).
    by destruct (reload_fields cfg data false r s) as (_ & _ & -> & _).
  - by destruct Hc as (cfg & data & Hpc & Hg & ->).
  - by destruct Hc as (Hpc & Hall & ->).
  - subst s'. by destruct (globalStopClosed s) eqn:Hg.
Qed.

Lemma run_stop_calls acts : forall s s' : @system Config,
  groups_open s ->
  panicked s = false ->
  run key fl s acts = Some s' ->
  groups_open s'
  /\ (panicked s' = true
      <-> (if globalStopClosed s then 1 else 0) + stop_calls acts = 2)
  /\ (globalStopClosed s' = true
      <-> 1 <= (if globalStopClosed s then 1 else 0) + stop_calls acts)
  /\ (if globalStopClosed s then 1 else 0) + stop_calls acts <= 2.
Proof.
  induction acts as [|a acts IH]; intros s s' Hopen Hp Hrun; simpl in Hrun.
  - inversion Hrun; subst. unfold stop_calls. simpl.
    rewrite Hp. destruct (globalStopClosed s'); split_and!; try done; lia.
  - destruct (step key fl s a) as [s1|] eqn:Hs; simpl in Hrun; [|done].
    pose proof (step_groups_open key fl _ _ _ Hopen Hs) as Hopen1.
    pose proof (step_panicked key fl _ _ _ Hopen Hs) as Hp1.
    pose proof (step_globalStopClosed _ _ _ Hs) as Hg1.
    rewrite stop_calls_cons.
    destruct (panicked s1) eqn:Hpan.
    + (* the step is a second [Stop()]: the process is down *)
      symmetry in Hp1. apply andb_true_iff in Hp1 as [Ha Hg].
      destruct acts as [|a' acts]; simpl in Hrun.
      * inversion Hrun; subst. rewrite Ha, Hg in *. simpl in Hg1.
        unfold stop_calls. simpl. rewrite Hpan, Hg1.
        split_and!; try done; lia.
      * unfold step in Hrun. by rewrite Hpan in Hrun.
    + destruct (IH s1 s' Hopen1 Hpan Hrun) as (Ho & Hpi & Hgi & Hle).
      rewrite Hg1 in Hpi, Hgi, Hle.
      symmetry in Hp1. apply andb_false_iff in Hp1.
      assert ((if (globalStopClosed s || is_Stop a)%bool then 1 else 0)
              = (if globalStopClosed s then 1 else 0)
                + (if is_Stop a then 1 else 0)) as Heq.
      { destruct (globalStopClosed s), (is_Stop a); simpl; try done.
        by destruct Hp1. }
      rewrite Heq in Hpi, Hgi, Hle.
      split_and!; [done| | |lia].
      * rewrite Hpi. lia.
      * rewrite Hgi. lia.
Qed.

(** X12. The process panics exactly when [Stop()] is called a second
    time: its [close(globalStopCh)] then hits a closed channel.  In every
    state the process reaches, the panic flag is set exactly when the
    schedule holds two calls of [Stop()] (a third is never reached),
    [globalStopCh] is closed exactly when it holds one, and the group of
    every scrape config that has not returned is open, which is why no
    [update] of the process panics.  So a process whose [Stop()] is called
    at most once never panics. *)
Theorem only_second_Stop_panics acts (s : @system Config) :
  run key fl init acts = Some s ->
  (panicked s = true <-> stop_calls acts = 2)
  /\ (globalStopClosed s = true <-> 1 <= stop_calls acts)
  /\ stop_calls acts <= 2
  /\ (stop_calls acts <= 1 -> panicked s = false)
  /\ groups_open s.
Proof.
  intros Hrun.
  destruct (run_stop_calls acts init s) as (Ho & Hp & Hg & Hle);
    [apply groups_open_init|done|done|].
  simpl in Hp, Hg, Hle. split_and!; try done.
  intros Hone. destruct (panicked s); [|done].
  destruct Hp as [Hp _]. specialize (Hp eq_refl). lia.
Qed.

End Panics.

Section Histories.

Context {Config : Type}.
Variable key : ScrapeWork -> string.
Variable fl : flags.

(** *** The groups of the process *)

Lemma exec_app suppress ops1 : forall sg ops2,
  Group.exec key suppress sg (ops1 ++ ops2)
  = match Group.exec key suppress sg ops1 with
    | Done g => Group.exec key suppress g ops2
    | Panic g => Panic g
    end.
Proof.
  induction ops1 as [|o ops1 IH]; intros sg ops2; simpl; [done|].
  destruct (Group.run_op key suppress sg o); [apply IH|done].
Qed.

Lemma group_history_new nm iv :
  group_history key fl
    ({| scName := nm; checkInterval := iv; cfgCh := None;
        pc := AwaitInitial; swsPrev := [];
        sg := Group.newScraperGroup nm |} : @scrapeConfig Config) [].
Proof. by split_and!. Qed.

Lemma group_history_with_pc (c : @scrapeConfig Config) p ch lists :
  exited (with_pc p ch c) = exited c ->
  applied_initial (with_pc p ch c) = applied_initial c ->
  group_history key fl c lists ->
  group_history key fl (with_pc p ch c) lists.
Proof.
  intros He Ha (Hx & Hs & Hl). unfold group_history, group_ops in *.
  rewrite He, Ha. by split_and!.
Qed.

Lemma group_history_update (c : @scrapeConfig Config) sws p ch lists :
  exited c = false ->
  is_Some (Group.m (sg c)) ->
  match p with ReportReady _ | Selecting _ => True | _ => False end ->
  group_history key fl c lists ->
  group_history key fl
    (outcome_state (updateScrapeWork key fl c sws p ch)) (lists ++ [sws]).
Proof.
  intros He Hopen Hp (Hx & Hs & Hl).
  destruct (updateScrapeWork_fields key fl c sws p ch)
    as (Hn & _ & _ & Hpc & Hsw & Hsg).
  destruct (update_open_stays_open key
              (suppressDuplicateScrapeTargetErrors fl) (sg c) sws Hopen)
    as (g & Hup & _).
  rewrite Hup in Hsg. simpl in Hsg.
  unfold group_history, group_ops in *.
  assert (exited (outcome_state (updateScrapeWork key fl c sws p ch)) = false)
    as He' by (unfold exited; rewrite Hpc; by destruct p).
  rewrite He, app_nil_r in Hx. rewrite He', app_nil_r, Hn, Hsw, Hsg.
  split_and!.
  - rewrite fmap_app, exec_app, Hx.
    change (Group.OpUpdate <$> [sws]) with [Group.OpUpdate sws].
    unfold Group.exec, Group.run_op. by rewrite Hup.
  - by rewrite last_snoc.
  - unfold applied_initial. rewrite Hpc. split.
    + intros [_ [=]]%app_eq_nil.
    + by destruct p.
Qed.

Lemma group_history_stop (c : @scrapeConfig Config) lists cfg :
  pc c = Selecting cfg ->
  group_history key fl c lists ->
  group_history key fl
    {| scName := scName c; checkInterval := checkInterval c;
       cfgCh := cfgCh c; pc := Exited; swsPrev := swsPrev c;
       sg := Group.stop (sg c) |} lists.
Proof.
  intros Hpc (Hx & Hs & Hl). unfold group_history, group_ops in *.
  unfold exited, applied_initial in *. rewrite Hpc in Hx, Hl. simpl.
  rewrite app_nil_r in Hx. split_and!; [|done|done].
  by rewrite exec_app, Hx.
Qed.

Lemma scfg_histories (s : @system Config) i c a o lists :
  is_Some (Group.m (sg c)) ->
  scfg_transition key fl s i c a o ->
  group_history key fl c lists ->
  exists lists', group_history key fl (outcome_state o) lists'.
Proof.
  intros Hopen Ht Hh. destruct Ht; simpl.
  - exists lists. apply group_history_with_pc; try done.
    + unfold exited. simpl. by rewrite H.
    + unfold applied_initial. simpl. by rewrite H.
  - exists (lists ++ [sws]). apply group_history_update; try done.
    unfold exited. by rewrite H.
  - exists lists. apply group_history_with_pc; try done.
    + unfold exited. simpl. by rewrite H.
    + unfold applied_initial. simpl. by rewrite H.
  - exists (lists ++ [sws]). apply group_history_update; try done.
    unfold exited. by rewrite H.
  - exists (lists ++ [sws]). apply group_history_update; try done.
    unfold exited. by rewrite H.
  - exists lists. by eapply group_history_stop.
Qed.

Lemma step_histories (s s' : @system Config) a :
  groups_open s ->
  Forall (fun c => exists lists, group_history key fl c lists) (scfgs s) ->
  step key fl s a = Some s' ->
  Forall (fun c => exists lists, group_history key fl c lists) (scfgs s').
Proof.
  intros Hopen Hall [Hp Hc]%step_cases. unfold groups_open in Hopen.
  destruct a;
    try (destruct Hc as (i' & c & o & Hi & Ht & ->);
         match goal with |- context [after_scfg ?i ?a ?o ?s] =>
           destruct (after_scfg_fields i a o s) as (-> & _)
         end;
         apply Forall_insert; [done|];
         destruct (Forall_lookup_1 _ _ _ _ Hall Hi) as [lists Hh];
         eapply scfg_histories; [|done|done];
         eapply (Forall_lookup_1 _ _ _ _ Hopen Hi);
         by destruct (scfg_transition_fields _ _ _ _ _ _ _ Ht)
           as (_ & _ & ? & _)).
  - destruct Hc as [Hpc ->]. by case_decide; [|destruct r].
  - destruct Hc as (cfg & data & nm & iv & todo & Hpc & ->).
    assert (Forall (fun c => exists lists, group_history key fl c lists)
              (scfgs (add nm iv s))) as Hadd.
    { unfold add. simpl. apply Forall_app. split; [done|].
      constructor; [|done]. exists []. apply group_history_new. }
    destruct todo; [|done].
    by destruct (fanout_from_fields cfg data 0 (add nm iv s)) as (-> & _).
  - destruct Hc as (cfg & data & i & c & Hpc & Hi & Hch & ->).
    match goal with |- context [fanout_from ?a ?b ?c ?x] =>
      destruct (fanout_from_fields a b c x) as (-> & _)
    end.
    simpl. apply Forall_insert; [done|].
    destruct (Forall_lookup_1 _ _ _ _ Hall Hi) as [lists Hh].
    exists lists. by apply group_history_with_pc.
  - destruct Hc as (cfg & data & Hpc & ->).
    by destruct (reload_fields cfg data true r s) as (-> & _).
  - destruct Hc as (cfg & data & Hpc & _ & ->).
    by destruct (reload_fields cfg data false r s) as (-> & _).
  - by destruct Hc as (cfg & data & Hpc & Hg & ->).
  - by destruct Hc as (Hpc & Hall' & ->).
  - subst s'. by destruct (globalStopClosed s).
Qed.

Lemma run_histories acts : forall s s' : @system Config,
  groups_open s
  /\ Forall (fun c => exists lists, group_history key fl c lists) (scfgs s) ->
  run key fl s acts = Some s' ->
  groups_open s'
  /\ Forall (fun c => exists lists, group_history key fl c lists) (scfgs s').
Proof.
  apply run_invariant. intros s s' a [Ho Hh] Hstep. split.
  - by eapply step_groups_open.
  - by eapply step_histories.
Qed.


(** *** After the shutdown *)

Lemma group_history_exited (c : @scrapeConfig Config) lists :
  pc c = Exited -> group_history key fl c lists -> stopped c.
Proof.
  intros Hpc (Hx & _). unfold group_ops, exited in Hx. rewrite Hpc in Hx.
  rewrite exec_app in Hx.
  destruct (Group.exec key _ _ (Group.OpUpdate <$> lists)) as [g|g] eqn:Hg;
    [|done].
  simpl in Hx. inversion Hx as [Hsg]. split_and!; [done| |].
  - by rewrite <- Hsg, GroupFacts.stop_eq.
  - rewrite <- Hsg. apply (GroupFacts.stop_alive_nil key).
    eapply GroupFacts.exec_Done_consistent; [exact Hg|].
    apply GroupFacts.consistent_new.
Qed.

(** X18. When [runScraper] has returned, and so when [Stop()] returns,
    every scrape config is stopped: its goroutine has returned, the map of
    its group is nil, and every worker its group ever spawned has had its
    stop channel closed. *)
Theorem Stop_returns_all_stopped acts (s : @system Config) :
  run key fl init acts = Some s ->
  rpc s = RReturned ->
  Forall stopped (scfgs s).
Proof.
  intros Hrun Hret.
  destruct (run_histories acts init s) as [_ Hh];
    [split; [apply groups_open_init|done]|done|].
  destruct (run_shutdown_order_fed key fl acts init s)
    as [(_ & _ & _ & HD & _) _];
    [split; [apply shutdown_order_init|apply fed_init]|done|].
  specialize (HD Hret).
  apply Forall_forall. intros c Hc.
  rewrite Forall_forall in HD, Hh.
  destruct (Hh c Hc) as [lists Hl].
  eapply group_history_exited; [by apply HD|done].
Qed.

End Histories.

Section Reloads.

Context {Config : Type}.
Variable key : ScrapeWork -> string.
Variable fl : flags.

(** *** Reloads that fail, reloads that change the config *)

(** X19. A reload (SIGHUP, or a tick when the check interval is positive)
    whose [loadConfig] fails is logged and otherwise ignored: the runner
    stays in the select with the previous config and bytes, nothing is
    sent to any scrape config and the reload counter does not move. *)
Theorem failed_reload_keeps_config (s : @system Config) cfg data err
    (sighup : bool) :
  panicked s = false ->
  rpc s = RSelect cfg data ->
  (sighup = false -> (0 < configCheckInterval fl)%Z) ->
  step key fl s (reload_event sighup (LoadErr err))
  = Some {| PendingScrapeConfigs := PendingScrapeConfigs s;
            rpc := RSelect cfg data;
            scfgs := scfgs s;
            scsStopClosed := scsStopClosed s;
            globalStopClosed := globalStopClosed s;
            configReloads := configReloads s;
            rlog := rlog s ++ (if sighup then [LogSighup] else [])
                    ++ [LogReloadFailed err];
            panicked := false |}.
Proof.
  intros Hp Hpc Htick. unfold step, reload_event. rewrite Hp.
  destruct sighup; simpl; unfold runner_step; rewrite Hpc.
  - unfold reload, logr. simpl. by rewrite Hpc, Hp, <- app_assoc.
  - rewrite decide_True by auto. unfold reload, logr. simpl.
    by rewrite Hpc, Hp.
Qed.

(** X20. A reload whose bytes differ from the ones loaded before is
    applied: the runner takes the new config and bytes, logs "found
    changes", increments the reload counter once and starts the fan-out at
    the first scrape config; the scrape configs themselves are not touched
    by this step. *)
Theorem changed_reload_applied (s : @system Config) cfg data cfgNew dataNew
    (sighup : bool) :
  panicked s = false ->
  rpc s = RSelect cfg data ->
  bytes_Equal data dataNew = false ->
  (sighup = false -> (0 < configCheckInterval fl)%Z) ->
  step key fl s (reload_event sighup (LoadOk cfgNew dataNew))
  = Some {| PendingScrapeConfigs := PendingScrapeConfigs s;
            rpc := if decide (0 < length (scfgs s))
                   then RFanout cfgNew dataNew 0
                   else RSelect cfgNew dataNew;
            scfgs := scfgs s;
            scsStopClosed := scsStopClosed s;
            globalStopClosed := globalStopClosed s;
            configReloads := S (configReloads s);
            rlog := rlog s ++ (if sighup then [LogSighup] else [])
                    ++ [LogFoundChanges];
            panicked := false |}.
Proof.
  intros Hp Hpc Hne Htick. unfold step, reload_event. rewrite Hp.
  destruct sighup; simpl; unfold runner_step; rewrite Hpc.
  - unfold reload. rewrite Hne. unfold fanout_from, logr, set_rpc. simpl.
    rewrite Hp, <- app_assoc. by case_decide.
  - rewrite decide_True by auto. unfold reload. rewrite Hne.
    unfold fanout_from, logr, set_rpc. simpl. rewrite Hp. by case_decide.
Qed.

(** *** A config that cannot be read at startup *)

(** X21. With a config file that [loadConfig] cannot read, [runScraper]
    ends in [logger.Fatalf] right after its first log line: in every state
    the process reaches without a crash before [runScraper] has run, that
    step leaves no scrape config and no pending count behind, and
    afterwards neither the runner nor a scrape config takes another step.
    (The only crash of the process is the panic of a second [Stop()].) *)
Theorem startup_load_error_is_fatal acts (s : @system Config) err :
  promscrapeConfigFile fl <> "" ->
  run key fl init acts = Some s ->
  panicked s = false ->
  rpc s = RStart ->
  exists s',
    step key fl s (ARunnerStart (LoadErr err)) = Some s'
    /\ rpc s' = RFatal
    /\ scfgs s' = []
    /\ PendingScrapeConfigs s' = 0%Z
    /\ rlog s' = rlog s ++ [LogReading; LogFatal err]
    /\ forall a s'', step key fl s' a = Some s'' -> a = AStop.
Proof.
  intros Hfile Hrun Hp Hpc.
  pose proof (run_inv key fl acts init s (inv_init fl) Hrun)
    as (Hpend & _ & Hm).
  rewrite Hpc in Hm.
  eexists. split_and!.
  - unfold step. rewrite Hp. simpl. unfold runner_step.
    rewrite Hpc, decide_False by done. done.
  - done.
  - done.
  - simpl. by rewrite Hpend, Hm.
  - simpl. by rewrite <- app_assoc.
  - intros a s'' [_ Hc]%step_cases.
    destruct a; try done; simpl in Hc;
      try (by destruct Hc as (? & ? & ? & ? & ? & ? & ?));
      try (by destruct Hc as (? & ? & ? & ?));
      try (by destruct Hc as (? & ? & ?));
      try (by destruct Hc as (? & ?)).
    all: destruct Hc as (i' & c' & o' & Hi & _); by rewrite Hm in Hi.
Qed.

(** *** The fan-out, send by send *)

Lemma with_buffers_id (l : list (@scrapeConfig Config)) :
  with_buffers l (cfgCh <$> l) = l.
Proof.
  induction l as [|c l IH]; [done|]. unfold with_buffers. simpl.
  f_equal; [by destruct c|apply IH].
Qed.

Lemma run_cons_Some (s s1 : @system Config) a acts :
  step key fl s a = Some s1 ->
  run key fl s (a :: acts) = run key fl s1 acts.
Proof. intros H. simpl. by rewrite H. Qed.

Lemma fanout_steps cfg data rest : forall sent (s : @system Config),
  scfgs s = sent ++ rest ->
  rpc s = RFanout cfg data (length sent) ->
  rest <> [] ->
  panicked s = false ->
  match Chan.updateConfig cfg (cfgCh <$> rest) with
  | Chan.Delivered chs =>
      run key fl s (replicate (length rest) ARunnerSend)
      = Some (set_rpc (RSelect cfg data)
                (set_scfgs (sent ++ with_buffers rest chs) s))
  | Chan.Blocked j chs =>
      run key fl s (replicate j ARunnerSend)
      = Some (set_rpc (RFanout cfg data (length sent + j))
                (set_scfgs (sent ++ with_buffers rest chs) s))
      /\ step key fl
           (set_rpc (RFanout cfg data (length sent + j))
              (set_scfgs (sent ++ with_buffers rest chs) s))
           ARunnerSend = None
  end.
Proof.
  induction rest as [|c rest IH]; intros sent s Hs Hpc Hne Hp; [done|].
  assert (scfgs s !! length sent = Some c) as Hi.
  { rewrite Hs. by rewrite list_lookup_middle. }
  change (cfgCh <$> c :: rest) with (cfgCh c :: (cfgCh <$> rest)).
  cbn [Chan.updateConfig].
  destruct (cfgCh c) as [old|] eqn:Hch; cbn [Chan.send].
  - (* the buffer is full: the runner is suspended here *)
    match goal with |- context [with_buffers ?l ?chs] =>
      assert (with_buffers l chs = c :: rest) as ->
    end.
    { unfold with_buffers. simpl. f_equal.
      - destruct c. simpl in Hch. by subst.
      - apply with_buffers_id. }
    rewrite <- Hs, Nat.add_0_r, <- Hpc.
    assert (set_rpc (rpc s) (set_scfgs (scfgs s) s) = s) as ->
      by (by destruct s).
    split; [done|]. by eapply runner_send_suspended.
  - (* the buffer is empty: the send goes through *)
    set (c' := with_pc (pc c) (Some cfg) c).
    assert (<[length sent := c']> (scfgs s) = sent ++ c' :: rest) as Hins.
    { rewrite Hs. rewrite insert_app_r_alt by lia.
      by rewrite Nat.sub_diag. }
    assert (step key fl s ARunnerSend
            = Some (fanout_from cfg data (S (length sent))
                      (set_scfgs (sent ++ c' :: rest) s))) as Hstep.
    { unfold step. rewrite Hp. simpl. unfold runner_step.
      rewrite Hpc, Hi. simpl. rewrite Hch. simpl. fold c'. by rewrite Hins. }
    destruct rest as [|c2 rest].
    + change (replicate (length [c]) (@ARunnerSend Config))
        with [@ARunnerSend Config].
      rewrite (run_cons_Some _ _ _ _ Hstep). simpl. unfold fanout_from.
      simpl. rewrite decide_False; [done|]. rewrite length_app. simpl. lia.
    + set (s1 := set_rpc (RFanout cfg data (S (length sent)))
                   (set_scfgs (sent ++ c' :: c2 :: rest) s)).
      assert (fanout_from cfg data (S (length sent))
                (set_scfgs (sent ++ c' :: c2 :: rest) s) = s1) as Hf.
      { unfold fanout_from. simpl. rewrite decide_True; [done|].
        rewrite length_app. simpl. lia. }
      rewrite Hf in Hstep.
      specialize (IH (sent ++ [c']) s1).
      rewrite length_app in IH. simpl length in IH.
      rewrite Nat.add_1_r in IH.
      specialize (IH ltac:(by rewrite <- app_assoc) eq_refl
                    ltac:(done) Hp).
      destruct (Chan.updateConfig cfg (cfgCh <$> c2 :: rest))
        as [chs|j chs].
      * change (replicate (length (c :: c2 :: rest)) (@ARunnerSend Config))
          with (@ARunnerSend Config
                :: replicate (S (length rest)) ARunnerSend).
        rewrite (run_cons_Some _ _ _ _ Hstep), IH.
        unfold Chan.shift, with_buffers. simpl. by rewrite <- app_assoc.
      * destruct IH as [IH1 IH2]. unfold Chan.shift.
        change (replicate (S j) (@ARunnerSend Config))
          with (@ARunnerSend Config :: replicate j ARunnerSend).
        rewrite (run_cons_Some _ _ _ _ Hstep), IH1.
        replace (length sent + S j) with (S (length sent) + j) by lia.
        unfold with_buffers in *. simpl. rewrite <- app_assoc in *.
        simpl in *. done.
Qed.

(** X22. The sends of the runner implement [scrapeConfigs.updateConfig]:
    from the head of the loop, if [updateConfig] on the current buffers
    delivers to all, then as many send steps as there are scrape configs
    bring the runner to the select with exactly those buffers; and if it
    blocks at the i-th buffer, then i send steps go through, leave exactly
    the buffers it describes, and the next send is not enabled.  Nothing
    but the buffers changes on the way. *)
Theorem fanout_refines_updateConfig (s : @system Config) cfg data :
  panicked s = false ->
  rpc s = RFanout cfg data 0 ->
  scfgs s <> [] ->
  match Chan.updateConfig cfg (cfgCh <$> scfgs s) with
  | Chan.Delivered chs =>
      run key fl s (replicate (length (scfgs s)) ARunnerSend)
      = Some (set_rpc (RSelect cfg data)
                (set_scfgs (with_buffers (scfgs s) chs) s))
  | Chan.Blocked i chs =>
      run key fl s (replicate i ARunnerSend)
      = Some (set_rpc (RFanout cfg data i)
                (set_scfgs (with_buffers (scfgs s) chs) s))
      /\ step key fl
           (set_rpc (RFanout cfg data i)
              (set_scfgs (with_buffers (scfgs s) chs) s))
           ARunnerSend = None
  end.
Proof.
  intros Hp Hpc Hne.
  apply (fanout_steps cfg data (scfgs s) [] s); done.
Qed.

End Reloads.

Section Progress.

Context {Config : Type}.
Variable key : ScrapeWork -> string.
Variable fl : flags.

(** *** The shutdown cannot get stuck *)

Lemma step_returned_with (s s' : @system Config) a :
  inv fl s -> returned_with fl s -> step key fl s a = Some s' ->
  returned_with fl s'.
Proof.
  intros (_ & _ & Hm) Hret [Hp Hc]%step_cases. unfold returned_with in *.
  destruct a;
    try (destruct Hc as (i' & c & o & Hi & Ht & ->);
         match goal with |- context [after_scfg ?i ?a ?o ?s] =>
           destruct (after_scfg_fields i a o s) as (-> & -> & _)
         end;
         intros Hr Hf Hnil; apply (f_equal length) in Hnil;
         rewrite length_insert in Hnil;
         apply (Hret Hr Hf); by apply nil_length_inv).
  - destruct Hc as [Hpc ->]. by case_decide; [|destruct r].
  - destruct Hc as (cfg & data & nm & iv & todo & Hpc & ->).
    destruct todo; [|done].
    by destruct (fanout_from_fields cfg data 0 (add nm iv s))
      as (_ & _ & _ & _ & _ & [[-> _]|[-> _]]).
  - destruct Hc as (cfg & data & i & c & Hpc & Hi & Hch & ->).
    match goal with |- context [fanout_from ?a ?b ?c ?x] =>
      by destruct (fanout_from_fields a b c x)
        as (_ & _ & _ & _ & _ & [[-> _]|[-> _]])
    end.
  - destruct Hc as (cfg & data & Hpc & ->).
    destruct (reload_fields cfg data true r s)
      as (_ & _ & _ & _ & [Hr|(cfgNew & dataNew & _ & _ & Hr)]);
      simpl in Hr; rewrite Hr, ?Hpc; [done|by case_decide].
  - destruct Hc as (cfg & data & Hpc & _ & ->).
    destruct (reload_fields cfg data false r s)
      as (_ & _ & _ & _ & [Hr|(cfgNew & dataNew & _ & _ & Hr)]);
      simpl in Hr; rewrite Hr, ?Hpc; [done|by case_decide].
  - by destruct Hc as (cfg & data & Hpc & Hg & ->).
  - destruct Hc as (Hpc & Hall & ->). simpl. rewrite Hpc in Hm.
    intros _ _ Hnil. by rewrite Hnil in Hm.
  - subst s'. by destruct (globalStopClosed s).
Qed.

Lemma sound_init : sound fl (@init Config).
Proof.
  split_and!; [apply inv_init|apply groups_open_init
              |apply shutdown_order_init|apply fed_init|done].
Qed.

Lemma step_sound (s s' : @system Config) a :
  sound fl s -> step key fl s a = Some s' -> sound fl s'.
Proof.
  intros (Hi & Ho & Hs & Hf & Hr) Hstep. split_and!.
  - by destruct (step_inv key fl s s' a Hi Hstep).
  - by eapply step_groups_open.
  - by eapply step_shutdown_order.
  - by eapply step_fed.
  - by eapply step_returned_with.
Qed.

Lemma run_sound acts : forall s s' : @system Config,
  sound fl s -> run key fl s acts = Some s' -> sound fl s'.
Proof. apply run_invariant. intros. by eapply step_sound. Qed.

Lemma weights_insert (l : list (@scrapeConfig Config)) i c c' :
  l !! i = Some c ->
  sum_list_with scfg_weight (<[i := c']> l) + scfg_weight c
  = sum_list_with scfg_weight l + scfg_weight c'.
Proof.
  generalize (@scfg_weight Config). intros f.
  revert i. induction l as [|x l IH]; intros i Hi; [done|].
  destruct i as [|i]; simpl in *.
  - inversion Hi; subst. lia.
  - specialize (IH i Hi). lia.
Qed.

Lemma transition_step (s : @system Config) i c a o :
  scfgs s !! i = Some c ->
  scfg_transition key fl s i c a o ->
  scfg_step key fl s a = Some (after_scfg i a o s).
Proof.
  intros Hi Ht. destruct Ht; simpl; rewrite Hi; simpl;
    repeat match goal with H : pc c = _ |- _ => rewrite H; clear H end;
    repeat match goal with H : cfgCh c = _ |- _ => rewrite H; clear H end;
    simpl; try done.
  - by rewrite decide_True.
  - by match goal with H : scsStopClosed s = true |- _ => rewrite H end.
Qed.

(** A step of a scrape config that brings it closer to its return brings
    the process closer to the end of the shutdown, and does not panic. *)
Lemma scfg_progress (s : @system Config) i c a o :
  panicked s = false ->
  groups_open s ->
  scfgs s !! i = Some c ->
  scfg_transition key fl s i c a o ->
  scfg_weight (outcome_state o) < scfg_weight c ->
  exists s', step key fl s a = Some s'
             /\ steps_left fl s' < steps_left fl s
             /\ rpc s' = rpc s
             /\ panicked s' = false.
Proof.
  intros Hp Hopen Hi Ht Hlt. exists (after_scfg i a o s).
  destruct (after_scfg_fields i a o s) as (Hs & Hr & _ & Hg & _).
  assert (step key fl s a = Some (after_scfg i a o s)) as Hstep.
  { unfold step. rewrite Hp.
    rewrite <- (transition_step s i c a o Hi Ht). by destruct Ht. }
  split_and!.
  - done.
  - unfold steps_left. rewrite Hs, Hr, Hg, length_insert.
    pose proof (weights_insert (scfgs s) i c (outcome_state o) Hi). lia.
  - done.
  - rewrite (step_panicked key fl _ _ _ Hopen Hstep). by destruct Ht.
Qed.

(** A scrape config that has its first config, or has had it, and has not
    returned can take a step towards its return: receive the config, run
    the first reconcile, report, and return once [scs.stopCh] is closed. *)
Lemma scfg_can_advance (s : @system Config) i c :
  panicked s = false ->
  groups_open s ->
  scfgs s !! i = Some c ->
  ~ untouched c ->
  pc c <> Exited ->
  (forall cfg, pc c = Selecting cfg -> scsStopClosed s = true) ->
  exists a s', step key fl s a = Some s'
               /\ steps_left fl s' < steps_left fl s
               /\ rpc s' = rpc s
               /\ panicked s' = false.
Proof.
  intros Hp Hopen Hi Hu Hne Hsel.
  destruct (pc c) as [|cfg|cfg|cfg|] eqn:Hpc.
  - destruct (cfgCh c) as [cfg|] eqn:Hch; [|by destruct Hu].
    eexists. eapply (scfg_progress s i c); [done|done|done| |].
    + by eapply trans_recv.
    + unfold scfg_weight. simpl. rewrite Hpc, Hch. lia.
  - eexists. eapply (scfg_progress s i c); [done|done|done| |].
    + by eapply (trans_first _ _ _ _ _ cfg []).
    + destruct (updateScrapeWork_fields key fl c [] (ReportReady cfg)
                  (cfgCh c)) as (_ & _ & Hch & Hpc' & _).
      unfold scfg_weight. rewrite Hch, Hpc', Hpc. lia.
  - eexists. eapply (scfg_progress s i c); [done|done|done| |].
    + by eapply trans_report.
    + unfold scfg_weight. simpl. rewrite Hpc. lia.
  - eexists. eapply (scfg_progress s i c); [done|done|done| |].
    + eapply trans_stop; [done|]. by eapply Hsel.
    + unfold scfg_weight. simpl. rewrite Hpc. lia.
  - done.
Qed.

(** A scrape config with a config in its buffer can take a step that
    brings it closer to its return or empties the buffer. *)
Lemma scfg_can_drain (s : @system Config) i c old :
  panicked s = false ->
  groups_open s ->
  scfgs s !! i = Some c ->
  cfgCh c = Some old ->
  pc c <> Exited ->
  exists a s', step key fl s a = Some s'
               /\ steps_left fl s' < steps_left fl s
               /\ rpc s' = rpc s
               /\ panicked s' = false.
Proof.
  intros Hp Hopen Hi Hch Hne.
  destruct (pc c) as [|cfg|cfg|cfg|] eqn:Hpc; [| | | |done].
  - eexists. eapply (scfg_progress s i c); [done|done|done| |].
    + by eapply trans_recv.
    + unfold scfg_weight. simpl. rewrite Hpc, Hch. lia.
  - eexists. eapply (scfg_progress s i c); [done|done|done| |].
    + by eapply (trans_first _ _ _ _ _ cfg []).
    + destruct (updateScrapeWork_fields key fl c [] (ReportReady cfg)
                  (cfgCh c)) as (_ & _ & Hch' & Hpc' & _).
      unfold scfg_weight. rewrite Hch', Hpc', Hpc. lia.
  - eexists. eapply (scfg_progress s i c); [done|done|done| |].
    + by eapply trans_report.
    + unfold scfg_weight. simpl. rewrite Hpc. lia.
  - eexists. eapply (scfg_progress s i c); [done|done|done| |].
    + by eapply (trans_config _ _ _ _ _ cfg old []).
    + destruct (updateScrapeWork_fields key fl c [] (Selecting old) None)
        as (_ & _ & Hch' & Hpc' & _).
      unfold scfg_weight. rewrite Hch', Hpc', Hpc, Hch. lia.
Qed.


(** Until it waits in its select for the first time, [runScraper] can
    always take its next step, or the scrape config whose full buffer
    suspends it can. *)
Lemma setup_progress (s : @system Config) (cfg0 : Config) :
  sound fl s ->
  panicked s = false ->
  match rpc s with
  | RStart | RAdding _ _ _ | RFanout _ _ _ => True
  | _ => False
  end ->
  exists a s', step key fl s a = Some s'
               /\ steps_left fl s' < steps_left fl s
               /\ rpc s' <> RFatal
               /\ panicked s' = false.
Proof.
  intros (Hinv & Hopen & Hord & Hfed & _) Hp Hwhere.
  pose proof Hord as (HA & HB & HC & HD & HE & HF).
  destruct (rpc s) as [|cfg data todo|cfg data i|cfg data| | |] eqn:Hpc;
    [| | |done..].
  - (* RStart *)
    exists (ARunnerStart (LoadOk cfg0 [])).
    destruct (decide (promscrapeConfigFile fl = "")) as [He|He].
    + exists (set_rpc RReturned s). split_and!; [| |done|done].
      * unfold step. rewrite Hp. simpl. unfold runner_step.
        by rewrite Hpc, decide_True.
      * unfold steps_left. cbn [rpc scfgs globalStopClosed set_rpc].
        rewrite Hpc. cbn [runner_weight]. lia.
    + exists (set_rpc (RAdding cfg0 [] (categories fl)) (logr LogReading s)).
      split_and!; [| |done|done].
      * unfold step. rewrite Hp. simpl. unfold runner_step.
        by rewrite Hpc, decide_False.
      * unfold steps_left. cbn [rpc scfgs globalStopClosed set_rpc logr].
        rewrite Hpc, (HE eq_refl). cbn [runner_weight length].
        rewrite categories_length. lia.
  - (* RAdding *)
    destruct Hinv as (_ & _ & Hm). rewrite Hpc in Hm.
    destruct Hm as (_ & Htodo & _).
    destruct todo as [|[nm iv] todo]; [done|].
    exists ARunnerAdd.
    assert (forall s1 : @system Config,
              scfgs s1 = scfgs (add nm iv s) ->
              globalStopClosed s1 = globalStopClosed s ->
              rpc s1 = (if decide (todo = [])
                        then RFanout cfg data 0
                        else RAdding cfg data todo) ->
              steps_left fl s1 < steps_left fl s) as Hless.
    { intros s1 Hs1 Hg1 Hr1. unfold steps_left.
      rewrite Hs1, Hg1, Hr1, Hpc. unfold add.
      cbn [scfgs set_scfgs add_pending].
      rewrite sum_list_with_app, length_app. cbn [sum_list_with length].
      assert (scfg_weight
                ({| scName := nm; checkInterval := iv; cfgCh := None;
                    pc := AwaitInitial; swsPrev := [];
                    sg := Group.newScraperGroup nm |}
                 : @scrapeConfig Config) = 4) as -> by done.
      destruct (globalStopClosed s);
        case_decide; subst; cbn [runner_weight length]; lia. }
    destruct todo as [|e todo].
    + destruct (fanout_from_fields cfg data 0 (add nm iv s))
        as (Hs1 & _ & Hg1 & _ & _ & [[Hr1 _]|[Hr1 Hlen]]).
      * eexists. split_and!.
        -- unfold step. rewrite Hp. simpl. unfold runner_step.
           by rewrite Hpc.
        -- by apply Hless.
        -- by rewrite Hr1.
        -- by destruct (fanout_from_scfgs cfg data 0 (add nm iv s))
             as [_ ->].
      * exfalso. apply Hlen. unfold add. simpl. rewrite length_app.
        simpl. lia.
    + eexists. split_and!.
      * unfold step. rewrite Hp. simpl. unfold runner_step. by rewrite Hpc.
      * by apply Hless.
      * done.
      * done.
  - (* RFanout *)
    pose proof (HF _ _ _ eq_refl) as Hlt.
    destruct (lookup_lt_is_Some_2 _ _ Hlt) as [c Hi].
    assert (pc c <> Exited) as Hne.
    { intros He. eapply Forall_lookup_1 in HC; [|exact Hi].
      rewrite (HC He) in HB. done. }
    destruct (cfgCh c) as [old|] eqn:Hch.
    + destruct (scfg_can_drain s i c old Hp Hopen Hi Hch Hne)
        as (a & s' & Hs & Hm & Hr & Hp').
      exists a, s'. split_and!; [done|done| |done]. by rewrite Hr, Hpc.
    + exists ARunnerSend.
      set (c' := with_pc (pc c) (Some cfg) c).
      set (l' := <[i := c']> (scfgs s)).
      exists (fanout_from cfg data (S i) (set_scfgs l' s)).
      pose proof (weights_insert (scfgs s) i c c' Hi) as Hw. fold l' in Hw.
      assert (scfg_weight c' = scfg_weight c + 1) as Hc'.
      { unfold scfg_weight, c'. simpl. rewrite Hch. lia. }
      assert (length l' = length (scfgs s)) as Hlen
        by (subst l'; by rewrite length_insert).
      destruct (fanout_from_fields cfg data (S i) (set_scfgs l' s))
        as (Hs1 & _ & Hg1 & _ & _ & Hr1).
      cbn [scfgs set_scfgs globalStopClosed] in Hs1, Hg1, Hr1.
      split_and!.
      * unfold step. rewrite Hp. simpl. unfold runner_step.
        rewrite Hpc, Hi. simpl. rewrite Hch. simpl. done.
      * unfold steps_left. rewrite Hs1, Hg1, Hlen, Hpc.
        destruct Hr1 as [[-> Hlt']|[-> Hge]]; cbn [runner_weight];
          rewrite Hlen in *; lia.
      * by destruct Hr1 as [[-> _]|[-> _]].
      * by destruct (fanout_from_scfgs cfg data (S i) (set_scfgs l' s))
          as [_ ->].
Qed.


Lemma run_app acts1 : forall acts2 (s : @system Config),
  run key fl s (acts1 ++ acts2)
  = s' ← run key fl s acts1; run key fl s' acts2.
Proof.
  induction acts1 as [|a acts1 IH]; intros acts2 s; simpl; [done|].
  destruct (step key fl s a); simpl; [apply IH|done].
Qed.



End Progress.

Section Ledger.

Context {Config : Type}.
Variable key : ScrapeWork -> string.
Variable fl : flags.

(** *** The ledger of the pending counter *)

Lemma adds_app (acts1 acts2 : list (@action Config)) :
  adds (acts1 ++ acts2) = adds acts1 + adds acts2.
Proof. unfold adds. by rewrite List.filter_app, length_app. Qed.

Lemma adds_snoc (acts : list (@action Config)) a :
  adds (acts ++ [a]) = adds acts + (if is_add a then 1 else 0).
Proof. rewrite adds_app. unfold adds. simpl. by destruct (is_add a). Qed.

Lemma run_snoc acts a (s s' : @system Config) :
  run key fl s (acts ++ [a]) = Some s' ->
  exists s1, run key fl s acts = Some s1 /\ step key fl s1 a = Some s'.
Proof.
  rewrite run_app. destruct (run key fl s acts) as [s1|]; simpl; [|done].
  destruct (step key fl s1 a) as [s2|] eqn:Hs; simpl; [|done].
  intros [= <-]. by exists s1.
Qed.

(** What a statement of a scrape config does to its two flags: the first
    [updateScrapeWork] sets the first, the decrement sets the second, and
    each runs with its flag down. *)
Lemma transition_flags (s : @system Config) i c a o :
  scfg_transition key fl s i c a o ->
  match a with
  | AScFirstReconcile j _ =>
      j = i
      /\ (applied_initial c, reported c) = (false, false)
      /\ (applied_initial (outcome_state o), reported (outcome_state o))
         = (true, false)
  | AScReport j =>
      j = i
      /\ (applied_initial c, reported c) = (true, false)
      /\ (applied_initial (outcome_state o), reported (outcome_state o))
         = (true, true)
  | _ =>
      (applied_initial (outcome_state o), reported (outcome_state o))
      = (applied_initial c, reported c)
  end.
Proof.
  intros Ht. destruct Ht; unfold applied_initial, reported;
    try (destruct (updateScrapeWork_fields key fl c sws (ReportReady cfg)
                     (cfgCh c)) as (_ & _ & _ & -> & _));
    try (destruct (updateScrapeWork_fields key fl c sws (Selecting cfg) None)
           as (_ & _ & _ & -> & _));
    try (destruct (updateScrapeWork_fields key fl c sws (Selecting cfg)
                     (cfgCh c)) as (_ & _ & _ & -> & _));
    simpl;
    repeat match goal with H : pc c = _ |- _ => rewrite H; clear H end;
    done.
Qed.

(** What a step of the process does to the flags of the scrape configs. *)
Lemma step_flags (s s' : @system Config) a :
  step key fl s a = Some s' ->
  match a with
  | ARunnerAdd => progress_flags s' = progress_flags s ++ [(false, false)]
  | AScFirstReconcile i _ =>
      progress_flags s !! i = Some (false, false)
      /\ progress_flags s' = <[i := (true, false)]> (progress_flags s)
  | AScReport i =>
      progress_flags s !! i = Some (true, false)
      /\ progress_flags s' = <[i := (true, true)]> (progress_flags s)
  | _ => progress_flags s' = progress_flags s
  end.
Proof.
  intros [Hp Hc]%step_cases. unfold progress_flags.
  destruct a;
    try (destruct Hc as (i' & c & o & Hi & Ht & ->);
         pose proof (transition_flags _ _ _ _ _ Ht) as Hf; simpl in Hf;
         match goal with |- context [after_scfg ?i ?a ?o ?s] =>
           destruct (after_scfg_fields i a o s) as (-> & _)
         end;
         rewrite list_fmap_insert;
         first [ destruct Hf as (-> & Hc0 & ->);
                 split; [by rewrite list_lookup_fmap, Hi; simpl; rewrite Hc0
                        |done]
               | rewrite Hf; apply list_insert_id;
                 by rewrite list_lookup_fmap, Hi ]).
  - destruct Hc as [Hpc ->]. by case_decide; [|destruct r].
  - destruct Hc as (cfg & data & nm & iv & todo & Hpc & ->).
    assert ((fun c : @scrapeConfig Config => (applied_initial c, reported c))
              <$> scfgs (add nm iv s)
            = ((fun c => (applied_initial c, reported c)) <$> scfgs s)
              ++ [(false, false)]) as Hadd.
    { unfold add. simpl. by rewrite fmap_app. }
    destruct todo; [|done].
    by destruct (fanout_from_fields cfg data 0 (add nm iv s)) as (-> & _).
  - destruct Hc as (cfg & data & i & c & Hpc & Hi & Hch & ->).
    match goal with |- context [fanout_from ?a ?b ?c ?x] =>
      destruct (fanout_from_fields a b c x) as (-> & _)
    end.
    simpl. rewrite list_fmap_insert. apply list_insert_id.
    by rewrite list_lookup_fmap, Hi.
  - destruct Hc as (cfg & data & Hpc & ->).
    by destruct (reload_fields cfg data true r s) as (-> & _).
  - destruct Hc as (cfg & data & Hpc & _ & ->).
    by destruct (reload_fields cfg data false r s) as (-> & _).
  - by destruct Hc as (cfg & data & Hpc & Hg & ->).
  - by destruct Hc as (Hpc & Hall' & ->).
  - subst s'. by destruct (globalStopClosed s).
Qed.

(** The ledger: in every state the process reaches, the scrape configs
    are the ones the schedule added, the counter is the adds minus the
    decrements of the schedule, no scrape config ran the decrement twice,
    and the flags say which ran it and which ran their first reconcile. *)
Lemma run_ledger acts : forall s : @system Config,
  run key fl init acts = Some s ->
  length (progress_flags s) = adds acts
  /\ PendingScrapeConfigs s
     = (Z.of_nat (adds acts) - Z.of_nat (length (reports acts)))%Z
  /\ NoDup (reports acts)
  /\ (forall i, i ∈ reports acts <-> progress_flags s !! i = Some (true, true))
  /\ (forall i, i ∈ first_updates acts
                <-> exists r, progress_flags s !! i = Some (true, r)).
Proof.
  induction acts as [|a acts IH] using rev_ind; intros s Hrun.
  - inversion Hrun; subst. simpl. split_and!; [done|done|constructor|..].
    + intros i. split; [by intros ?%elem_of_nil|done].
    + intros i. split; [by intros ?%elem_of_nil|by intros [? ?]].
  - apply run_snoc in Hrun as (s1 & Hrun1 & Hs).
    destruct (IH s1 Hrun1) as (Hlen & Hpend & Hnd & Hrep & Hfirst).
    pose proof (run_inv key fl _ _ _ (inv_init fl) Hrun1) as Hinv.
    destruct (step_inv key fl _ _ _ Hinv Hs) as (_ & Hdelta & _).
    pose proof (step_flags _ _ _ Hs) as Hfl.
    unfold reports, first_updates in *. rewrite adds_snoc, !omap_app.
    destruct a; simpl in *;
      rewrite ?app_nil_r, ?Nat.add_0_r;
      try (rewrite Hfl; split_and!; [done|lia|done|done|done]).
    + (* scs.add *)
      rewrite Hfl, length_app. simpl. split_and!; [lia|lia|done| |].
      * intros i. rewrite Hrep, lookup_app_Some. split; [by left|].
        intros [H|[_ H]]; [done|].
        by destruct (i - length (progress_flags s1)) as [|[|k]].
      * intros i. rewrite Hfirst. split.
        -- intros [r H]. exists r. apply lookup_app_Some. by left.
        -- intros [r [H|[_ H]]%lookup_app_Some]; [by exists r|].
           by destruct (i - length (progress_flags s1)) as [|[|k]].
    + (* the first updateScrapeWork of i *)
      destruct Hfl as [Hi ->]. rewrite length_insert.
      pose proof (lookup_lt_Some _ _ _ Hi) as Hlt.
      split_and!; [done|lia|done| |].
      * intros j. rewrite Hrep. destruct (decide (j = i)) as [->|Hji].
        -- rewrite list_lookup_insert_eq by done. rewrite Hi.
           split; intros [=].
        -- by rewrite list_lookup_insert_ne.
      * intros j. rewrite elem_of_app, list_elem_of_singleton, Hfirst.
        destruct (decide (j = i)) as [->|Hji].
        -- rewrite list_lookup_insert_eq by done. split; [|by right].
           intros _. by exists false.
        -- rewrite list_lookup_insert_ne by done. split; [|by left].
           by intros [H|H].
    + (* the decrement of i *)
      destruct Hfl as [Hi ->]. rewrite length_insert, length_app.
      pose proof (lookup_lt_Some _ _ _ Hi) as Hlt. simpl.
      split_and!; [done|lia| | |].
      * apply NoDup_app. split_and!; [done| |apply NoDup_singleton].
        intros x Hx ->%list_elem_of_singleton. apply Hrep in Hx.
        congruence.
      * intros j. rewrite elem_of_app, list_elem_of_singleton, Hrep.
        destruct (decide (j = i)) as [->|Hji].
        -- rewrite list_lookup_insert_eq by done. split; [done|by right].
        -- rewrite list_lookup_insert_ne by done. split; [|by left].
           by intros [H|H].
      * intros j. rewrite Hfirst. destruct (decide (j = i)) as [->|Hji].
        -- rewrite list_lookup_insert_eq by done. rewrite Hi.
           split; intros _; [by exists true|by exists false].
        -- by rewrite list_lookup_insert_ne.
Qed.

(** Once the ten scrape configs exist they are the ten categories, and
    every [scs.add] has been made. *)
Lemma inv_all_created (s : @system Config) :
  inv fl s -> length (scfgs s) = 10 ->
  names s = (categories fl).*1 /\ adds_done s = true.
Proof.
  intros (_ & _ & Hm) Hlen. unfold adds_done, names.
  destruct (rpc s); simpl in Hm; try done;
    try (rewrite Hm in Hlen; done).
  - destruct Hm as (Hn & Htodo & _). apply (f_equal length) in Hn.
    rewrite length_app, !length_fmap in Hn. simpl in Hn.
    destruct todo; [done|]. simpl in Hn. lia.
  - destruct Hm as [Hm|Hm]; [by rewrite Hm in Hlen|done].
Qed.

Lemma names_all_created (s : @system Config) :
  names s = (categories fl).*1 -> length (scfgs s) = 10.
Proof.
  unfold names. intros H. apply (f_equal length) in H.
  by rewrite !length_fmap in H.
Qed.

Lemma all_reported_applied (s : @system Config) :
  names s = (categories fl).*1 ->
  Forall (fun c => reported c = true) (scfgs s) ->
  every_category_applied fl s = true.
Proof.
  intros Hn Hall. unfold every_category_applied.
  apply forallb_forall. intros nm Hin%list_elem_of_In.
  rewrite <- Hn in Hin. unfold names in Hin.
  apply list_elem_of_fmap in Hin as (c & -> & Hc).
  apply existsb_exists. exists c. split; [by apply list_elem_of_In|].
  rewrite bool_decide_eq_true_2 by done. simpl.
  rewrite Forall_forall in Hall. specialize (Hall c Hc).
  unfold reported, applied_initial in *. by destruct (pc c).
Qed.

(** *** The counter comes down to zero *)

Lemma not_all_reported (l : list (@scrapeConfig Config)) :
  forallb reported l = false ->
  exists j c, l !! j = Some c /\ reported c = false.
Proof.
  induction l as [|c l IH]; [done|]. simpl.
  destruct (reported c) eqn:He; simpl.
  - intros (j & c' & Hj & Hc')%IH. by exists (S j), c'.
  - intros _. by exists 0, c.
Qed.

(** With a config file, as long as some category has not run the
    decrement, a step towards it is enabled: the next statement of
    [runScraper] up to its first wait in the select, or of a scrape config
    up to its decrement. *)
Lemma pending_progress (s : @system Config) (cfg0 : Config) :
  sound fl s ->
  panicked s = false ->
  rpc s <> RFatal ->
  promscrapeConfigFile fl <> "" ->
  (names s = (categories fl).*1
   /\ Forall (fun c => reported c = true) (scfgs s))
  \/ exists a s', step key fl s a = Some s'
                  /\ steps_left fl s' < steps_left fl s
                  /\ rpc s' <> RFatal
                  /\ panicked s' = false.
Proof.
  intros Hsound Hp Hnf Hfile.
  pose proof Hsound as (Hinv & Hopen & Hord & Hfed & Hret).
  pose proof Hord as (HA & HB & HC & HD & HE & HF).
  pose proof Hinv as (_ & _ & Hm).
  assert (names s = (categories fl).*1 ->
          (forall j c, scfgs s !! j = Some c -> ~ untouched c) ->
          (names s = (categories fl).*1
           /\ Forall (fun c => reported c = true) (scfgs s))
          \/ exists a s', step key fl s a = Some s'
                          /\ steps_left fl s' < steps_left fl s
                          /\ rpc s' = rpc s
                          /\ panicked s' = false) as Hround.
  { intros Hn Hfed'.
    destruct (forallb reported (scfgs s)) eqn:Hall.
    - left. split; [done|].
      apply Is_true_true_2, forallb_True in Hall.
      eapply Forall_impl; [exact Hall|]. intros c Hc.
      by apply Is_true_true_1.
    - right. destruct (not_all_reported _ Hall) as (j & c & Hj & Hc).
      apply (scfg_can_advance key fl s j c); try done.
      + by eapply Hfed'.
      + unfold reported in Hc. by destruct (pc c).
      + intros cfg Hsel. unfold reported in Hc. by rewrite Hsel in Hc. }
  destruct (rpc s) as [|cfg data todo|cfg data i|cfg data| | |] eqn:Hpc;
    [| | | | | |done].
  - right. apply (setup_progress key fl s cfg0); [done|done|by rewrite Hpc].
  - right. apply (setup_progress key fl s cfg0); [done|done|by rewrite Hpc].
  - right. apply (setup_progress key fl s cfg0); [done|done|by rewrite Hpc].
  - destruct Hround as [?|(a & s' & Hs & Hlt & Hr & Hp')]; [done| |by left|].
    + intros j c Hj Hu. specialize (Hfed j c Hj Hu). by rewrite Hpc in Hfed.
    + right. exists a, s'. split_and!; try done. by rewrite Hr.
  - destruct Hround as [?|(a & s' & Hs & Hlt & Hr & Hp')]; [done| |by left|].
    + intros j c Hj Hu. specialize (Hfed j c Hj Hu). by rewrite Hpc in Hfed.
    + right. exists a, s'. split_and!; try done. by rewrite Hr.
  - left. specialize (HD eq_refl). simpl in Hm. split.
    + destruct Hm as [Hm|Hm]; [|done]. by destruct (Hret Hpc Hfile).
    + eapply Forall_impl; [exact HD|]. intros c Hc. unfold reported.
      by rewrite Hc.
Qed.

Lemma pending_from_sound (cfg0 : Config) n : forall s : @system Config,
  steps_left fl s < n ->
  sound fl s ->
  panicked s = false ->
  rpc s <> RFatal ->
  promscrapeConfigFile fl <> "" ->
  exists acts s',
    run key fl s acts = Some s'
    /\ names s' = (categories fl).*1
    /\ Forall (fun c => reported c = true) (scfgs s')
    /\ panicked s' = false
    /\ length acts <= steps_left fl s.
Proof.
  induction n as [|n IH]; intros s Hn Hsound Hp Hnf Hfile; [lia|].
  destruct (pending_progress s cfg0 Hsound Hp Hnf Hfile)
    as [[Hnames Hall]|(a & s1 & Hs & Hm & Hnf1 & Hp1)].
  - exists [], s. split_and!; [done|done|done|done|simpl; lia].
  - destruct (IH s1) as (acts & s' & Hrun & Hnames & Hall & Hp' & Hlen);
      [lia|by eapply step_sound|done|done|done|].
    exists (a :: acts), s'. split_and!; [|done|done|done|simpl; lia].
    simpl. by rewrite Hs.
Qed.

(** C8, as the code has it.  In every state the process reaches:
    - the counter is the [scs.add] calls of the schedule minus its
      decrements, and there is one scrape config per [scs.add]: one
      increment per scrape config, at its creation;
    - no scrape config runs the decrement twice, and those that have run
      it are the ones past it ([reported]);
    - a decrement comes after the first [updateScrapeWork] of its scrape
      config in the schedule, and that [sg.update] returned: the group is
      the result of at least one [update];
    - every step moves the counter by [pending_delta];
    - once the ten categories are created, the counter reads zero exactly
      when every one of them has run the decrement (and then every category
      has applied the initial config), it never increases, and the
      categories stay;
    - with a config file, as long as the process has neither crashed nor
      ended in [logger.Fatalf], there is a continuation, of at most
      [steps_left] steps, that brings the counter to zero with the ten
      categories created.
    ([cfg0] is any config [loadConfig] may return at startup.) *)
Theorem pending_ledger (cfg0 : Config) acts (s : @system Config) :
  run key fl init acts = Some s ->
  (length (scfgs s) = adds acts
   /\ PendingScrapeConfigs s
      = (Z.of_nat (adds acts) - Z.of_nat (length (reports acts)))%Z)
  /\ (NoDup (reports acts)
      /\ forall i, i ∈ reports acts
                   <-> exists c, scfgs s !! i = Some c /\ reported c = true)
  /\ ((forall pre i post, acts = pre ++ AScReport i :: post ->
         exists sws, AScFirstReconcile i sws ∈ pre)
      /\ Forall (fun c => applied_initial c = true ->
                   exists lists, lists <> [] /\ group_history key fl c lists)
           (scfgs s))
  /\ (forall a s', step key fl s a = Some s' ->
        PendingScrapeConfigs s'
        = (PendingScrapeConfigs s + pending_delta a)%Z)
  /\ (names s = (categories fl).*1 ->
      (PendingScrapeConfigs s = 0%Z
       <-> Forall (fun c => reported c = true) (scfgs s))
      /\ (PendingScrapeConfigs s = 0%Z -> every_category_applied fl s = true)
      /\ forall acts' s', run key fl s acts' = Some s' ->
           names s' = (categories fl).*1
           /\ (PendingScrapeConfigs s' <= PendingScrapeConfigs s)%Z)
  /\ (promscrapeConfigFile fl <> "" -> panicked s = false ->
      rpc s <> RFatal ->
      exists acts' s',
        run key fl s acts' = Some s'
        /\ names s' = (categories fl).*1
        /\ PendingScrapeConfigs s' = 0%Z
        /\ length acts' <= steps_left fl s).
Proof.
  intros Hrun.
  pose proof (run_inv key fl _ _ _ (inv_init fl) Hrun) as Hinv.
  pose proof Hinv as (Hp & _ & _).
  destruct (run_ledger acts s Hrun) as (Hlen & Hpend & Hnd & Hrep & _).
  unfold progress_flags in Hlen, Hrep. rewrite length_fmap in Hlen.
  assert (PendingScrapeConfigs s = 0%Z
          <-> Forall (fun c => reported c = true) (scfgs s)) as Hzero
    by (rewrite Hp, <- unreported_zero; lia).
  split_and!; try done.
  - (* who has run the decrement *)
    intros i. rewrite Hrep, list_lookup_fmap. split.
    + destruct (scfgs s !! i) as [c|]; simpl; [|done].
      intros [= _ Hr]. by exists c.
    + intros (c & -> & Hr). simpl. f_equal. f_equal; [|done].
      unfold reported, applied_initial in *. by destruct (pc c).
  - (* a decrement follows the first reconcile *)
    intros pre i post ->.
    rewrite run_app in Hrun.
    destruct (run key fl init pre) as [s1|] eqn:Hpre; simpl in Hrun; [|done].
    destruct (step key fl s1 (AScReport i)) as [s2|] eqn:Hs; simpl in Hrun;
      [|done].
    destruct (step_flags _ _ _ Hs) as [Hi _].
    destruct (run_ledger pre s1 Hpre) as (_ & _ & _ & _ & Hfirst).
    assert (i ∈ first_updates pre) as Hin by (apply Hfirst; by exists false).
    unfold first_updates in Hin.
    apply list_elem_of_omap in Hin as (a & Ha & Hi').
    destruct a; try done. inversion Hi'; subst. by exists sws.
  - (* and that update returned *)
    destruct (run_histories key fl acts init s) as [_ Hh];
      [split; [apply groups_open_init|done]|done|].
    eapply Forall_impl; [exact Hh|]. intros c [lists Hl] Ha.
    exists lists. split; [|done]. intros ->.
    destruct Hl as (_ & _ & [Hl _]). rewrite (Hl eq_refl) in Ha. done.
  - (* every step *)
    intros a s' Hs. by destruct (step_inv _ _ _ _ _ Hinv Hs) as (_ & ? & _).
  - (* once the ten categories are created *)
    intros Hnames. split_and!; [done| |].
    + intros Hz. apply all_reported_applied; [done|by apply Hzero].
    + intros acts' s' Hrun'.
      pose proof (names_all_created _ Hnames) as Hten.
      destruct (inv_all_created s Hinv Hten) as [_ Hdone].
      pose proof (run_inv key fl _ _ _ Hinv Hrun') as Hinv'.
      split; [|by eapply run_after_adds].
      assert (run key fl init (acts ++ acts') = Some s') as Hall
        by (by rewrite run_app, Hrun).
      destruct (run_ledger _ s' Hall) as (Hlen' & _).
      unfold progress_flags in Hlen'.
      rewrite length_fmap, adds_app in Hlen'.
      pose proof Hinv' as (_ & Hle & _).
      apply (inv_all_created s'); [done|lia].
  - (* down to zero *)
    intros Hfile Hpan Hnf.
    pose proof (run_sound key fl acts init s (sound_init fl) Hrun)
      as Hsound.
    destruct (pending_from_sound cfg0 (S (steps_left fl s)) s)
      as (acts' & s' & Hrun' & Hnames & Hall & _ & Hbound);
      [lia|done|done|done|done|].
    exists acts', s'. split_and!; [done|done| |done].
    pose proof (run_inv key fl _ _ _ Hinv Hrun') as (Hp' & _).
    rewrite Hp'. apply unreported_zero in Hall. lia.
Qed.

End Ledger.

Section Samples.

Import RunnerSample.

(** *** The properties of the process on the sample runs *)

(** C8 on the sample process waiting in its select for the first time:
    ten adds, no decrement yet, and the counter can come down to zero. *)
Lemma pending_ledger_witness :
  PendingScrapeConfigs waiting_state
  = (Z.of_nat (adds (boot 1 raw))
     - Z.of_nat (length (reports (boot 1 raw))))%Z
  /\ (PendingScrapeConfigs waiting_state = 0%Z
      <-> Forall (fun c => reported c = true) (scfgs waiting_state))
  /\ exists acts' s',
       run Sample.url_key fl waiting_state acts' = Some s'
       /\ names s' = (categories fl).*1
       /\ PendingScrapeConfigs s' = 0%Z
       /\ length acts' <= steps_left fl waiting_state.
Proof.
  destruct (pending_ledger Sample.url_key fl 0 (boot 1 raw) waiting_state)
    as ((_ & Hp) & _ & _ & _ & Hall & Hdown).
  - vm_compute. reflexivity.
  - split_and!.
    + exact Hp.
    + apply Hall. vm_compute. reflexivity.
    + apply Hdown.
      * discriminate.
      * vm_compute. reflexivity.
      * vm_compute. discriminate.
Defined.

(** C8 fails on the code as the specification words it.  Right after
    [Init] the counter reads zero and no category has applied anything,
    and the first [scs.add] then raises it; and when every category has
    applied the initial config but none has run the decrement yet, it reads
    ten. *)
Lemma zero_iff_all_applied_counterexample :
  ~ zero_iff_all_applied fl (@init nat)
  /\ (run Sample.url_key fl init [ARunnerStart (LoadOk 1 raw); ARunnerAdd]
      = Some first_add_state
      /\ PendingScrapeConfigs (@init nat) = 0%Z
      /\ PendingScrapeConfigs first_add_state = 1%Z)
  /\ run Sample.url_key fl init (boot 1 raw ++ reconciled_round)
     = Some applied_state
  /\ ~ zero_iff_all_applied fl applied_state.
Proof.
  split_and!.
  - intros [H _]. specialize (H eq_refl). vm_compute in H. discriminate H.
  - vm_compute. reflexivity.
  - vm_compute. reflexivity.
  - vm_compute. reflexivity.
  - vm_compute. reflexivity.
  - intros [_ H].
    assert (every_category_applied fl applied_state = true) as Hall
      by (vm_compute; reflexivity).
    specialize (H Hall). vm_compute in H. discriminate H.
Qed.

(** Two calls of [Stop()] bring the sample process down. *)
Lemma only_second_Stop_panics_witness :
  (panicked crashed_state = true <-> stop_calls double_stop = 2)
  /\ (globalStopClosed crashed_state = true <-> 1 <= stop_calls double_stop)
  /\ stop_calls double_stop <= 2
  /\ (stop_calls double_stop <= 1 -> panicked crashed_state = false)
  /\ groups_open crashed_state.
Proof.
  apply (only_second_Stop_panics Sample.url_key fl double_stop).
  vm_compute. reflexivity.
Defined.

(** The sample shutdown went in order. *)
Lemma shutdown_in_order_witness :
  (scsStopClosed stopped_state = true -> globalStopClosed stopped_state = true)
  /\ Forall (fun c => pc c = Exited -> globalStopClosed stopped_state = true)
       (scfgs stopped_state)
  /\ (rpc stopped_state = RReturned ->
      Forall (fun c => pc c = Exited) (scfgs stopped_state)).
Proof.
  apply (shutdown_in_order Sample.url_key fl
           (boot 1 raw ++ first_round ++ shutdown)).
  vm_compute. reflexivity.
Defined.

(** After the first fan-out of the sample process every scrape config has
    its first config. *)
Lemma first_config_reaches_everyone_witness :
  Forall (fun c => ~ untouched c) (scfgs waiting_state).
Proof.
  assert (run Sample.url_key fl init (boot 1 raw) = Some waiting_state)
    as Hrun by (vm_compute; reflexivity).
  assert (rpc waiting_state = RSelect 1 raw) as Hpc
    by (vm_compute; reflexivity).
  apply Forall_lookup_2. intros j c Hj.
  pose proof (first_config_reaches_everyone Sample.url_key fl (boot 1 raw)
                waiting_state Hrun j c Hj) as H.
  by rewrite Hpc in H.
Defined.

(** In the sample process [static_configs] never ticks. *)
Lemma ticks_follow_flags_witness :
  (forall i c, scfgs ready_state !! i = Some c ->
     categories fl !! i = Some (scName c, checkInterval c))
  /\ (forall i sws s',
        step Sample.url_key fl ready_state (AScTick i sws) = Some s' ->
        exists nm iv, categories fl !! i = Some (nm, iv) /\ (0 < iv)%Z)
  /\ (forall sws,
        step Sample.url_key fl ready_state (AScTick 0 sws) = None).
Proof.
  apply (ticks_follow_flags Sample.url_key fl (boot 1 raw ++ first_round)).
  vm_compute. reflexivity.
Defined.

(** One changed reload in the sample process: the counter reads one. *)
Lemma reloads_counter_matches_log_witness :
  configReloads reloading_state = found_changes (rlog reloading_state).
Proof.
  apply (reloads_counter_matches_log Sample.url_key fl early_reload).
  vm_compute. reflexivity.
Defined.


(** After the sample shutdown every group is stopped. *)
Lemma Stop_returns_all_stopped_witness :
  Forall stopped (scfgs stopped_state).
Proof.
  apply (Stop_returns_all_stopped Sample.url_key fl
           (boot 1 raw ++ first_round ++ shutdown)).
  - vm_compute. reflexivity.
  - vm_compute. reflexivity.
Defined.

(** A SIGHUP in the sample process with a file that cannot be read. *)
Lemma failed_reload_keeps_config_witness :
  step Sample.url_key fl waiting_state (ARunnerSighup (LoadErr "bad yaml"))
  = Some {| PendingScrapeConfigs := PendingScrapeConfigs waiting_state;
            rpc := RSelect 1 raw;
            scfgs := scfgs waiting_state;
            scsStopClosed := scsStopClosed waiting_state;
            globalStopClosed := globalStopClosed waiting_state;
            configReloads := configReloads waiting_state;
            rlog := rlog waiting_state ++ [LogSighup]
                    ++ [LogReloadFailed "bad yaml"];
            panicked := false |}.
Proof.
  apply (failed_reload_keeps_config Sample.url_key fl waiting_state 1 raw
           "bad yaml" true).
  - reflexivity.
  - reflexivity.
  - discriminate.
Defined.

(** A SIGHUP in the sample process with a changed file. *)
Lemma changed_reload_applied_witness :
  step Sample.url_key fl waiting_state (ARunnerSighup (LoadOk 2 raw2))
  = Some {| PendingScrapeConfigs := PendingScrapeConfigs waiting_state;
            rpc := if decide (0 < length (scfgs waiting_state))
                   then RFanout 2 raw2 0
                   else RSelect 2 raw2;
            scfgs := scfgs waiting_state;
            scsStopClosed := scsStopClosed waiting_state;
            globalStopClosed := globalStopClosed waiting_state;
            configReloads := S (configReloads waiting_state);
            rlog := rlog waiting_state ++ [LogSighup] ++ [LogFoundChanges];
            panicked := false |}.
Proof.
  apply (changed_reload_applied Sample.url_key fl waiting_state 1 raw 2 raw2
           true).
  - reflexivity.
  - reflexivity.
  - reflexivity.
  - discriminate.
Defined.

(** The sample process started on a file that cannot be read. *)
Lemma startup_load_error_is_fatal_witness :
  exists s',
    step Sample.url_key fl (@init nat) (ARunnerStart (LoadErr "bad yaml"))
    = Some s'
    /\ rpc s' = RFatal
    /\ scfgs s' = []
    /\ PendingScrapeConfigs s' = 0%Z
    /\ rlog s' = rlog (@init nat) ++ [LogReading; LogFatal "bad yaml"]
    /\ forall a s'', step Sample.url_key fl s' a = Some s'' -> a = AStop.
Proof.
  apply (startup_load_error_is_fatal Sample.url_key fl [] init "bad yaml").
  - discriminate.
  - reflexivity.
  - reflexivity.
  - reflexivity.
Defined.

(** The fan-out of the early reload delivers to [static_configs] and is
    suspended at the second scrape config. *)
Lemma fanout_refines_updateConfig_witness :
  match Chan.updateConfig 2 (cfgCh <$> scfgs reloading_state) with
  | Chan.Delivered chs =>
      run Sample.url_key fl reloading_state
        (replicate (length (scfgs reloading_state)) ARunnerSend)
      = Some (set_rpc (RSelect 2 raw2)
                (set_scfgs (with_buffers (scfgs reloading_state) chs)
                   reloading_state))
  | Chan.Blocked i chs =>
      run Sample.url_key fl reloading_state (replicate i ARunnerSend)
      = Some (set_rpc (RFanout 2 raw2 i)
                (set_scfgs (with_buffers (scfgs reloading_state) chs)
                   reloading_state))
      /\ step Sample.url_key fl
           (set_rpc (RFanout 2 raw2 i)
              (set_scfgs (with_buffers (scfgs reloading_state) chs)
                 reloading_state))
           ARunnerSend = None
  end.
Proof.
  apply (fanout_refines_updateConfig Sample.url_key fl reloading_state 2
           raw2).
  - vm_compute. reflexivity.
  - vm_compute. reflexivity.
  - vm_compute. discriminate.
Defined.


End Samples.

End RunnerFacts.
